(** * BucketORM: CRUD records over an object-storage bucket

    A shallow embedding of the record-mapping layer of the repository: the
    classes BucketORM (src/core/bucketorm.ts), BucketModel
    (src/core/model.ts) and BucketSchemaModel (src/core/schema-model.ts)
    and the types of src/types/index.ts, on top of a model of the part of
    the JavaScript runtime that the code relies on (JSON.stringify and
    JSON.parse, Date, String.prototype.endsWith and replace,
    Array.prototype.slice), followed by theorems about the behaviour of the
    embedded operations.

    The file has three parts: the definitions (runtime, then the
    repository's code, then the notions the statements use), the lemmas
    about the runtime and about the operations, and the theorems for the
    claims C1 to C10 with their instances at concrete inputs. *)

From Stdlib Require Import ZArith Ascii String DecimalN.
From stdpp Require Import gmap strings list.

Set Default Proof Using "Type".

(** ** Characters and text

    A JavaScript string is modelled as the [string] of its UTF-8 bytes;
    text processing works on [list ascii]. *)

Abbreviation chars := (list ascii).

Definition str (s : string) : chars := list_ascii_of_string s.
Definition unstr (l : chars) : string := string_of_list_ascii l.

Definition is_digit (c : ascii) : bool :=
  match c with
  | "0" | "1" | "2" | "3" | "4" | "5" | "6" | "7" | "8" | "9" => true
  | _ => false
  end%char.

Definition is_zero (c : ascii) : bool :=
  match c with "0"%char => true | _ => false end.

(** JSON whitespace: space, tab, line feed, carriage return. *)
Definition is_ws (c : ascii) : bool :=
  match c with
  | " "%char | "009"%char | "010"%char | "013"%char => true
  | _ => false
  end.

(** [span p l] splits [l] into its longest prefix satisfying [p] and the
    rest. *)
Fixpoint span (p : ascii → bool) (l : chars) : chars * chars :=
  match l with
  | c :: l' =>
      if p c then let '(a, b) := span p l' in (c :: a, b) else ([], l)
  | [] => ([], [])
  end.

Definition strip_trailing_zeros (l : chars) : chars :=
  rev (span is_zero (rev l)).2.

(** Decimal digits of a natural number, through the Standard Library's
    decimal representation. *)
Fixpoint digits_of_uint (u : Decimal.uint) : chars :=
  match u with
  | Decimal.Nil => []
  | Decimal.D0 u => "0"%char :: digits_of_uint u
  | Decimal.D1 u => "1"%char :: digits_of_uint u
  | Decimal.D2 u => "2"%char :: digits_of_uint u
  | Decimal.D3 u => "3"%char :: digits_of_uint u
  | Decimal.D4 u => "4"%char :: digits_of_uint u
  | Decimal.D5 u => "5"%char :: digits_of_uint u
  | Decimal.D6 u => "6"%char :: digits_of_uint u
  | Decimal.D7 u => "7"%char :: digits_of_uint u
  | Decimal.D8 u => "8"%char :: digits_of_uint u
  | Decimal.D9 u => "9"%char :: digits_of_uint u
  end.

Fixpoint uint_of_digits (l : chars) : Decimal.uint :=
  match l with
  | [] => Decimal.Nil
  | c :: l' =>
      let u := uint_of_digits l' in
      match c with
      | "1" => Decimal.D1 u | "2" => Decimal.D2 u | "3" => Decimal.D3 u
      | "4" => Decimal.D4 u | "5" => Decimal.D5 u | "6" => Decimal.D6 u
      | "7" => Decimal.D7 u | "8" => Decimal.D8 u | "9" => Decimal.D9 u
      | _ => Decimal.D0 u
      end%char
  end.

Definition decimal_of_N (n : N) : chars := digits_of_uint (N.to_uint n).
Definition N_of_decimal (l : chars) : N := N.of_uint (uint_of_digits l).

(** ** Numbers

    A finite JavaScript Number is represented by the triple that
    Number::toString works on: its sign, its significant decimal digits
    [d1 .. dk] (first and last digit non-zero) and the position [n] of the
    decimal point, standing for [0.d1..dk * 10^n].  Zero has no digits.
    NaN and the infinities are separate constructors of [value] below.
    Every double has such a triple (its shortest round-trip decimal); the
    rounding of longer literals to the nearest double is not modelled. *)

Record number := Num {
  num_neg : bool;
  num_digits : chars;
  num_point : Z
}.

Global Instance ascii_eq_dec : EqDecision ascii := ascii_dec.
Global Instance number_eq_dec : EqDecision number.
Proof. solve_decision. Defined.

Definition zero : number := Num false [] 0.

Definition wf_number (x : number) : bool :=
  match num_digits x with
  | [] => negb (num_neg x) && (num_point x =? 0)%Z
  | d :: _ =>
      forallb is_digit (num_digits x) && negb (is_zero d)
      && negb (is_zero (List.last (num_digits x) "1"%char))
  end.

(** Number::toString (radix 10) for finite numbers, ECMA-262 6.1.6.1.20. *)
Definition Number_toString (x : number) : chars :=
  match num_digits x with
  | [] => ["0"%char]
  | d :: ds =>
      let k := Z.of_nat (length (d :: ds)) in
      let n := num_point x in
      (if num_neg x then ["-"%char] else []) ++
      (if (k <=? n)%Z && (n <=? 21)%Z then
         (d :: ds) ++ replicate (Z.to_nat (n - k)) "0"%char
       else if (0 <? n)%Z && (n <=? 21)%Z then
         take (Z.to_nat n) (d :: ds) ++ "."%char :: drop (Z.to_nat n) (d :: ds)
       else if (-6 <? n)%Z && (n <=? 0)%Z then
         "0"%char :: "."%char :: replicate (Z.to_nat (- n)) "0"%char ++ d :: ds
       else
         (d :: match ds with [] => [] | _ => "."%char :: ds end) ++
         "e"%char :: (if (0 <? n - 1)%Z then "+"%char else "-"%char) ::
         decimal_of_N (Z.abs_N (n - 1)))
  end.

(** The number denoted by integer digits [i], fraction digits [f] and
    decimal exponent [e]. *)
Definition number_of_parts (neg : bool) (i f : chars) (e : Z) : number :=
  let '(lead, body) := span is_zero (i ++ f) in
  match strip_trailing_zeros body with
  | [] => zero
  | core => Num neg core (Z.of_nat (length i) - Z.of_nat (length lead) + e)
  end.

(** A JSON number token: an optional minus sign, an integer part without
    leading zeros, an optional fraction (a dot and at least one digit) and
    an optional exponent (e or E, an optional sign, at least one digit). *)
Definition lex_exponent (s : chars) : option (Z * chars) :=
  match s with
  | c :: r =>
      if bool_decide (c = "e"%char) || bool_decide (c = "E"%char) then
        let '(sg, r1) :=
          match r with
          | "+"%char :: r1 => (false, r1)
          | "-"%char :: r1 => (true, r1)
          | _ => (false, r)
          end in
        match span is_digit r1 with
        | ([], _) => None
        | (x, r2) =>
            let e := Z.of_N (N_of_decimal x) in
            Some (if sg then (- e)%Z else e, r2)
        end
      else Some (0%Z, s)
  | [] => Some (0%Z, s)
  end.

Definition lex_fraction (s : chars) : option (chars * chars) :=
  match s with
  | "."%char :: r =>
      match span is_digit r with
      | ([], _) => None
      | (f, r1) => Some (f, r1)
      end
  | _ => Some ([], s)
  end.

Definition lex_integer (s : chars) : option (chars * chars) :=
  match span is_digit s with
  | ([], _) => None
  | ("0"%char :: _ :: _, _) => None
  | (i, r) => Some (i, r)
  end.

Definition lex_unsigned (neg : bool) (s : chars) : option (number * chars) :=
  '(i, s2) ← lex_integer s;
  '(f, s3) ← lex_fraction s2;
  '(e, s4) ← lex_exponent s3;
  Some (number_of_parts neg i f e, s4).

Definition lex_number (s : chars) : option (number * chars) :=
  match s with
  | "-"%char :: r => lex_unsigned true r
  | _ => lex_unsigned false s
  end.

(** The characters that can continue a number token. *)
Definition is_number_char (c : ascii) : bool :=
  is_digit c ||
  match c with "."%char | "e"%char | "E"%char => true | _ => false end.

Definition starts_with (p : ascii → bool) (l : chars) : bool :=
  match l with c :: _ => p c | [] => false end.

(** Integers as numbers, for writing examples. *)
Definition number_of_Z (z : Z) : number :=
  number_of_parts (z <? 0)%Z (decimal_of_N (Z.abs_N z)) [] 0.


(** ** JSON text *)

(** Text written with single quotes standing for double quotes. *)
Definition sq (s : string) : chars :=
  map (λ c, if bool_decide (c = "'"%char) then "034"%char else c) (str s).

Definition hex_digit (n : N) : ascii :=
  nth (N.to_nat n) (str "0123456789abcdef") "0"%char.

Definition hex_value (c : ascii) : option N :=
  let n := N_of_ascii c in
  if (48 <=? n)%N && (n <=? 57)%N then Some (n - 48)%N
  else if (97 <=? n)%N && (n <=? 102)%N then Some (n - 87)%N
  else if (65 <=? n)%N && (n <=? 70)%N then Some (n - 55)%N
  else None.

(** QuoteJSONString, ECMA-262 25.5.2.3, one code unit at a time. *)
Definition quote_char (c : ascii) : chars :=
  match c with
  | "008"%char => str "\b"
  | "009"%char => str "\t"
  | "010"%char => str "\n"
  | "012"%char => str "\f"
  | "013"%char => str "\r"
  | "034"%char => ["\"%char; "034"%char]
  | "\"%char => str "\\"
  | _ =>
      let n := N_of_ascii c in
      if (n <? 32)%N then
        str "\u00" ++ [hex_digit (n / 16); hex_digit (n mod 16)]
      else [c]
  end.

Definition quote (s : chars) : chars :=
  "034"%char :: flat_map quote_char s ++ ["034"%char].

(** The UTF-8 bytes of a code point given by a \u escape (a surrogate half
    is encoded on its own, as three bytes). *)
Definition utf8_of_code (n : N) : chars :=
  if (n <? 128)%N then [ascii_of_N n]
  else if (n <? 2048)%N then
    [ascii_of_N (192 + n / 64); ascii_of_N (128 + n mod 64)]
  else
    [ascii_of_N (224 + n / 4096); ascii_of_N (128 + (n / 64) mod 64);
     ascii_of_N (128 + n mod 64)].

Definition hex4 (a b c d : ascii) : option N :=
  x1 ← hex_value a; x2 ← hex_value b; x3 ← hex_value c; x4 ← hex_value d;
  Some (((x1 * 16 + x2) * 16 + x3) * 16 + x4)%N.

(** The body of a JSON string literal, after its opening quote: the decoded
    string and the text after the closing quote. *)
Fixpoint unquote (s : chars) : option (chars * chars) :=
  match s with
  | [] => None
  | "034"%char :: r => Some ([], r)
  | "\"%char :: e :: r =>
      match e with
      | "u"%char =>
          match r with
          | a :: b :: c :: d :: r' =>
              n ← hex4 a b c d;
              '(t, r'') ← unquote r';
              Some (utf8_of_code n ++ t, r'')
          | _ => None
          end
      | _ =>
          c ← match e with
              | "034"%char | "\"%char | "/"%char => Some e
              | "b"%char => Some "008"%char
              | "f"%char => Some "012"%char
              | "n"%char => Some "010"%char
              | "r"%char => Some "013"%char
              | "t"%char => Some "009"%char
              | _ => None
              end;
          '(t, r') ← unquote r;
          Some (c :: t, r')
      end
  | c :: r =>
      if (N_of_ascii c <? 32)%N then None
      else '(t, r') ← unquote r; Some (c :: t, r')
  end.

(** The JSON values: what JSON.parse can produce and what JSON.stringify
    prints. *)
#[warnings="-register-all"]
Inductive json :=
  | JNull
  | JBool (b : bool)
  | JNum (n : number)
  | JStr (s : string)
  | JArr (items : list json)
  | JObj (members : list (string * json)).

(** A line break followed by [n] spaces. *)
Definition newline (n : nat) : chars := "010"%char :: replicate n " "%char.

(** SerializeJSONObject / SerializeJSONArray with a gap of two spaces, as
    in [JSON.stringify(v, null, 2)]; [ind] is the current indentation. *)
Fixpoint print_json (ind : nat) (j : json) : chars :=
  match j with
  | JNull => str "null"
  | JBool true => str "true"
  | JBool false => str "false"
  | JNum n => Number_toString n
  | JStr s => quote (str s)
  | JArr [] => str "[]"
  | JArr (x :: xs) =>
      "["%char :: newline (ind + 2) ++ print_json (ind + 2) x ++
      flat_map (λ y, ","%char :: newline (ind + 2) ++ print_json (ind + 2) y) xs ++
      newline ind ++ ["]"%char]
  | JObj [] => str "{}"
  | JObj (m :: ms) =>
      "{"%char :: newline (ind + 2) ++
      quote (str m.1) ++ str ": " ++ print_json (ind + 2) m.2 ++
      flat_map (λ y, ","%char :: newline (ind + 2) ++
                     quote (str y.1) ++ str ": " ++ print_json (ind + 2) y.2) ms ++
      newline ind ++ ["}"%char]
  end.

Definition skip_ws (s : chars) : chars := (span is_ws s).2.

(** [expect w s] is the text after the word [w] at the start of [s]. *)
Fixpoint expect (w s : chars) : option chars :=
  match w, s with
  | [], _ => Some s
  | a :: w', b :: s' => if bool_decide (a = b) then expect w' s' else None
  | _ :: _, [] => None
  end.

(** A recursive-descent parser for the JSON grammar (ECMA-404). Every call
    uses one unit of [fuel]; [JSON_parse_text] below supplies more than any
    text can use. *)
Fixpoint parse_value (fuel : nat) (s : chars) : option (json * chars) :=
  match fuel with
  | 0 => None
  | S fuel =>
      match skip_ws s with
      | "n"%char :: r => r' ← expect (str "ull") r; Some (JNull, r')
      | "t"%char :: r => r' ← expect (str "rue") r; Some (JBool true, r')
      | "f"%char :: r => r' ← expect (str "alse") r; Some (JBool false, r')
      | "034"%char :: r => '(t, r') ← unquote r; Some (JStr (unstr t), r')
      | "["%char :: r =>
          match skip_ws r with
          | "]"%char :: r' => Some (JArr [], r')
          | _ => '(xs, r') ← parse_elements fuel r; Some (JArr xs, r')
          end
      | "{"%char :: r =>
          match skip_ws r with
          | "}"%char :: r' => Some (JObj [], r')
          | _ => '(ms, r') ← parse_members fuel r; Some (JObj ms, r')
          end
      | s' => '(n, r) ← lex_number s'; Some (JNum n, r)
      end
  end
with parse_elements (fuel : nat) (s : chars) : option (list json * chars) :=
  match fuel with
  | 0 => None
  | S fuel =>
      '(x, r) ← parse_value fuel s;
      match skip_ws r with
      | ","%char :: r' => '(xs, r'') ← parse_elements fuel r'; Some (x :: xs, r'')
      | "]"%char :: r' => Some ([x], r')
      | _ => None
      end
  end
with parse_members (fuel : nat) (s : chars)
    : option (list (string * json) * chars) :=
  match fuel with
  | 0 => None
  | S fuel =>
      match skip_ws s with
      | "034"%char :: r =>
          '(k, r1) ← unquote r;
          match skip_ws r1 with
          | ":"%char :: r2 =>
              '(v, r3) ← parse_value fuel r2;
              match skip_ws r3 with
              | ","%char :: r4 =>
                  '(ms, r5) ← parse_members fuel r4;
                  Some ((unstr k, v) :: ms, r5)
              | "}"%char :: r4 => Some ([(unstr k, v)], r4)
              | _ => None
              end
          | _ => None
          end
      | _ => None
      end
  end.

(** The syntactic part of JSON.parse: [None] stands for a SyntaxError. *)
Definition JSON_parse_text (s : chars) : option json :=
  '(j, r) ← parse_value (S (length s)) s;
  match skip_ws r with [] => Some j | _ => None end.

Fixpoint wf_json (j : json) : bool :=
  match j with
  | JNum n => wf_number n
  | JArr xs => forallb wf_json xs
  | JObj ms => forallb (λ m, wf_json m.2) ms
  | _ => true
  end.

Fixpoint json_size (j : json) : nat :=
  match j with
  | JArr xs => S (list_sum (map (λ x, S (json_size x)) xs))
  | JObj ms => S (list_sum (map (λ m, S (json_size m.2)) ms))
  | _ => 1
  end.

(** ** Dates

    A Date object holds a time value: milliseconds since the epoch, at most
    8.64e15 in absolute value, or NaN (an invalid Date, [None] below). *)

Definition ms_per_day : Z := 86400000.
Definition max_time : Z := 8640000000000000.

Definition valid_time (t : Z) : bool := (- max_time <=? t)%Z && (t <=? max_time)%Z.

(** Day of a 400-year era (counted from 1 March) to year of era, month and
    day of month, and back. *)
Definition civil_of_doe (doe : Z) : Z * Z * Z :=
  let yoe := ((doe - doe / 1460 + doe / 36524 - doe / 146096) / 365)%Z in
  let doy := (doe - (365 * yoe + yoe / 4 - yoe / 100))%Z in
  let mp := ((5 * doy + 2) / 153)%Z in
  let d := (doy - (153 * mp + 2) / 5 + 1)%Z in
  let m := (if (mp <? 10)%Z then mp + 3 else mp - 9)%Z in
  (yoe, m, d).

Definition doe_of_civil (yoe m d : Z) : Z :=
  let mp := (if (2 <? m)%Z then m - 3 else m + 9)%Z in
  let doy := ((153 * mp + 2) / 5 + d - 1)%Z in
  (yoe * 365 + yoe / 4 - yoe / 100 + doy)%Z.

(** Days since the epoch to (year, month, day) in the proleptic Gregorian
    calendar, and back. *)
Definition civil_from_days (z : Z) : Z * Z * Z :=
  let z' := (z + 719468)%Z in
  let era := (z' / 146097)%Z in
  let '(yoe, m, d) := civil_of_doe (z' mod 146097) in
  ((yoe + era * 400 + (if (m <=? 2)%Z then 1 else 0))%Z, m, d).

Definition days_from_civil (y m d : Z) : Z :=
  let y' := (y - (if (m <=? 2)%Z then 1 else 0))%Z in
  ((y' / 400) * 146097 + doe_of_civil (y' mod 400) m d - 719468)%Z.

Definition digit_char (d : Z) : ascii := ascii_of_N (48 + Z.to_N d).
Definition digit_value (c : ascii) : Z := Z.of_N (N_of_ascii c - 48).

(** [n] written with exactly [w] decimal digits. *)
Fixpoint digits_fixed (w : nat) (n : Z) : chars :=
  match w with
  | 0 => []
  | S w' => digits_fixed w' (n / 10) ++ [digit_char (n mod 10)]
  end.

Definition digits_value (l : chars) : Z :=
  foldl (λ acc c, acc * 10 + digit_value c)%Z 0%Z l.

(** Reads exactly [w] decimal digits. *)
Definition read_digits (w : nat) (s : chars) : option (Z * chars) :=
  let f := take w s in
  if bool_decide (length f = w) && forallb is_digit f
  then Some (digits_value f, drop w s) else None.

(** Date.prototype.toISOString for a valid time value:
    YYYY-MM-DDTHH:mm:ss.sssZ, the year with a sign and six digits outside
    0..9999. *)
Definition toISOString (t : Z) : chars :=
  let '(y, m, d) := civil_from_days (t / ms_per_day) in
  let r := (t mod ms_per_day)%Z in
  (if (0 <=? y)%Z && (y <=? 9999)%Z then digits_fixed 4 y
   else (if (y <? 0)%Z then "-"%char else "+"%char) :: digits_fixed 6 (Z.abs y)) ++
  "-"%char :: digits_fixed 2 m ++ "-"%char :: digits_fixed 2 d ++
  "T"%char :: digits_fixed 2 (r / 3600000) ++
  ":"%char :: digits_fixed 2 ((r / 60000) mod 60) ++
  ":"%char :: digits_fixed 2 ((r / 1000) mod 60) ++
  "."%char :: digits_fixed 3 (r mod 1000) ++ ["Z"%char].

Definition read_year (s : chars) : option (Z * chars) :=
  match s with
  | "+"%char :: r => read_digits 6 r
  | "-"%char :: r =>
      '(y, r') ← read_digits 6 r;
      if (y =? 0)%Z then None else Some ((- y)%Z, r')
  | _ => read_digits 4 s
  end.

(** Date.parse on the format that toISOString produces.  The other
    spellings of the Date Time String Format (date only, no milliseconds,
    a numeric offset) and the fallback formats an engine may accept are
    read as an invalid Date. *)
Definition Date_parse (s : chars) : option Z :=
  '(y, s) ← read_year s;
  s ← expect ["-"%char] s; '(m, s) ← read_digits 2 s;
  s ← expect ["-"%char] s; '(d, s) ← read_digits 2 s;
  s ← expect ["T"%char] s; '(hh, s) ← read_digits 2 s;
  s ← expect [":"%char] s; '(mm, s) ← read_digits 2 s;
  s ← expect [":"%char] s; '(ss, s) ← read_digits 2 s;
  s ← expect ["."%char] s; '(ms, s) ← read_digits 3 s;
  match s with
  | ["Z"%char] =>
      let t := (days_from_civil y m d * ms_per_day +
                hh * 3600000 + mm * 60000 + ss * 1000 + ms)%Z in
      if (1 <=? m)%Z && (m <=? 12)%Z && (1 <=? d)%Z && (d <=? 31)%Z &&
         (hh <? 24)%Z && (mm <? 60)%Z && (ss <? 60)%Z && valid_time t
      then Some t else None
  | _ => None
  end.

(** ** JavaScript values

    The data a record can hold: primitives, Date objects, arrays and plain
    objects.  An object is the list of its own enumerable properties in
    creation order (integer-like keys, which JavaScript enumerates first,
    are not treated specially).  The exotic properties of arrays and
    strings (the length, the indices, the methods of their prototypes) are
    not modelled.  Of an object, a read by a fixed name ([get], for [id],
    [createdAt] and [updatedAt], which no prototype defines) finds the own
    data properties; a read by a key computed at run time
    ([get_computed]) also finds what the object inherits from
    Object.prototype. *)

Inductive js_number :=
  | Finite (n : number)
  | NaN
  | Infinity (neg : bool).

#[warnings="-register-all"]
Inductive value :=
  | VUndefined
  | VNull
  | VBool (b : bool)
  | VNumber (x : js_number)
  | VStr (s : string)
  | VDate (t : option Z)
  | VArr (items : list value)
  | VObj (props : list (string * value)).

Global Instance js_number_eq_dec : EqDecision js_number.
Proof. solve_decision. Defined.

(** ToBoolean. *)
Definition truthy (v : value) : bool :=
  match v with
  | VUndefined | VNull => false
  | VBool b => b
  | VNumber (Finite n) => negb (bool_decide (num_digits n = []))
  | VNumber NaN => false
  | VNumber (Infinity _) => true
  | VStr s => negb (bool_decide (s = EmptyString))
  | VDate _ | VArr _ | VObj _ => true
  end.

(** [typeof v === 'string']. *)
Definition is_string (v : value) : bool :=
  match v with VStr _ => true | _ => false end.

(** The own enumerable properties copied by an object spread. *)
Definition own_props (v : value) : list (string * value) :=
  match v with VObj ps => ps | _ => [] end.

Fixpoint lookup_prop (k : string) (ps : list (string * value)) : option value :=
  match ps with
  | [] => None
  | (k', v) :: ps' => if bool_decide (k' = k) then Some v else lookup_prop k ps'
  end.

(** Defining or overwriting the property [k]: an existing property keeps
    its position. *)
Fixpoint set_prop (k : string) (v : value) (ps : list (string * value))
    : list (string * value) :=
  match ps with
  | [] => [(k, v)]
  | (k', v') :: ps' =>
      if bool_decide (k' = k) then (k, v) :: ps' else (k', v') :: set_prop k v ps'
  end.

(** CopyDataProperties: the properties of [src] defined one by one on
    [ps], as [{...ps, ...src}] does. *)
Definition spread (ps src : list (string * value)) : list (string * value) :=
  foldl (λ acc kv, set_prop kv.1 kv.2 acc) ps src.

(** The errors the runtime itself raises. *)
Inductive JsError :=
  | SyntaxError (message : string)
  | TypeError (message : string).

Definition js_message (e : JsError) : string :=
  match e with SyntaxError m | TypeError m => m end.

(** The property read [v.k] for one of the names [id], [createdAt] and
    [updatedAt]: a TypeError on null and undefined, undefined for a
    missing property. *)
Definition get (v : value) (k : string) : JsError + value :=
  match v with
  | VUndefined =>
      inl (TypeError ("Cannot read properties of undefined (reading '" +:+ k +:+ "')"))
  | VNull =>
      inl (TypeError ("Cannot read properties of null (reading '" +:+ k +:+ "')"))
  | _ => inr (default VUndefined (lookup_prop k (own_props v)))
  end.

(** Strict equality [a === b] between a field of a freshly decoded record
    and a value supplied by the caller.  Primitives compare by value (NaN
    is equal to nothing); Date objects, arrays and objects compare by
    reference, and a decoded record shares no reference with the caller. *)
Definition strict_equals (a b : value) : bool :=
  match a, b with
  | VUndefined, VUndefined | VNull, VNull => true
  | VBool x, VBool y => bool_decide (x = y)
  | VNumber (Finite x), VNumber (Finite y) => bool_decide (x = y)
  | VNumber (Infinity x), VNumber (Infinity y) => bool_decide (x = y)
  | VStr x, VStr y => bool_decide (x = y)
  | _, _ => false
  end.

(** The values of type [any] that a where clause can hold, as far as
    [===] with a field of a record can tell them apart: data, or one of the
    built-in objects that every object inherits from, named by the
    property of Object.prototype that holds it ([toString] for the function
    Object.prototype.toString, [constructor] for Object, [__proto__] for
    Object.prototype itself, which the accessor of that name returns). *)
Inductive any :=
  | Data (v : value)
  | Intrinsic (name : string).

(** The own properties of Object.prototype (ECMA-262 20.1.3 and B.2.2). *)
Definition Object_prototype : list string :=
  ["constructor"; "__defineGetter__"; "__defineSetter__"; "hasOwnProperty";
   "__lookupGetter__"; "__lookupSetter__"; "isPrototypeOf";
   "propertyIsEnumerable"; "toString"; "valueOf"; "__proto__";
   "toLocaleString"]%string.

(** What an object holds under a key: its own property, else what it
    inherits from Object.prototype, else undefined. *)
Definition member (v : value) (k : string) : any :=
  match lookup_prop k (own_props v) with
  | Some x => Data x
  | None =>
      if bool_decide (k ∈ Object_prototype) then Intrinsic k else Data VUndefined
  end.

(** The property read [v[k]] for a key computed at run time, on a value
    that JSON.parse made: a TypeError on null and undefined.  (Read off an
    object; on an array or a string the exotic properties are missing.) *)
Definition get_computed (v : value) (k : string) : JsError + any :=
  match v with
  | VUndefined =>
      inl (TypeError ("Cannot read properties of undefined (reading '" +:+ k +:+ "')"))
  | VNull =>
      inl (TypeError ("Cannot read properties of null (reading '" +:+ k +:+ "')"))
  | _ => inr (member v k)
  end.

(** Strict equality [a === b] between what a decoded record holds under
    a key and a value of a where clause: data compare as [strict_equals]
    tells, a built-in is equal to itself only. *)
Definition strict_equals_any (a b : any) : bool :=
  match a, b with
  | Data x, Data y => strict_equals x y
  | Intrinsic n, Intrinsic n' => bool_decide (n = n')
  | _, _ => false
  end.

(** TimeClip, and the Date constructor applied to a time value and to a
    string. *)
Definition time_clip (t : Z) : option Z := if valid_time t then Some t else None.
Definition Date_of_time (t : Z) : value := VDate (time_clip t).
Definition Date_of_string (s : string) : value := VDate (Date_parse (str s)).

(** SerializeJSONProperty: the JSON value that JSON.stringify prints for
    [v]; [None] when the result is undefined.  A Date serializes through
    toJSON (null when invalid), a non-finite number as null; an undefined
    array item becomes null and an undefined property is left out. *)
Fixpoint to_json (v : value) : option json :=
  match v with
  | VUndefined => None
  | VNull => Some JNull
  | VBool b => Some (JBool b)
  | VNumber (Finite n) => Some (JNum n)
  | VNumber _ => Some JNull
  | VStr s => Some (JStr s)
  | VDate (Some t) => Some (JStr (unstr (toISOString t)))
  | VDate None => Some JNull
  | VArr xs => Some (JArr (map (λ x, default JNull (to_json x)) xs))
  | VObj ps =>
      Some (JObj (omap (λ kv, match to_json kv.2 with
                              | Some j => Some (kv.1, j)
                              | None => None
                              end) ps))
  end.

(** [JSON.stringify(v, null, 2)]. *)
Definition JSON_stringify (v : value) : option string :=
  match to_json v with
  | Some j => Some (unstr (print_json 0 j))
  | None => None
  end.

(** The value JSON.parse builds from parsed text: members are defined in
    order, so that of two members with one key the later value wins. *)
Fixpoint value_of_json (j : json) : value :=
  match j with
  | JNull => VNull
  | JBool b => VBool b
  | JNum n => VNumber (Finite n)
  | JStr s => VStr s
  | JArr xs => VArr (map value_of_json xs)
  | JObj ms => VObj (foldl (λ acc m, set_prop m.1 (value_of_json m.2) acc) [] ms)
  end.

Definition JSON_parse (s : string) : JsError + value :=
  match JSON_parse_text (str s) with
  | Some j => inr (value_of_json j)
  | None => inl (SyntaxError "Unexpected token in JSON")
  end.

(** ToIntegerOrInfinity of a Number. *)
Inductive int_or_inf := Int (z : Z) | PosInf | NegInf.

Definition truncate (n : number) : Z :=
  let k := Z.of_nat (length (num_digits n)) in
  let p := num_point n in
  let i :=
    if (p <=? 0)%Z then 0%Z
    else Z.of_N (N_of_decimal (take (Z.to_nat p) (num_digits n) ++
                               replicate (Z.to_nat (p - k)) "0"%char)) in
  if num_neg n then (- i)%Z else i.

Definition ToIntegerOrInfinity (x : js_number) : int_or_inf :=
  match x with
  | Finite n => Int (truncate n)
  | NaN => Int 0
  | Infinity false => PosInf
  | Infinity true => NegInf
  end.

(** The index that Array.prototype.slice derives from a relative start or
    end for an array of length [len]. *)
Definition relative_index (len : nat) (r : int_or_inf) : nat :=
  match r with
  | NegInf => 0
  | PosInf => len
  | Int z =>
      if (z <? 0)%Z then Z.to_nat (Z.max (Z.of_nat len + z) 0)
      else Z.to_nat (Z.min z (Z.of_nat len))
  end.

(** [l.slice(start, end)]; a missing [end] is the length. *)
Definition Array_slice {A} (l : list A) (start : js_number)
    (end_ : option js_number) : list A :=
  let len := length l in
  let k := relative_index len (ToIntegerOrInfinity start) in
  let final :=
    match end_ with
    | None => len
    | Some e => relative_index len (ToIntegerOrInfinity e)
    end in
  take (final - k) (drop k l).

(** ** Strings *)

(** [s.endsWith(suffix)]. *)
Fixpoint endsWith (s suffix : string) : bool :=
  bool_decide (s = suffix) ||
  match s with
  | EmptyString => false
  | String _ s' => endsWith s' suffix
  end.

Fixpoint drop_string (n : nat) (s : string) : string :=
  match n, s with
  | S n', String _ s' => drop_string n' s'
  | _, _ => s
  end.

(** [s.replace(pattern, replacement)] with a string pattern: the first
    occurrence only.  (The replacement text is taken literally; the code
    only ever replaces by the empty string.) *)
Fixpoint replace (s pattern replacement : string) : string :=
  if String.prefix pattern s then
    replacement +:+ drop_string (String.length pattern) s
  else
    match s with
    | EmptyString => EmptyString
    | String c s' => String c (replace s' pattern replacement)
    end.

(** [xs.join(sep)]. *)
Fixpoint join (sep : string) (xs : list string) : string :=
  match xs with
  | [] => EmptyString
  | [x] => x
  | x :: xs' => x +:+ sep +:+ join sep xs'
  end.

(** ** Errors (src/types/index.ts) *)

Inductive ErrorCode :=
  | RECORD_NOT_FOUND
  | RECORD_ALREADY_EXISTS
  | STORAGE_ERROR
  | INVALID_DATA.

Global Instance ErrorCode_eq_dec : EqDecision ErrorCode.
Proof. solve_decision. Defined.

(** One issue of a ZodError: the path of the offending field and a
    message. *)
Record ZodIssue := { path : list string; issue_message : string }.

(** What [details] can carry: nothing, the error that was caught, or the
    issues of a failed schema validation. *)
Inductive Details :=
  | NoDetails
  | Cause (e : JsError)
  | Issues (errors : list ZodIssue).

Record BucketORMError := {
  code : ErrorCode;
  message : string;
  details : Details
}.

(** The things the code throws or lets through. *)
Inductive Thrown :=
  | BucketORMException (error : BucketORMError)
  | NativeError (e : JsError)
  | ZodError (errors : list ZodIssue).

(** ** The Storage Collaborator (StorageAdapter)

    The bucket is a finite map from keys to bodies.  The collaborator is
    reliable: its four operations do not fail, and [list] returns every key
    with the prefix, in the order of the map (the paging of a real bucket is
    not modelled).  Every call is recorded, the latest first.  The clock is
    the time that [new Date()] reads. *)

Inductive StorageCall :=
  | Upload (key data : string)
  | Download (key : string)
  | Delete (key : string)
  | List (prefix : string).

Record World := {
  objects : gmap string string;
  calls : list StorageCall;
  clock : Z
}.

Inductive Outcome (A : Type) :=
  | Returned (a : A)
  | Threw (e : Thrown).
Arguments Returned {A} a.
Arguments Threw {A} e.

(** A computation that runs against the bucket. *)
Definition M (A : Type) : Type := World → Outcome A * World.

Definition ret {A} (a : A) : M A := λ w, (Returned a, w).
Definition throw {A} (e : Thrown) : M A := λ w, (Threw e, w).
Definition bind {A B} (m : M A) (k : A → M B) : M B :=
  λ w, match m w with
       | (Returned a, w') => k a w'
       | (Threw e, w') => (Threw e, w')
       end.
(** [try m catch (error) h]. *)
Definition try_catch {A} (m : M A) (h : Thrown → M A) : M A :=
  λ w, match m w with
       | (Returned a, w') => (Returned a, w')
       | (Threw e, w') => h e w'
       end.
(** A native operation that may raise. *)
Definition native {A} (r : JsError + A) : M A :=
  match r with inr a => ret a | inl e => throw (NativeError e) end.

Global Instance M_ret : MRet M := @ret.
Global Instance M_bind : MBind M := λ A B k m, bind m k.

Definition record_call (c : StorageCall) (w : World) : World :=
  {| objects := objects w; calls := c :: calls w; clock := clock w |}.

Definition storage_upload (key data : string) : M unit :=
  λ w, (Returned (),
        {| objects := <[key := data]> (objects w);
           calls := Upload key data :: calls w; clock := clock w |}).

Definition storage_download (key : string) : M (option string) :=
  λ w, (Returned (objects w !! key), record_call (Download key) w).

Definition storage_delete (key : string) : M unit :=
  λ w, (Returned (),
        {| objects := base.delete key (objects w);
           calls := Delete key :: calls w; clock := clock w |}).

Definition storage_list (prefix : string) : M (list string) :=
  λ w, (Returned (filter (λ k, String.prefix prefix k = true)
                    (map_to_list (objects w)).*1),
        record_call (List prefix) w).

(** [new Date()]: the current time. *)
Definition new_Date : M value := λ w, (Returned (Date_of_time (clock w)), w).

(** ** BucketModel (src/core/model.ts) *)

Module BucketModel.

(** [FindManyOptions]; a field is [None] when it is undefined. *)
Record FindManyOptions := {
  where_ : option (list (string * any));
  limit : option js_number;
  offset : option js_number
}.

Section model.
Variable modelName : string.

(** Helper method to generate S3 key for a record. *)
Definition generateKey (id : string) : string :=
  modelName +:+ "/" +:+ id +:+ ".json".

(** The text of a string value. *)
Definition text_of (v : value) : string :=
  match v with VStr s => s | _ => EmptyString end.

(** [if (record.f && typeof record.f === 'string') record.f = new Date(record.f)] *)
Definition revive_date (field : string) (record : value) : M value :=
  v ← native (get record field);
  if truthy v && is_string v then
    ret (VObj (set_prop field (Date_of_string (text_of v)) (own_props record)))
  else ret record.

(** The body of the try block of [getRecord]. *)
Definition getRecord_body (id : string) : M value :=
  let key := generateKey id in
  jsonData ← storage_download key;
  match jsonData with
  | None | Some EmptyString => ret VNull
  | Some jsonData =>
      record ← native (JSON_parse jsonData);
      (* Convert date strings back to Date objects *)
      record ← revive_date "createdAt" record;
      record ← revive_date "updatedAt" record;
      ret record
  end.

(** Helper method to retrieve a record by ID (returns null if not found).
    The catch clause rethrows a BucketORMException and wraps anything else;
    nothing in the try block throws a ZodError, whose message is
    abbreviated here. *)
Definition getRecord (id : string) : M value :=
  try_catch (getRecord_body id) (λ error,
    match error with
    | BucketORMException _ => throw error
    | NativeError e =>
        throw (BucketORMException {|
          code := STORAGE_ERROR;
          message := "Failed to retrieve record with ID '" +:+ id +:+ "': "
                     +:+ js_message e;
          details := Cause e |})
    | ZodError errors =>
        throw (BucketORMException {|
          code := STORAGE_ERROR;
          message := "Failed to retrieve record with ID '" +:+ id +:+ "': "
                     +:+ "Schema validation failed";
          details := Issues errors |})
    end).

(** [!id || typeof id !== 'string'] *)
Definition invalid_id (id : value) : bool := negb (truthy id) || negb (is_string id).

(** Create a new record in the bucket. *)
Definition create (data : value) : M value :=
  id ← native (get data "id");
  (* Validate required fields *)
  if invalid_id id then
    throw (BucketORMException {|
      code := INVALID_DATA;
      message := "Record must have a valid string ID";
      details := NoDetails |})
  else
    (* Check if record already exists *)
    existingRecord ← getRecord (text_of id);
    if truthy existingRecord then
      throw (BucketORMException {|
        code := RECORD_ALREADY_EXISTS;
        message := "Record with ID '" +:+ text_of id +:+ "' already exists";
        details := NoDetails |})
    else
      (* Create the record with timestamps *)
      now ← new_Date;
      let record :=
        VObj (set_prop "updatedAt" now
               (set_prop "createdAt" now (spread [] (own_props data)))) in
      let key := generateKey (text_of id) in
      (* Store the record as JSON (JSON.stringify of an object is never
         undefined: the second branch cannot be reached) *)
      match JSON_stringify record with
      | Some jsonData => storage_upload key jsonData;; ret record
      | None => throw (NativeError (TypeError "JSON.stringify returned undefined"))
      end.

(** Find a single record by ID. *)
Definition findOne (id : value) : M value :=
  if invalid_id id then
    throw (BucketORMException {|
      code := INVALID_DATA;
      message := "ID must be a valid string";
      details := NoDetails |})
  else getRecord (text_of id).

(** The loop of [findMany] that loads the records of the listed keys. *)
Fixpoint load_records (prefix : string) (jsonKeys : list string)
    (records : list value) : M (list value) :=
  match jsonKeys with
  | [] => ret records
  | key :: jsonKeys' =>
      (* Extract ID from key (remove prefix and .json extension) *)
      let id := replace (replace key prefix EmptyString) ".json" EmptyString in
      record ← getRecord id;
      load_records prefix jsonKeys'
        (if truthy record then records ++ [record] else records)
  end.

(** [Object.entries(where).every(([key, value]) => record[key] === value)] *)
Definition matches_where (where_ : list (string * any)) (record : value) : bool :=
  forallb (λ kv, match get_computed record kv.1 with
                 | inr field => strict_equals_any field kv.2
                 | inl _ => false
                 end) where_.

(** Find all records for this model. *)
Definition findMany (options : option FindManyOptions) : M (list value) :=
  try_catch
    ((* List all objects with the model prefix *)
     let prefix := modelName +:+ "/" in
     keys ← storage_list prefix;
     (* Filter to only .json files and extract IDs *)
     let jsonKeys := filter (λ key, endsWith key ".json" = true) keys in
     (* Load all records *)
     records ← load_records prefix jsonKeys [];
     (* Apply filtering if where clause is provided *)
     let filteredRecords :=
       match options ≫= where_ with
       | Some w => filter (λ record, matches_where w record = true) records
       | None => records
       end in
     (* Apply pagination *)
     let finalRecords :=
       match options ≫= offset with
       | Some o => Array_slice filteredRecords o None
       | None => filteredRecords
       end in
     let finalRecords :=
       match options ≫= limit with
       | Some l => Array_slice finalRecords (Finite zero) (Some l)
       | None => finalRecords
       end in
     ret finalRecords)
    (λ error,
      match error with
      | BucketORMException _ => throw error
      | NativeError e =>
          throw (BucketORMException {|
            code := STORAGE_ERROR;
            message := "Failed to retrieve records for model '" +:+ modelName
                       +:+ "': " +:+ js_message e;
            details := Cause e |})
      | ZodError errors =>
          throw (BucketORMException {|
            code := STORAGE_ERROR;
            message := "Failed to retrieve records for model '" +:+ modelName
                       +:+ "': " +:+ "Schema validation failed";
            details := Issues errors |})
      end).

(** Update an existing record. *)
Definition update (id : value) (data : value) : M value :=
  (* Validate ID *)
  if invalid_id id then
    throw (BucketORMException {|
      code := INVALID_DATA;
      message := "ID must be a valid string";
      details := NoDetails |})
  else
    (* Check if record exists *)
    existingRecord ← getRecord (text_of id);
    if negb (truthy existingRecord) then
      throw (BucketORMException {|
        code := RECORD_NOT_FOUND;
        message := "Record with ID '" +:+ text_of id +:+ "' not found";
        details := NoDetails |})
    else
      (* Merge existing data with updates *)
      createdAt ← native (get existingRecord "createdAt");
      now ← new_Date;
      let updatedRecord :=
        VObj (set_prop "updatedAt" now
               (set_prop "createdAt" createdAt
                 (set_prop "id" id
                   (spread (spread [] (own_props existingRecord))
                           (own_props data))))) in
      (* Save the updated record (the second branch cannot be reached) *)
      let key := generateKey (text_of id) in
      match JSON_stringify updatedRecord with
      | Some jsonData => storage_upload key jsonData;; ret updatedRecord
      | None => throw (NativeError (TypeError "JSON.stringify returned undefined"))
      end.

(** Delete a record by ID. *)
Definition delete (id : value) : M unit :=
  (* Validate ID *)
  if invalid_id id then
    throw (BucketORMException {|
      code := INVALID_DATA;
      message := "ID must be a valid string";
      details := NoDetails |})
  else
    (* Check if record exists *)
    existingRecord ← getRecord (text_of id);
    if negb (truthy existingRecord) then
      throw (BucketORMException {|
        code := RECORD_NOT_FOUND;
        message := "Record with ID '" +:+ text_of id +:+ "' not found";
        details := NoDetails |})
    else
      (* Delete the record *)
      let key := generateKey (text_of id) in
      storage_delete key.

End model.
End BucketModel.

(** ** BucketSchemaModel (src/core/schema-model.ts)

    A Zod schema is an object of the zod library, taken here by what the
    code uses of it: [parse], which returns the validated data or throws a
    ZodError carrying every issue found (or lets an error of a custom rule
    through), and, for the schemas that have one, the [parse] of the schema
    that [partial()] derives. *)

Inductive ParseResult :=
  | Parsed (validatedData : value)
  | Invalid (errors : list ZodIssue)
  | Raised (e : JsError).

Record ZodSchema := {
  parse : value → ParseResult;
  partial_parse : option (value → ParseResult)
}.

(** [SchemaDefinition<T>] *)
Record SchemaDefinition := { schema : ZodSchema }.

Definition zod_parse (p : value → ParseResult) (data : value) : M value :=
  match p data with
  | Parsed v => ret v
  | Invalid errors => throw (ZodError errors)
  | Raised e => throw (NativeError e)
  end.

Module BucketSchemaModel.

Section schema_model.
Variable modelName : string.
Variable this_schema : ZodSchema.

(** [`Schema validation failed: ${error.errors.map(e =>
    `${e.path.join('.')}: ${e.message}`).join(', ')}`] *)
Definition validation_message (errors : list ZodIssue) : string :=
  "Schema validation failed: " +:+
  join ", " (map (λ e, join "." (path e) +:+ ": " +:+ issue_message e) errors).

(** The catch clause shared by the three validating methods. *)
Definition on_error {A} (error : Thrown) : M A :=
  match error with
  | ZodError errors =>
      throw (BucketORMException {|
        code := INVALID_DATA;
        message := validation_message errors;
        details := Issues errors |})
  | _ => throw error
  end.

(** Create a record with schema validation. *)
Definition createWithValidation (data : value) : M value :=
  try_catch
    ((* Validate the data against the schema *)
     validatedData ← zod_parse (parse this_schema) data;
     (* Use the parent's create method with validated data *)
     BucketModel.create modelName validatedData)
    on_error.

(** Update a record with schema validation. *)
Definition updateWithValidation (id : value) (data : value) : M value :=
  try_catch
    ((* For updates, we create a partial schema if possible *)
     let validationSchema :=
       match partial_parse this_schema with
       | Some p => p
       | None => parse this_schema
       end in
     (* Validate the update data *)
     validatedData ← zod_parse validationSchema data;
     (* Use the parent's update method with validated data *)
     BucketModel.update modelName id validatedData)
    on_error.

(** Get the Zod schema for this model. *)
Definition getSchema : ZodSchema := this_schema.

(** Validate data without saving it. *)
Definition validateData (data : value) : M value :=
  try_catch (zod_parse (parse this_schema) data) on_error.

End schema_model.
End BucketSchemaModel.

(** ** BucketORM (src/core/bucketorm.ts)

    Model instances are objects with an identity: the registry holds
    references into a heap of instances, and a reference is the position at
    which [new] allocated the instance. *)

Inductive Instance :=
  | NewBucketModel (modelName : string)
  | NewBucketSchemaModel (modelName : string) (schema : ZodSchema).

Abbreviation ref := nat (only parsing).

Module BucketORM.

Record BucketORM := {
  models : gmap string ref;
  heap : list Instance
}.

(** [new BucketORM(config)]: no model yet. *)
Definition new : BucketORM := {| models := ∅; heap := [] |}.

Definition alloc (i : Instance) (orm : BucketORM) : ref * list Instance :=
  (length (heap orm), heap orm ++ [i]).

(** Get or create a model for the given name. *)
Definition model (modelName : string) (orm : BucketORM) : ref * BucketORM :=
  (* Check if model already exists *)
  match models orm !! modelName with
  | Some m => (m, orm)
  | None =>
      (* Create new model instance *)
      let '(m, h) := alloc (NewBucketModel modelName) orm in
      (m, {| models := <[modelName := m]> (models orm); heap := h |})
  end.

(** Get or create a schema-aware model for the given name. *)
Definition schemaModel (modelName : string) (schemaDefinition : SchemaDefinition)
    (orm : BucketORM) : ref * BucketORM :=
  let schemaKey := modelName +:+ "_schema" in
  (* Check if schema model already exists *)
  match models orm !! schemaKey with
  | Some m => (m, orm)
  | None =>
      (* Create new schema model instance *)
      let '(m, h) :=
        alloc (NewBucketSchemaModel modelName (schema schemaDefinition)) orm in
      (m, {| models := <[schemaKey := m]> (models orm); heap := h |})
  end.

(** The instance a reference points to. *)
Definition deref (orm : BucketORM) (m : ref) : option Instance := heap orm !! m.

(** The call [m.getSchema()] on a reference: the method exists on
    schema-aware instances only. *)
Definition getSchema (orm : BucketORM) (m : ref) : option ZodSchema :=
  match deref orm m with
  | Some (NewBucketSchemaModel _ s) => Some (BucketSchemaModel.getSchema s)
  | _ => None
  end.

End BucketORM.

(** ** Configuration (src/types/index.ts, BucketORM.fromEnv) *)

Record BucketORMConfig := {
  bucket : string;
  region : option string;
  accessKeyId : option string;
  secretAccessKey : option string;
  endpoint : option string;  (* For MinIO or other S3-compatible services *)
  forcePathStyle : option bool  (* Required for MinIO *)
}.

(** [s || d] for a string that may be undefined: [d] for undefined and
    for the empty string. *)
Definition or_string (s : option string) (d : string) : string :=
  match s with
  | Some (String c s') => String c s'
  | _ => d
  end.

(** [process.env]: the variables that are set. *)
Abbreviation Env := (gmap string string) (only parsing).

(** The configuration that [BucketORM.fromEnv] reads from the
    environment. *)
Definition fromEnv (env : Env) : BucketORMConfig :=
  {| bucket := or_string (env !! "BUCKET_NAME") "bucketorm-dev";
     region := Some (or_string (env !! "AWS_REGION") "us-east-1");
     accessKeyId := env !! "AWS_ACCESS_KEY_ID";
     secretAccessKey := env !! "AWS_SECRET_ACCESS_KEY";
     endpoint := env !! "S3_ENDPOINT";
     forcePathStyle :=
       Some (bool_decide (env !! "S3_FORCE_PATH_STYLE" = Some "true")) |}.

(** ** S3StorageAdapter (src/adapters/s3.ts)

    The S3 client is taken by what the adapter uses of it: [send], which
    resolves to the output of the command or rejects with an error, and
    may change the state of the service.  Of an error the adapter reads
    whether it is an Error, its name, its message and the HTTP status of
    its metadata; of the output of GetObject it reads the body, a stream
    that [transformToString] turns into text or that fails, and of the
    output of ListObjectsV2 the keys of the contents. *)

Record S3Error := {
  instanceof_Error : bool;
  error_name : option string;
  httpStatusCode : option Z;
  error_message : string
}.

Inductive Command :=
  | PutObjectCommand (Bucket Key Body ContentType : string)
  | GetObjectCommand (Bucket Key : string)
  | DeleteObjectCommand (Bucket Key : string)
  | ListObjectsV2Command (Bucket Prefix : string).

Inductive Output :=
  | PutObjectOutput
  | GetObjectOutput (Body : option (S3Error + string))
  | DeleteObjectOutput
  | ListObjectsV2Output (Contents : option (list (option string))).

(** [response.Body] and [response.Contents]: undefined on an output that
    has no such property. *)
Definition Body (response : Output) : option (S3Error + string) :=
  match response with GetObjectOutput body => body | _ => None end.
Definition Contents (response : Output) : option (list (option string)) :=
  match response with ListObjectsV2Output contents => contents | _ => None end.

(** The exception of the adapter: a BucketORMException whose details are
    the error that was caught. *)
Record StorageFailure := {
  failure_code : ErrorCode;
  failure_message : string;
  failure_details : S3Error
}.

(** The options the adapter passes to [new S3Client]. *)
Record S3ClientConfig := {
  client_region : string;
  client_credentials : option (string * string);
  client_endpoint : option string;
  client_forcePathStyle : bool
}.

Module S3StorageAdapter.

(** [new S3StorageAdapter(config)]: the bucket and the options of the
    client, configured for both AWS S3 and MinIO. *)
Definition new (config : BucketORMConfig) : string * S3ClientConfig :=
  (bucket config,
   {| client_region := or_string (region config) "us-east-1";
      client_credentials :=
        match accessKeyId config, secretAccessKey config with
        | Some (String a k), Some (String b s) => Some (String a k, String b s)
        | _, _ => None
        end;
      client_endpoint := endpoint config;
      client_forcePathStyle := default false (forcePathStyle config) |}).

Section adapter.
Context {State : Type}.
Variable send : Command → State → (S3Error + Output) * State.
Variable this_bucket : string.

(** [error instanceof Error ? error.message : 'Unknown error'] *)
Definition message_of (error : S3Error) : string :=
  if instanceof_Error error then error_message error else "Unknown error".

Definition storage_error (text : string) (error : S3Error) : StorageFailure :=
  {| failure_code := STORAGE_ERROR;
     failure_message := text +:+ message_of error;
     failure_details := error |}.

Definition upload (key data : string) (s : State) : (StorageFailure + unit) * State :=
  match send (PutObjectCommand this_bucket key data "application/json") s with
  | (inr _, s') => (inr (), s')
  | (inl error, s') =>
      (inl (storage_error "Failed to upload object to S3: " error), s')
  end.

(** The catch clause of [download]. *)
Definition download_catch (error : S3Error) : StorageFailure + option string :=
  (* Handle "NoSuchKey" error - return null for non-existent objects *)
  if bool_decide (error_name error = Some "NoSuchKey"%string) ||
     bool_decide (httpStatusCode error = Some 404%Z)
  then inr None
  else inl (storage_error "Failed to download object from S3: " error).

Definition download (key : string) (s : State)
    : (StorageFailure + option string) * State :=
  match send (GetObjectCommand this_bucket key) s with
  | (inr response, s') =>
      match Body response with
      | None => (inr None, s')
      | Some (inr body) => (inr (Some body), s')
      | Some (inl error) => (download_catch error, s')
      end
  | (inl error, s') => (download_catch error, s')
  end.

Definition delete (key : string) (s : State) : (StorageFailure + unit) * State :=
  match send (DeleteObjectCommand this_bucket key) s with
  | (inr _, s') => (inr (), s')
  | (inl error, s') =>
      (inl (storage_error "Failed to delete object from S3: " error), s')
  end.

Definition list (prefix : string) (s : State)
    : (StorageFailure + list string) * State :=
  match send (ListObjectsV2Command this_bucket prefix) s with
  | (inr response, s') =>
      (inr match Contents response with
           | Some contents => map (λ Key, or_string Key EmptyString) contents
           | None => []
           end, s')
  | (inl error, s') =>
      (inl (storage_error "Failed to list objects from S3: " error), s')
  end.

End adapter.
End S3StorageAdapter.

(** ** Data for the worked examples *)

Definition empty_world (t : Z) : World := {| objects := ∅; calls := []; clock := t |}.

Definition at_time (t : Z) (w : World) : World :=
  {| objects := objects w; calls := calls w; clock := t |}.

Definition user_u1 : value :=
  VObj [("id", VStr "u1"); ("name", VStr "A"); ("active", VBool true)]%string.


(** A bucket that holds one object whose body is not JSON. *)
Definition corrupt_world : World :=
  {| objects := {["user/u1.json" := "{oops"]}%string; calls := []; clock := 0 |}.

(** A bucket with the two records of the filter example. *)
Definition world_ab : World :=
  (BucketModel.create "user" (VObj [("id", VStr "b"); ("active", VBool false)]%string)
     (BucketModel.create "user" (VObj [("id", VStr "a"); ("active", VBool true)]%string)
        (empty_world 1000)).2).2.

(** A bucket with one record whose id has [.json] inside. *)
Definition world_dotted : World :=
  (BucketModel.create "notes" (VObj [("id", VStr "x.jsonb"); ("title", VStr "T")]%string)
     (empty_world 1000)).2.

(** A record with a Date among the caller's fields, as in
    examples/schema-validation.ts. *)
Definition user_with_login : value :=
  VObj [("id", VStr "user1"); ("lastLogin", VDate (Some 0%Z));
        ("createdAt", VDate (Some 1000%Z)); ("updatedAt", VDate (Some 1000%Z))]%string.

Definition world_with_login : World :=
  {| objects := {["user/user1.json"%string :=
                    default EmptyString (JSON_stringify user_with_login)]};
     calls := []; clock := 2000 |}.

Definition user_u1_created (t : Z) (active : bool) : value :=
  VObj [("id", VStr "u1"); ("name", VStr "A"); ("active", VBool active);
        ("createdAt", VDate (Some 1000%Z)); ("updatedAt", VDate (Some t))]%string.

(** The bucket after [user_u1] was created at time 1000. *)
Definition world_u1 : World :=
  (BucketModel.create "user" user_u1 (empty_world 1000)).2.

(** A schema with one rule, a minimum for the number [age]; its partial
    form accepts a missing [age]. *)
Definition check_age (required : bool) (data : value) : ParseResult :=
  match lookup_prop "age" (own_props data) with
  | Some (VNumber (Finite n)) =>
      if (18 <=? truncate n)%Z then Parsed data
      else Invalid [{| path := ["age"%string];
                       issue_message := "Number must be greater than or equal to 18" |}]
  | Some _ =>
      Invalid [{| path := ["age"%string];
                  issue_message := "Expected number" |}]
  | None =>
      if required
      then Invalid [{| path := ["age"%string]; issue_message := "Required" |}]
      else Parsed data
  end.

Definition adult_schema : ZodSchema :=
  {| parse := check_age true; partial_parse := Some (check_age false) |}.

(** A schema that accepts everything and has no partial form. *)
Definition any_schema : ZodSchema :=
  {| parse := Parsed; partial_parse := None |}.

Definition minor : value :=
  VObj [("id", VStr "u2"); ("age", VNumber (Finite (number_of_Z 16)))]%string.


(** The records that findMany loads from [world_ab]. *)
Definition records_ab : list value :=
  match (BucketModel.findMany "user" None world_ab).1 with
  | Returned records => records
  | Threw _ => []
  end.

(** * Auxiliary definitions for the proofs *)

(** Case analysis on a character by its eight bits. *)
Ltac ascii_cases c :=
  destruct c as [[] [] [] [] [] [] [] []]; simpl in *; try done.

(** The well-formed digit strings: decimal digits, the first and the last
    of them non-zero. *)
Definition wf_digits (l : chars) : Prop :=
  forallb is_digit l = true ∧ starts_with is_zero l = false ∧
  starts_with is_zero (rev l) = false.

(** Structural induction on JSON values, with the hypothesis for every
    item of an array and every member of an object. *)
Definition json_nested_ind (P : json → Prop)
    (Hnull : P JNull) (Hbool : ∀ b, P (JBool b)) (Hnum : ∀ n, P (JNum n))
    (Hstr : ∀ s, P (JStr s))
    (Harr : ∀ xs, Forall P xs → P (JArr xs))
    (Hobj : ∀ ms, Forall (λ m, P m.2) ms → P (JObj ms)) : ∀ j, P j :=
  fix go (j : json) : P j :=
    match j with
    | JNull => Hnull
    | JBool b => Hbool b
    | JNum n => Hnum n
    | JStr s => Hstr s
    | JArr xs =>
        Harr xs ((fix items (l : list json) : Forall P l :=
          match l with
          | [] => @List.Forall_nil _ P
          | x :: l' => @List.Forall_cons _ P x l' (go x) (items l')
          end) xs)
    | JObj ms =>
        Hobj ms ((fix members (l : list (string * json))
                    : Forall (λ m, P m.2) l :=
          match l with
          | [] => @List.Forall_nil _ (λ m, P m.2)
          | m :: l' => @List.Forall_cons _ (λ m, P m.2) m l' (go m.2) (members l')
          end) ms)
    end.

(** What a printed value starts with: never whitespace, never a closing
    bracket. *)
Definition value_start (c : ascii) : Prop :=
  is_ws c = false ∧ c ≠ "]"%char ∧ c ≠ "}"%char.

(** The statement proved by induction on the value. *)
Definition parses (j : json) : Prop :=
∀ ind fuel rest,
  json_size j ≤ fuel →
  starts_with is_number_char rest = false →
  parse_value fuel (print_json ind j ++ rest) = Some (j, rest).

(** [all_from n z p]: [p] holds of the [n] integers from [z] on. *)
Fixpoint all_from (n : nat) (z : Z) (p : Z → bool) : bool :=
  match n with
  | 0 => true
  | S n' => p z && all_from n' (z + 1) p
  end.

(** The calendar conversion is checked on every day of a 400-year era. *)
Definition doe_ok (doe : Z) : bool :=
  let '(yoe, m, d) := civil_of_doe doe in
  (0 <=? yoe)%Z && (yoe <? 400)%Z && (1 <=? m)%Z && (m <=? 12)%Z &&
  (1 <=? d)%Z && (d <=? 31)%Z && (doe_of_civil yoe m d =? doe)%Z.

(** Structural induction on values. *)
Definition value_nested_ind (P : value → Prop)
    (Hundef : P VUndefined) (Hnull : P VNull) (Hbool : ∀ b, P (VBool b))
    (Hnum : ∀ x, P (VNumber x)) (Hstr : ∀ s, P (VStr s))
    (Hdate : ∀ t, P (VDate t))
    (Harr : ∀ xs, Forall P xs → P (VArr xs))
    (Hobj : ∀ ps, Forall (λ kv, P kv.2) ps → P (VObj ps)) : ∀ v, P v :=
  fix go (v : value) : P v :=
    match v with
    | VUndefined => Hundef
    | VNull => Hnull
    | VBool b => Hbool b
    | VNumber x => Hnum x
    | VStr s => Hstr s
    | VDate t => Hdate t
    | VArr xs =>
        Harr xs ((fix items (l : list value) : Forall P l :=
          match l with
          | [] => @List.Forall_nil _ P
          | x :: l' => @List.Forall_cons _ P x l' (go x) (items l')
          end) xs)
    | VObj ps =>
        Hobj ps ((fix members (l : list (string * value))
                    : Forall (λ kv, P kv.2) l :=
          match l with
          | [] => @List.Forall_nil _ (λ kv, P kv.2)
          | kv :: l' => @List.Forall_cons _ (λ kv, P kv.2) kv l' (go kv.2) (members l')
          end) ps)
    end.

(** The values that represent JavaScript values: every number in them is
    in canonical form, every valid Date is within the time range and every
    object has each of its keys once. *)
Fixpoint wf_value (v : value) : bool :=
  match v with
  | VNumber (Finite n) => wf_number n
  | VDate (Some t) => valid_time t
  | VArr xs => forallb wf_value xs
  | VObj ps => forallb (λ kv, wf_value kv.2) ps && bool_decide (NoDup ps.*1)
  | _ => true
  end.

(** The values that JSON represents as they are: null, booleans, finite
    numbers, strings, and arrays and objects of such. *)
Fixpoint json_plain (v : value) : bool :=
  match v with
  | VNull | VBool _ | VStr _ => true
  | VNumber (Finite _) => true
  | VArr xs => forallb json_plain xs
  | VObj ps => forallb (λ kv, json_plain kv.2) ps
  | _ => false
  end.

(** What the two date conversions of [getRecord] make of one field of a
    parsed record. *)
Definition revived (field : string) (record : value) : value :=
  match lookup_prop field (own_props record) with
  | Some (VStr s) =>
      if bool_decide (s = EmptyString) then record
      else VObj (set_prop field (Date_of_string s) (own_props record))
  | _ => record
  end.

(** The record that [getRecord] returns for parsed JSON. *)
Definition decoded (j : json) : value :=
  revived "updatedAt" (revived "createdAt" (value_of_json j)).

(** The error that [getRecord] throws for a body that does not parse. *)
Definition parse_failure (id : string) : BucketORMError :=
  {| code := STORAGE_ERROR;
     message := "Failed to retrieve record with ID '" +:+ id +:+ "': "
                +:+ "Unexpected token in JSON";
     details := Cause (SyntaxError "Unexpected token in JSON") |}.

(** The error thrown for an id that has no record. *)
Definition not_found (X : string) : BucketORMError :=
  {| code := RECORD_NOT_FOUND;
     message := "Record with ID '" +:+ X +:+ "' not found";
     details := NoDetails |}.

(** A request to the registry, and the registry after a sequence of
    requests. *)
Inductive RegistryCall :=
  | CallModel (modelName : string)
  | CallSchemaModel (modelName : string) (schemaDefinition : SchemaDefinition).

Definition registry_call (orm : BucketORM.BucketORM) (c : RegistryCall)
    : BucketORM.BucketORM :=
  match c with
  | CallModel n => (BucketORM.model n orm).2
  | CallSchemaModel n sd => (BucketORM.schemaModel n sd orm).2
  end.

Definition registry_calls (cs : list RegistryCall) (orm : BucketORM.BucketORM)
    : BucketORM.BucketORM :=
  foldl registry_call orm cs.



(** The field [k] of a record: undefined when the record has none. *)
Definition field (record : value) (k : string) : value :=
  default VUndefined (lookup_prop k (own_props record)).

(** The JSON value printed for [v] inside an array or an object that has
    it, and the value that parsing it gives. *)
Definition enc (v : value) : json := default JNull (to_json v).
Definition reparsed (v : value) : value := value_of_json (enc v).

(** A valid record: a JavaScript object with a non-empty string id and
    valid Date objects for createdAt and updatedAt, whatever its other
    fields are. *)
Definition valid_record (r : value) : bool :=
  wf_value r &&
  match lookup_prop "id" (own_props r),
        lookup_prop "createdAt" (own_props r),
        lookup_prop "updatedAt" (own_props r) with
  | Some (VStr X), Some (VDate (Some _)), Some (VDate (Some _)) =>
      negb (bool_decide (X = EmptyString))
  | _, _, _ => false
  end.

(** The fields other than the two timestamps hold plain JSON data. *)
Definition plain_fields (r : value) : bool :=
  forallb (λ kv, bool_decide (kv.1 = "createdAt"%string) ||
                 bool_decide (kv.1 = "updatedAt"%string) || json_plain kv.2)
    (own_props r).

(** [contains s pattern]: [pattern] occurs somewhere in [s]. *)
Fixpoint contains (s pattern : string) : bool :=
  String.prefix pattern s ||
  match s with
  | EmptyString => false
  | String _ s' => contains s' pattern
  end.

(** [r] is the record stored for [id]: the object at the key of [id] holds
    the JSON text of an object, and [r] is what [getRecord] makes of it. *)
Definition stored_record (m : string) (w : World) (id : string) (r : value) : Prop :=
  ∃ body ms,
    objects w !! BucketModel.generateKey m id = Some body ∧
    body ≠ EmptyString ∧
    JSON_parse_text (str body) = Some (JObj ms) ∧
    r = decoded (JObj ms).

(** ** Notions for the further properties *)

(** A computation that neither reads nor changes the bucket and the
    clock: it has one outcome, in every world. *)
Definition stateless {A} (m : M A) : Prop := ∃ o, ∀ w, m w = (o, w).

(** The error thrown for an id that is not a non-empty string. *)
Definition invalid_data (text : string) : BucketORMError :=
  {| code := INVALID_DATA; message := text; details := NoDetails |}.

(** The error with which [getRecord] wraps an error raised while the body
    is decoded. *)
Definition read_failure (id : string) (cause : JsError) : BucketORMError :=
  {| code := STORAGE_ERROR;
     message := "Failed to retrieve record with ID '" +:+ id +:+ "': "
                +:+ js_message cause;
     details := Cause cause |}.

(** A call that threw before it wrote: the bucket holds what it held, and
    the call issued no request to the storage, or the one download of the
    record it looks up and nothing after it. *)
Definition threw_before_write (m : string) (w w' : World) : Prop :=
  objects w' = objects w ∧
  (calls w' = calls w ∨
   ∃ X, calls w' = Download (BucketModel.generateKey m X) :: calls w).


(** Options that give an offset only, and a limit only. *)
Definition only_offset (o : js_number) : BucketModel.FindManyOptions :=
  {| BucketModel.where_ := None; BucketModel.limit := None;
     BucketModel.offset := Some o |}.
Definition only_limit (l : js_number) : BucketModel.FindManyOptions :=
  {| BucketModel.where_ := None; BucketModel.limit := Some l;
     BucketModel.offset := None |}.

(** The error thrown for data that a schema rejects. *)
Definition validation_failure (errors : list ZodIssue) : BucketORMError :=
  {| code := INVALID_DATA;
     message := BucketSchemaModel.validation_message errors;
     details := Issues errors |}.

(** The [parse] that updateWithValidation uses: the one of the partial
    schema when the schema has a partial form. *)
Definition update_parse (s : ZodSchema) : value → ParseResult :=
  match partial_parse s with
  | Some partial => partial
  | None => parse s
  end.

(** What the registry holds under a key: a plain model of that name, or
    the schema-aware model of the name that the key extends by
    [_schema]. *)
Definition registry_entry (orm : BucketORM.BucketORM) (k : string) (r : nat) : Prop :=
  BucketORM.deref orm r = Some (NewBucketModel k) ∨
  ∃ n s, k = n +:+ "_schema" ∧
         BucketORM.deref orm r = Some (NewBucketSchemaModel n s).

(** The invariant of the registry: every entry refers to an instance of
    the heap of the kind its key tells, and no two keys share an
    instance. *)
Definition registry_ok (orm : BucketORM.BucketORM) : Prop :=
  (∀ k r, BucketORM.models orm !! k = Some r → registry_entry orm k r) ∧
  (∀ k1 k2 r, BucketORM.models orm !! k1 = Some r →
              BucketORM.models orm !! k2 = Some r → k1 = k2).

(** A call of a method of some model, or the passing of time, and the
    world after a sequence of them. *)
Inductive Operation :=
  | DoCreate (modelName : string) (data : value)
  | DoFindOne (modelName : string) (id : value)
  | DoFindMany (modelName : string) (options : option BucketModel.FindManyOptions)
  | DoUpdate (modelName : string) (id data : value)
  | DoDelete (modelName : string) (id : value)
  | ClockAt (t : Z).

Definition run_operation (w : World) (op : Operation) : World :=
  match op with
  | DoCreate m data => (BucketModel.create m data w).2
  | DoFindOne m id => (BucketModel.findOne m id w).2
  | DoFindMany m options => (BucketModel.findMany m options w).2
  | DoUpdate m id data => (BucketModel.update m id data w).2
  | DoDelete m id => (BucketModel.delete m id w).2
  | ClockAt t => at_time t w
  end.

Definition run_operations (ops : list Operation) (w : World) : World :=
  foldl run_operation w ops.

(** An id in which [.json] does not occur. *)
Definition plain_id (id : value) : bool :=
  match id with
  | VStr X => negb (contains X ".json")
  | _ => true
  end.

(** The operations considered: the names of the models written to hold
    no slash, the ids of the records created hold no [.json], and the
    payloads represent JavaScript values. *)
Definition usual (op : Operation) : bool :=
  match op with
  | DoCreate m data =>
      negb (contains m "/") && wf_value data &&
      match get data "id" with inr id => plain_id id | inl _ => true end
  | DoUpdate m id data => negb (contains m "/") && wf_value data
  | _ => true
  end.

(** The namespace of a model holds what the model wrote: every object
    under its prefix sits at the key of a non-empty id free of [.json] and
    holds the serialization of an object whose [id] is that id. *)
Definition written_by_model (m : string) (w : World) : Prop :=
  ∀ key body,
    objects w !! key = Some body →
    String.prefix (m +:+ "/") key = true →
    ∃ id ps,
      key = BucketModel.generateKey m id ∧ id ≠ EmptyString ∧
      contains id ".json" = false ∧
      wf_value (VObj ps) = true ∧ lookup_prop "id" ps = Some (VStr id) ∧
      JSON_stringify (VObj ps) = Some body.

(** The error with which S3 answers a GetObject for a key that does not
    exist. *)
Definition NoSuchKey : S3Error :=
  {| instanceof_Error := true;
     error_name := Some "NoSuchKey"%string;
     httpStatusCode := Some 404%Z;
     error_message := "The specified key does not exist." |}.

(** A service that holds the objects of one bucket in memory and answers
    every command: GetObject for a missing key is rejected with NoSuchKey,
    DeleteObject succeeds whether the key exists or not, and the output of
    ListObjectsV2 has no contents when no key matches. *)
Definition memory_service (c : Command) (w : World) : (S3Error + Output) * World :=
  match c with
  | PutObjectCommand _ key body _ =>
      (inr PutObjectOutput,
       {| objects := <[key := body]> (objects w);
          calls := Upload key body :: calls w; clock := clock w |})
  | GetObjectCommand _ key =>
      (match objects w !! key with
       | Some body => inr (GetObjectOutput (Some (inr body)))
       | None => inl NoSuchKey
       end, record_call (Download key) w)
  | DeleteObjectCommand _ key =>
      (inr DeleteObjectOutput,
       {| objects := base.delete key (objects w);
          calls := Delete key :: calls w; clock := clock w |})
  | ListObjectsV2Command _ prefix =>
      (inr (ListObjectsV2Output
              match filter (λ k, String.prefix prefix k = true)
                      (map_to_list (objects w)).*1 with
              | [] => None
              | keys => Some (map Some keys)
              end),
       record_call (List prefix) w)
  end.

(** The outcome of the reliable collaborator that a result of the adapter
    amounts to, when the adapter resolved. *)
Definition resolved {A} (r : (StorageFailure + A) * World) : option (Outcome A * World) :=
  match r with
  | (inr a, w) => Some (Returned a, w)
  | (inl _, _) => None
  end.

(** ** Data for the further examples *)

(** A payload whose id is a number. *)
Definition numbered : value :=
  VObj [("id", VNumber (Finite (number_of_Z 7))); ("name", VStr "A")]%string.

(** A bucket with one object whose body is the JSON text [null], and one
    whose body is the JSON text [false]. *)
Definition null_world : World :=
  {| objects := {["user/u1.json" := "null"]}%string; calls := []; clock := 0 |}.
Definition false_world : World :=
  {| objects := {["user/u1.json" := "false"]}%string; calls := []; clock := 0 |}.


(** The operations that build the bucket of the filter example. *)
Definition operations_ab : list Operation :=
  [DoCreate "user" (VObj [("id", VStr "a"); ("active", VBool true)]%string);
   DoCreate "user" (VObj [("id", VStr "b"); ("active", VBool false)]%string)].

(** The same, with a read, an update, a delete and a write to another
    model besides. *)
Definition operations_mixed : list Operation :=
  operations_ab ++
  [DoFindOne "user" (VStr "a");
   ClockAt 2000;
   DoUpdate "user" (VStr "b") (VObj [("active", VBool true)]%string);
   DoCreate "post" (VObj [("id", VStr "p1")]%string);
   DoDelete "user" (VStr "a");
   DoFindMany "user" None].
(** * Properties of the runtime model *)

(** ** Numbers *)

Example number_toString_samples :
  map (λ x, unstr (Number_toString x))
    [number_of_Z 0; number_of_Z 25; number_of_Z (-1200);
     Num false (str "15") 1; Num true (str "5") (-2);
     Num false (str "1") (-6); Num false (str "123") 22;
     Num false (str "1") 22; Num false (str "12") 21]
  = ["0"; "25"; "-1200"; "1.5"; "-0.005"; "1e-7"; "1.23e+21"; "1e+21";
     "120000000000000000000"]%string.
Proof. reflexivity. Qed.

Example lex_number_samples :
  map (λ s, lex_number (str s))
    ["0"; "-0"; "12,"; "1.50e1]"; "0.000"; "01"; "1."; "-"; "2E-3 "; "1e"]%string
  = [Some (zero, []); Some (zero, []); Some (number_of_Z 12, str ",");
     Some (number_of_Z 15, str "]"); Some (zero, []); None; None; None;
     Some (Num false (str "2") (-2), str " "); None].
Proof. reflexivity. Qed.


Lemma is_digit_number_char c : is_digit c = true → is_number_char c = true.
Proof. unfold is_number_char. by intros ->. Qed.

Lemma starts_with_weaken (p q : ascii → bool) l :
  (∀ c, p c = true → q c = true) →
  starts_with q l = false → starts_with p l = false.
Proof.
  intros Hpq. destruct l as [|c l]; simpl; [done|].
  intros Hq. destruct (p c) eqn:Hp; [|done].
  apply Hpq in Hp. congruence.
Qed.

Lemma span_app_stop p a b :
  forallb p a = true → starts_with p b = false → span p (a ++ b) = (a, b).
Proof.
  induction a as [|c a IH]; simpl.
  - intros _. destruct b as [|c b]; simpl; [done|]. by intros ->.
  - intros [Hc Ha]%andb_prop Hb. rewrite Hc, IH; done.
Qed.

Lemma span_stop p b : starts_with p b = false → span p b = ([], b).
Proof. apply (span_app_stop p []). done. Qed.

Lemma forallb_replicate (p : ascii → bool) n c :
  p c = true → forallb p (replicate n c) = true.
Proof. intros Hc. induction n; simpl; [done|]. by rewrite Hc. Qed.

Lemma is_zero_digit c : is_zero c = true → is_digit c = true.
Proof. ascii_cases c. Qed.

Lemma rev_replicate (c : ascii) n : rev (replicate n c) = replicate n c.
Proof.
  induction n as [|n IH]; simpl; [done|].
  rewrite IH. change [c] with (replicate 1 c).
  rewrite <- replicate_add. by replace (n + 1) with (S n) by lia.
Qed.


Lemma last_rev_head (l : chars) d :
  l ≠ [] → is_zero (List.last l d) = starts_with is_zero (rev l).
Proof.
  intros Hl. destruct (exists_last Hl) as (l' & c & ->).
  rewrite List.last_last, rev_app_distr. done.
Qed.

Lemma wf_number_digits x d ds :
  num_digits x = d :: ds → wf_number x = true → wf_digits (d :: ds).
Proof.
  unfold wf_number. intros ->.
  intros [[H1 H2]%andb_prop H3]%andb_prop.
  apply negb_true_iff in H2, H3.
  split_and!; [done|done|].
  by rewrite <- (last_rev_head _ "1"%char).
Qed.

Lemma strip_trailing_zeros_app core n :
  starts_with is_zero (rev core) = false →
  strip_trailing_zeros (core ++ replicate n "0"%char) = core.
Proof.
  intros H. unfold strip_trailing_zeros.
  rewrite rev_app_distr, rev_replicate, span_app_stop; simpl.
  - apply rev_involutive.
  - by apply forallb_replicate.
  - done.
Qed.

Lemma number_of_parts_digits neg i f e a b core :
  core ≠ [] → wf_digits core →
  i ++ f = replicate a "0"%char ++ core ++ replicate b "0"%char →
  number_of_parts neg i f e =
    Num neg core (Z.of_nat (length i) - Z.of_nat a + e).
Proof.
  intros Hne (Hd & Hh & Hl) Heq. unfold number_of_parts.
  rewrite Heq, span_app_stop.
  - rewrite strip_trailing_zeros_app by done.
    destruct core; [done|]. by rewrite length_replicate.
  - by apply forallb_replicate.
  - destruct core; [done|]. done.
Qed.

Lemma lex_integer_ok i r :
  i ≠ [] → forallb is_digit i = true →
  (starts_with is_zero i = false ∨ length i = 1) →
  starts_with is_digit r = false →
  lex_integer (i ++ r) = Some (i, r).
Proof.
  intros Hne Hd Hz Hr. unfold lex_integer. rewrite span_app_stop by done.
  destruct i as [|c [|c' i]]; [done| |].
  - by ascii_cases c.
  - destruct Hz as [Hz|Hz]; [|done]. by ascii_cases c.
Qed.

Lemma lex_fraction_none r :
  starts_with is_number_char r = false → lex_fraction r = Some ([], r).
Proof.
  destruct r as [|c r]; [done|]. unfold is_number_char. simpl.
  intros [_ H]%orb_false_elim. by ascii_cases c.
Qed.

Lemma lex_fraction_some f r :
  f ≠ [] → forallb is_digit f = true → starts_with is_digit r = false →
  lex_fraction ("."%char :: f ++ r) = Some (f, r).
Proof.
  intros Hne Hd Hr. unfold lex_fraction. rewrite span_app_stop by done.
  by destruct f.
Qed.

Lemma lex_exponent_none r :
  starts_with is_number_char r = false → lex_exponent r = Some (0%Z, r).
Proof.
  destruct r as [|c r]; [done|]. unfold is_number_char. simpl.
  intros [_ H]%orb_false_elim. by ascii_cases c.
Qed.

Lemma digits_of_uint_digits u : forallb is_digit (digits_of_uint u) = true.
Proof. induction u; simpl; done. Qed.

Lemma uint_of_digits_of_uint u : uint_of_digits (digits_of_uint u) = u.
Proof. induction u; simpl; congruence. Qed.

Lemma N_of_decimal_of_N n : N_of_decimal (decimal_of_N n) = n.
Proof.
  unfold N_of_decimal, decimal_of_N.
  rewrite uint_of_digits_of_uint. apply DecimalN.Unsigned.of_to.
Qed.

Lemma decimal_of_N_nonempty n : decimal_of_N n ≠ [].
Proof.
  unfold decimal_of_N. intros H.
  assert (Hu : N.to_uint n = Decimal.Nil).
  { rewrite <- (uint_of_digits_of_uint (N.to_uint n)), H. done. }
  pose proof (DecimalN.Unsigned.of_to n) as Hn. rewrite Hu in Hn.
  destruct n as [|p]; [done|].
  simpl in Hu. unfold Pos.to_uint in Hu.
  pose proof (DecimalPos.Unsigned.to_uint_nonnil p) as Hp. done.
Qed.

Lemma lex_exponent_some (e : Z) r :
  e ≠ 0%Z → starts_with is_digit r = false →
  lex_exponent ("e"%char :: (if (0 <? e)%Z then "+"%char else "-"%char) ::
                decimal_of_N (Z.abs_N e) ++ r) = Some (e, r).
Proof.
  intros He Hr. unfold lex_exponent. simpl bool_decide. simpl orb. cbv iota.
  assert (Hsp : span is_digit (decimal_of_N (Z.abs_N e) ++ r)
                = (decimal_of_N (Z.abs_N e), r)).
  { apply span_app_stop; [apply digits_of_uint_digits | done]. }
  pose proof (decimal_of_N_nonempty (Z.abs_N e)) as Hne.
  destruct (0 <? e)%Z eqn:Hs; rewrite Hsp;
    destruct (decimal_of_N (Z.abs_N e)) eqn:Hdec; try done;
    rewrite <- Hdec, N_of_decimal_of_N, N2Z.inj_abs_N;
    do 2 f_equal; lia.
Qed.

Lemma lex_number_digit c l :
  is_digit c = true → lex_number (c :: l) = lex_unsigned false (c :: l).
Proof. by ascii_cases c. Qed.

Lemma wf_digits_forallb l : wf_digits l → forallb is_digit l = true.
Proof. by intros (? & _). Qed.

Lemma forallb_take (p : ascii → bool) n l :
  forallb p l = true → forallb p (take n l) = true.
Proof.
  revert n. induction l as [|c l IH]; intros [|n]; simpl; try done.
  intros [-> H]%andb_prop. by apply IH.
Qed.

Lemma forallb_drop (p : ascii → bool) n l :
  forallb p l = true → forallb p (drop n l) = true.
Proof.
  revert n. induction l as [|c l IH]; intros [|n]; simpl; try done.
  intros [_ H]%andb_prop. by apply IH.
Qed.

(** Lexing the digits that Number::toString prints for a non-zero number
    gives the number back. *)
Lemma lex_unsigned_toString neg d ds n rest :
  wf_digits (d :: ds) →
  starts_with is_number_char rest = false →
  ∃ c body,
    Number_toString (Num neg (d :: ds) n)
      = (if neg then ["-"%char] else []) ++ c :: body ∧
    is_digit c = true ∧
    lex_unsigned neg (c :: body ++ rest) = Some (Num neg (d :: ds) n, rest).
Proof.
  intros Hwf Hrest.
  assert (Hrd : starts_with is_digit rest = false).
  { eapply starts_with_weaken; [apply is_digit_number_char | done]. }
  pose proof Hwf as (Hd & Hh & Hl).
  assert (Hdd : is_digit d = true) by (simpl in Hd; by apply andb_prop in Hd as [? _]).
  assert (Hds : forallb is_digit ds = true) by (simpl in Hd; by apply andb_prop in Hd as [_ ?]).
  unfold Number_toString. cbn [num_digits num_neg num_point].
  set (k := Z.of_nat (length (d :: ds))).
  destruct ((k <=? n)%Z && (n <=? 21)%Z) eqn:C1.
  { (* digits followed by zeros *)
    exists d, (ds ++ replicate (Z.to_nat (n - k)) "0"%char).
    split_and!; [done..|].
    unfold lex_unsigned.
    change (d :: (ds ++ replicate (Z.to_nat (n - k)) "0"%char) ++ rest)
      with (((d :: ds) ++ replicate (Z.to_nat (n - k)) "0"%char) ++ rest).
    rewrite lex_integer_ok; [|done| |by left|done].
    2:{ rewrite forallb_app, Hd. by apply forallb_replicate. }
    cbn [mbind option_bind]. rewrite lex_fraction_none by done.
    cbn [mbind option_bind]. rewrite lex_exponent_none by done.
    cbn [mbind option_bind].
    rewrite (number_of_parts_digits _ _ _ _ 0 (Z.to_nat (n - k)) (d :: ds));
      [|done|done|by rewrite app_nil_r].
    do 3 f_equal. rewrite length_app, length_replicate.
    apply andb_prop in C1 as [?%Z.leb_le _]. subst k. lia. }
  destruct ((0 <? n)%Z && (n <=? 21)%Z) eqn:C2.
  { (* a decimal point inside the digits *)
    apply andb_prop in C2 as [Hn0%Z.ltb_lt Hn21%Z.leb_le].
    assert (Hnk : (n < k)%Z).
    { apply andb_false_iff in C1 as [?%Z.leb_gt|?%Z.leb_gt]; lia. }
    destruct (Z.to_nat n) as [|m] eqn:Hm; [lia|].
    exists d, (take m ds ++ "."%char :: drop (S m) (d :: ds)).
    split_and!; [done..|].
    unfold lex_unsigned.
    replace (d :: (take m ds ++ "."%char :: drop (S m) (d :: ds)) ++ rest)
      with ((d :: take m ds) ++ ("."%char :: drop m ds) ++ rest)
      by (simpl; by rewrite <- app_assoc).
    assert (Hdrop : drop m ds ≠ []).
    { intros He. apply (f_equal length) in He. rewrite length_drop in He.
      subst k. simpl in *. lia. }
    rewrite lex_integer_ok; [|done| |by left|done].
    2:{ simpl. rewrite Hdd. by apply forallb_take. }
    cbn [mbind option_bind]. simpl app.
    rewrite lex_fraction_some; [|done|by apply forallb_drop|done].
    cbn [mbind option_bind]. rewrite lex_exponent_none by done.
    cbn [mbind option_bind].
    rewrite (number_of_parts_digits _ _ _ _ 0 0 (d :: ds)); [|done|done|].
    2:{ simpl. by rewrite app_nil_r, take_drop. }
    do 3 f_equal. simpl length. rewrite length_take.
    subst k. simpl in *. lia. }
  destruct ((-6 <? n)%Z && (n <=? 0)%Z) eqn:C3.
  { (* a leading "0." *)
    apply andb_prop in C3 as [Hn6%Z.ltb_lt Hn0%Z.leb_le].
    exists "0"%char, ("."%char :: replicate (Z.to_nat (- n)) "0"%char ++ d :: ds).
    split_and!; [done..|].
    unfold lex_unsigned.
    change ("0"%char :: ("."%char :: replicate (Z.to_nat (- n)) "0"%char ++ d :: ds) ++ rest)
      with (["0"%char] ++ "."%char :: (replicate (Z.to_nat (- n)) "0"%char ++ d :: ds) ++ rest).
    rewrite lex_integer_ok; [|done|done|by right|done].
    cbn [mbind option_bind].
    rewrite lex_fraction_some; [| |by rewrite forallb_app, forallb_replicate|done].
    2:{ by destruct (Z.to_nat (- n)). }
    cbn [mbind option_bind]. rewrite lex_exponent_none by done.
    cbn [mbind option_bind].
    rewrite (number_of_parts_digits _ _ _ _ (S (Z.to_nat (- n))) 0 (d :: ds));
      [|done|done|].
    2:{ simpl. by rewrite app_nil_r. }
    do 3 f_equal. simpl length. lia. }
  (* exponent notation *)
  assert (Hne : (n - 1 ≠ 0)%Z).
  { intros He. assert (n = 1%Z) as -> by lia.
    apply andb_false_iff in C2 as [?%Z.ltb_ge|?%Z.leb_gt]; lia. }
  exists d, (match ds with [] => [] | _ => "."%char :: ds end ++
             "e"%char :: (if (0 <? n - 1)%Z then "+"%char else "-"%char) ::
             decimal_of_N (Z.abs_N (n - 1))).
  split_and!; [done..|].
  unfold lex_unsigned.
  rewrite <- app_assoc.
  change (d :: ?l) with ([d] ++ l).
  rewrite lex_integer_ok; [|done|by simpl; rewrite Hdd|by right|].
  2:{ by destruct ds. }
  cbn [mbind option_bind].
  assert (Hfrac : lex_fraction
            (match ds with [] => [] | _ => "."%char :: ds end ++
             ("e"%char :: (if (0 <? n - 1)%Z then "+"%char else "-"%char) ::
              decimal_of_N (Z.abs_N (n - 1))) ++ rest)
          = Some (ds, ("e"%char :: (if (0 <? n - 1)%Z then "+"%char else "-"%char) ::
              decimal_of_N (Z.abs_N (n - 1))) ++ rest)).
  { destruct ds as [|d' ds']; [done|].
    change (("."%char :: d' :: ds') ++ ?l) with ("."%char :: (d' :: ds') ++ l).
    by rewrite lex_fraction_some. }
  rewrite Hfrac. cbn [mbind option_bind]. simpl app.
  rewrite lex_exponent_some by done. cbn [mbind option_bind].
  rewrite (number_of_parts_digits _ _ _ _ 0 0 (d :: ds)); [|done|done|].
  2:{ simpl. by rewrite app_nil_r. }
  do 3 f_equal. simpl length. lia.
Qed.

(** Lexing what Number::toString prints gives the number back. *)
Lemma lex_number_toString x rest :
  wf_number x = true →
  starts_with is_number_char rest = false →
  lex_number (Number_toString x ++ rest) = Some (x, rest).
Proof.
  intros Hwf Hrest. destruct x as [neg [|d ds] n].
  - unfold wf_number in Hwf. simpl in Hwf.
    apply andb_prop in Hwf as [Hn%negb_true_iff Hp%Z.eqb_eq]. subst.
    unfold Number_toString. simpl.
    unfold lex_unsigned.
    change ("0"%char :: rest) with (["0"%char] ++ rest).
    rewrite lex_integer_ok; [|done|done|by right|].
    2:{ eapply starts_with_weaken; [apply is_digit_number_char | done]. }
    cbn [mbind option_bind]. rewrite lex_fraction_none by done.
    cbn [mbind option_bind]. by rewrite lex_exponent_none.
  - eapply wf_number_digits in Hwf; [|done].
    destruct (lex_unsigned_toString neg d ds n rest Hwf Hrest)
      as (c & body & -> & Hc & Hlex).
    destruct neg; cbn [app].
    + exact Hlex.
    + by rewrite lex_number_digit.
Qed.

Lemma Number_toString_head x :
  wf_number x = true →
  ∃ c l, Number_toString x = c :: l ∧
         (c = "-"%char ∨ is_digit c = true).
Proof.
  intros Hwf. destruct x as [neg [|d ds] n].
  - exists "0"%char, []. by split; [|right].
  - eapply wf_number_digits in Hwf; [|done].
    destruct (lex_unsigned_toString neg d ds n [] Hwf eq_refl)
      as (c & body & -> & Hc & _).
    destruct neg; cbn [app]; eexists _, _; (split; [done|]); auto.
Qed.

(** ** JSON text *)

Example print_json_sample :
  unstr (print_json 0
    (JObj [("a", JNum (number_of_Z 1));
           ("b", JArr [JNum (number_of_Z 1); JStr (unstr (sq "x'y"))]);
           ("c", JObj []); ("d", JArr [])]%string))
  = unstr (sq "{" ++ newline 2 ++ sq "'a': 1," ++
           newline 2 ++ sq "'b': [" ++
           newline 4 ++ sq "1," ++
           newline 4 ++ sq "'x\'y'" ++
           newline 2 ++ sq "]," ++
           newline 2 ++ sq "'c': {}," ++
           newline 2 ++ sq "'d': []" ++
           newline 0 ++ sq "}").
Proof. reflexivity. Qed.

Example JSON_parse_text_samples :
  map (λ s, JSON_parse_text (sq s))
    [" [1, {'k' : null}, 'A\n'] "; "{oops"; EmptyString; "[1,]"; "nul";
     "{'a':1,'a':2}"; "1 2"; "tru"; "[[[[]]]]"]%string
  = [Some (JArr [JNum (number_of_Z 1); JObj [("k", JNull)];
               JStr (String "A" (String "010" EmptyString))]%string);
     None; None; None; None;
     Some (JObj [("a", JNum (number_of_Z 1)); ("a", JNum (number_of_Z 2))]%string);
     None; None; Some (JArr [JArr [JArr [JArr []]]])].
Proof. reflexivity. Qed.

(** Texts that JSON.parse accepts, and texts that it rejects. *)
Example JSON_parse_text_accepts :
  forallb (λ s, bool_decide (is_Some (JSON_parse_text (sq s))))
    ["  {} "; "[ ]"; "[1 , 2 ]"; "{ 'a' : 1 }"; "'A\n\/'"; "1E5"; "-0.0";
     "12.5e-3"; "{'a':{'b':[1,{'c':null}]}}"; "[[[[[[[[[[]]]]]]]]]]";
     "true"; " false"; "null "; "''"; "0"]%string = true.
Proof. reflexivity. Qed.

Example JSON_parse_text_rejects :
  forallb (λ s, bool_decide (JSON_parse_text (sq s) = None))
    ["-"; "+1"; ".5"; "1.e3"; "1e+"; "0x10"; "Infinity"; "NaN"; "undefined";
     "[1,]"; "{,}"; "{'a':1,}"; "{'a'}"; "{a:1}"; "'\x'"; "'\u12'"; "'abc";
     "true false"; "nulll"; "[1 2]"; "[[[[[[[["; "]"; "00"; "1.5.2"]%string = true.
Proof. reflexivity. Qed.

Example JSON_parse_text_escapes :
  JSON_parse_text (sq "['A\té', 'a\\b']")
  = Some (JArr [JStr (unstr ["A"; "009"; "195"; "169"]%char); JStr "a\b"]).
Proof. reflexivity. Qed.


Lemma str_unstr l : str (unstr l) = l.
Proof. apply list_ascii_of_string_of_list_ascii. Qed.

Lemma unstr_str s : unstr (str s) = s.
Proof. apply string_of_list_ascii_of_string. Qed.

Lemma unquote_quote_char c tail :
  unquote (quote_char c ++ tail)
  = '(t, r) ← unquote tail; Some (c :: t, r).
Proof. ascii_cases c. Qed.

Lemma unquote_quote s rest :
  unquote (flat_map quote_char s ++ "034"%char :: rest) = Some (s, rest).
Proof.
  induction s as [|c s IH]; [done|].
  cbn [flat_map]. rewrite <- app_assoc, unquote_quote_char, IH. done.
Qed.

Lemma span_ws_app ws s :
  forallb is_ws ws = true → skip_ws (ws ++ s) = skip_ws s.
Proof.
  unfold skip_ws. induction ws as [|c ws IH]; [done|]. simpl.
  intros [-> H]%andb_prop. specialize (IH H).
  destruct (span is_ws (ws ++ s)). done.
Qed.

Lemma skip_ws_stop s : starts_with is_ws s = false → skip_ws s = s.
Proof. intros H. unfold skip_ws. by rewrite span_stop. Qed.

Lemma newline_ws n : forallb is_ws (newline n) = true.
Proof. simpl. by apply forallb_replicate. Qed.

Lemma skip_ws_newline n s : skip_ws (newline n ++ s) = skip_ws s.
Proof. apply span_ws_app, newline_ws. Qed.

Lemma parse_value_skip_ws fuel ws s :
  forallb is_ws ws = true → parse_value fuel (ws ++ s) = parse_value fuel s.
Proof.
  intros H. destruct fuel; [done|]. simpl. rewrite span_ws_app by done.
  destruct (decide (skip_ws s = skip_ws (skip_ws s))) as [->|]; done.
Qed.

Lemma parse_value_number fuel c l :
  c = "-"%char ∨ is_digit c = true →
  parse_value (S fuel) (c :: l)
  = '(n, r) ← lex_number (c :: l); Some (JNum n, r).
Proof.
  intros [->|Hc]; [done|].
  destruct c as [[] [] [] [] [] [] [] []]; try discriminate; reflexivity.
Qed.

Lemma parse_array_items fuel r c l :
  skip_ws r = c :: l → c ≠ "]"%char →
  parse_value (S fuel) ("["%char :: r)
  = '(xs, r') ← parse_elements fuel r; Some (JArr xs, r').
Proof.
  intros Hr Hc. cbn [parse_value]. change (skip_ws ("["%char :: r)) with ("["%char :: r).
  cbv iota. rewrite Hr.
  destruct c as [[] [] [] [] [] [] [] []]; try done.
Qed.

Lemma parse_object_members fuel r c l :
  skip_ws r = c :: l → c ≠ "}"%char →
  parse_value (S fuel) ("{"%char :: r)
  = '(ms, r') ← parse_members fuel r; Some (JObj ms, r').
Proof.
  intros Hr Hc. cbn [parse_value]. change (skip_ws ("{"%char :: r)) with ("{"%char :: r).
  cbv iota. rewrite Hr.
  destruct c as [[] [] [] [] [] [] [] []]; try done.
Qed.


Lemma print_json_head ind j :
  wf_json j = true → ∃ c l, print_json ind j = c :: l ∧ value_start c.
Proof.
  intros Hwf. destruct j as [|[]|n|s|[|x xs]|[|m ms]];
    try (eexists _, _; split; [reflexivity|]; by split_and!).
  simpl in Hwf. destruct (Number_toString_head n Hwf) as (c & l & Hn & Hc).
  exists c, l. split; [done|].
  destruct Hc as [->|Hc]; [by split_and!|].
  split_and!; intros; by ascii_cases c.
Qed.

Lemma skip_ws_print ind j ws rest :
  wf_json j = true → forallb is_ws ws = true →
  ∃ c l, skip_ws (ws ++ print_json ind j ++ rest) = c :: l ++ rest ∧
         print_json ind j = c :: l ∧ value_start c.
Proof.
  intros Hwf Hws. destruct (print_json_head ind j Hwf) as (c & l & Hp & Hc).
  exists c, l. rewrite span_ws_app, Hp by done.
  split_and!; [|done..]. apply skip_ws_stop. simpl. apply Hc.
Qed.


Lemma parse_elements_print k ind fuel rest x xs :
  Forall parses (x :: xs) →
  forallb wf_json (x :: xs) = true →
  list_sum (map (λ x, S (json_size x)) (x :: xs)) ≤ fuel →
  parse_elements fuel
    (newline k ++ print_json k x ++
     flat_map (λ y, ","%char :: newline k ++ print_json k y) xs ++
     newline ind ++ "]"%char :: rest)
  = Some (x :: xs, rest).
Proof.
  revert x fuel. induction xs as [|y xs IH]; intros x fuel HP Hwf Hfuel.
  - apply Forall_cons in HP as [Hx _]. simpl in Hwf, Hfuel.
    destruct fuel as [|fuel]; [lia|]. cbn [parse_elements flat_map app].
    rewrite parse_value_skip_ws by apply newline_ws.
    rewrite Hx; [|lia|done]. cbn [mbind option_bind].
    rewrite skip_ws_newline. done.
  - apply Forall_cons in HP as [Hx HP]. cbn [forallb] in Hwf.
    apply andb_prop in Hwf as [Hwx Hwf]. cbn [map list_sum foldr] in Hfuel.
    destruct fuel as [|fuel]; [lia|]. cbn [parse_elements flat_map].
    rewrite parse_value_skip_ws by apply newline_ws.
    rewrite <- ?app_assoc. cbn [app]. rewrite <- ?app_assoc.
    rewrite Hx; [|lia|done]. cbn [mbind option_bind].
    change (skip_ws (","%char :: ?l)) with (","%char :: l). cbv iota.
    rewrite IH; [done|done|done|]. cbn [map list_sum foldr]. lia.
Qed.

Lemma parse_members_print k ind fuel rest m ms :
  Forall (λ m, parses m.2) (m :: ms) →
  forallb (λ m, wf_json m.2) (m :: ms) = true →
  list_sum (map (λ m, S (json_size m.2)) (m :: ms)) ≤ fuel →
  parse_members fuel
    (newline k ++ quote (str m.1) ++ str ": " ++ print_json k m.2 ++
     flat_map (λ y, ","%char :: newline k ++
                    quote (str y.1) ++ str ": " ++ print_json k y.2) ms ++
     newline ind ++ "}"%char :: rest)
  = Some (m :: ms, rest).
Proof.
  revert m fuel. induction ms as [|y ms IH]; intros [key v] fuel HP Hwf Hfuel.
  - apply Forall_cons in HP as [Hx _]. simpl in Hwf, Hfuel, Hx.
    destruct fuel as [|fuel]; [lia|]. cbn [parse_members flat_map app fst snd].
    rewrite skip_ws_newline. unfold quote. cbn [app].
    change (skip_ws ("034"%char :: ?l)) with ("034"%char :: l). cbv iota.
    rewrite <- !app_assoc. cbn [app]. rewrite unquote_quote.
    cbn [mbind option_bind].
    change (skip_ws (str ": " ++ ?l)) with (":"%char :: " "%char :: l).
    cbv iota.
    change (parse_value fuel (" "%char :: ?l))
      with (parse_value fuel ([" "%char] ++ l)).
    rewrite (parse_value_skip_ws fuel [" "%char]) by done.
    rewrite Hx; [|lia|done]. cbn [mbind option_bind].
    rewrite skip_ws_newline, unstr_str. done.
  - apply Forall_cons in HP as [Hx HP]. cbn [forallb] in Hwf.
    apply andb_prop in Hwf as [Hwx Hwf]. cbn [map list_sum foldr] in Hfuel.
    simpl in Hx, Hwx, Hfuel.
    destruct fuel as [|fuel]; [lia|]. cbn [parse_members flat_map fst snd].
    rewrite skip_ws_newline. unfold quote at 1. cbn [app].
    change (skip_ws ("034"%char :: ?l)) with ("034"%char :: l). cbv iota.
    rewrite <- !app_assoc. cbn [app]. rewrite unquote_quote.
    cbn [mbind option_bind].
    change (skip_ws (str ": " ++ ?l)) with (":"%char :: " "%char :: l).
    cbv iota.
    change (parse_value fuel (" "%char :: ?l))
      with (parse_value fuel ([" "%char] ++ l)).
    rewrite (parse_value_skip_ws fuel [" "%char]) by done.
    rewrite Hx; [|lia|done]. cbn [mbind option_bind].
    change (skip_ws (","%char :: ?l)) with (","%char :: l). cbv iota.
    rewrite IH; [by rewrite unstr_str|done|done|]. cbn [map list_sum foldr]. lia.
Qed.

Lemma parse_value_print_all j : wf_json j = true → parses j.
Proof.
  induction j as [|b|n|s|xs IH|ms IH] using json_nested_ind;
    intros Hwf ind fuel rest Hfuel Hrest;
    (destruct fuel as [|fuel]; [simpl in Hfuel; lia|]).
  - done.
  - by destruct b.
  - simpl in Hwf. cbn [print_json].
    destruct (Number_toString_head n Hwf) as (c & l & Hn & Hc).
    pose proof (lex_number_toString n rest Hwf Hrest) as Hlex.
    rewrite Hn in *. cbn [app] in *.
    rewrite parse_value_number, Hlex by done. done.
  - cbn [print_json parse_value]. unfold quote. cbn [app].
    change (skip_ws ("034"%char :: ?l)) with ("034"%char :: l). cbv iota.
    rewrite <- app_assoc. cbn [app]. rewrite unquote_quote.
    cbn [mbind option_bind]. by rewrite unstr_str.
  - destruct xs as [|x xs]; [done|].
    cbn [print_json]. cbn [wf_json] in Hwf. cbn [json_size] in Hfuel.
    pose proof Hwf as Hwx. cbn [forallb] in Hwx. apply andb_prop in Hwx as [Hwx _].
    cbn [app]. rewrite <- !app_assoc. cbn [app].
    destruct (skip_ws_print (ind + 2) x (newline (ind + 2))
                (flat_map (λ y, ","%char :: newline (ind + 2) ++ print_json (ind + 2) y) xs
                 ++ newline ind ++ "]"%char :: rest) Hwx (newline_ws _))
      as (c & l & Hskip & _ & (_ & Hc & _)).
    erewrite parse_array_items; [|exact Hskip|exact Hc].
    rewrite parse_elements_print; [done| |done|lia].
    apply Forall_forall. intros y Hy.
    rewrite Forall_forall in IH. apply IH; [done|].
    rewrite forallb_forall in Hwf. apply Hwf. by apply list_elem_of_In.
  - destruct ms as [|m ms]; [done|].
    cbn [print_json]. cbn [wf_json] in Hwf. cbn [json_size] in Hfuel.
    cbn [app]. rewrite <- !app_assoc. cbn [app].
    erewrite (parse_object_members _ _ "034"%char); [| |done].
    2:{ rewrite skip_ws_newline. unfold quote. cbn [app]. reflexivity. }
    rewrite parse_members_print; [done| |done|lia].
    apply Forall_forall. intros y Hy.
    rewrite Forall_forall in IH. apply IH; [done|].
    rewrite forallb_forall in Hwf. apply (Hwf y). by apply list_elem_of_In.
Qed.

Lemma list_sum_flat_map_length {A} (size : A → nat) (f : A → chars) xs :
  Forall (λ y, S (size y) ≤ length (f y)) xs →
  list_sum (map (λ y, S (size y)) xs) ≤ length (flat_map f xs).
Proof.
  induction 1 as [|y xs Hy _ IH]; [done|].
  cbn [map list_sum foldr flat_map]. rewrite length_app.
  change (foldr Init.Nat.add 0 ?l) with (list_sum l). lia.
Qed.

Lemma json_size_print ind j :
  wf_json j = true → json_size j ≤ length (print_json ind j).
Proof.
  revert ind. induction j as [|b|n|s|xs IH|ms IH] using json_nested_ind;
    intros ind Hwf.
  - simpl. lia.
  - destruct b; simpl; lia.
  - simpl in *. destruct (Number_toString_head n Hwf) as (c & l & -> & _).
    simpl. lia.
  - simpl. lia.
  - destruct xs as [|x xs]; [simpl; lia|].
    cbn [wf_json forallb] in Hwf. apply andb_prop in Hwf as [Hwx Hwf].
    apply Forall_cons in IH as [Hx IH].
    cbn [print_json json_size map list_sum foldr].
    change (foldr Init.Nat.add 0 ?l) with (list_sum l).
    rewrite length_cons, !length_app.
    specialize (Hx (ind + 2) Hwx).
    opose proof* (list_sum_flat_map_length json_size
      (λ y, ","%char :: newline (ind + 2) ++ print_json (ind + 2) y) xs) as Hsum;
      [|cbn [length]; lia].
    apply Forall_forall. intros y Hy. rewrite Forall_forall in IH.
    rewrite forallb_forall in Hwf.
    rewrite length_cons, length_app.
    specialize (IH y Hy (ind + 2) (Hwf y (proj1 (list_elem_of_In _ _) Hy))). lia.
  - destruct ms as [|m ms]; [simpl; lia|].
    cbn [wf_json forallb] in Hwf. apply andb_prop in Hwf as [Hwx Hwf].
    apply Forall_cons in IH as [Hx IH].
    cbn [print_json json_size map list_sum foldr].
    change (foldr Init.Nat.add 0 ?l) with (list_sum l).
    rewrite length_cons, !length_app.
    specialize (Hx (ind + 2) Hwx).
    opose proof* (list_sum_flat_map_length (λ m : string * json, json_size m.2)
      (λ y, ","%char :: newline (ind + 2) ++
            quote (str y.1) ++ str ": " ++ print_json (ind + 2) y.2) ms) as Hsum;
      [|cbn [length]; lia].
    apply Forall_forall. intros y Hy. rewrite Forall_forall in IH.
    rewrite forallb_forall in Hwf.
    rewrite length_cons, !length_app.
    specialize (IH y Hy (ind + 2) (Hwf y (proj1 (list_elem_of_In _ _) Hy))). lia.
Qed.

(** Parsing the text printed for a JSON value gives the value back. *)
Lemma JSON_parse_text_print j :
  wf_json j = true → JSON_parse_text (print_json 0 j) = Some j.
Proof.
  intros Hwf. unfold JSON_parse_text.
  rewrite <- (app_nil_r (print_json 0 j)) at 2.
  rewrite parse_value_print_all; [done|done| |done].
  pose proof (json_size_print 0 j Hwf). lia.
Qed.

(** ** Dates *)

Example toISOString_samples :
  map (λ t, unstr (toISOString t))
    [0; 951782400000; 1735689599999; -1; -62198755200000; max_time;
     - max_time; 253402300800000]%Z
  = ["1970-01-01T00:00:00.000Z"; "2000-02-29T00:00:00.000Z";
     "2024-12-31T23:59:59.999Z"; "1969-12-31T23:59:59.999Z";
     "-000001-01-01T00:00:00.000Z"; "+275760-09-13T00:00:00.000Z";
     "-271821-04-20T00:00:00.000Z"; "+010000-01-01T00:00:00.000Z"]%string.
Proof. reflexivity. Qed.

Example Date_parse_samples :
  map (λ s, Date_parse (str s))
    ["1970-01-01T00:00:00.000Z"; "2024-12-31T23:59:59.999Z"; "hello";
     "2024-13-01T00:00:00.000Z"; "+275760-09-13T00:00:00.001Z";
     "-000000-01-01T00:00:00.000Z"]%string
  = [Some 0; Some 1735689599999; None; None; None; None]%Z.
Proof. reflexivity. Qed.

Lemma all_from_spec n z p x :
  all_from n z p = true → (z ≤ x < z + Z.of_nat n)%Z → p x = true.
Proof.
  revert z. induction n as [|n IH]; intros z Hall Hx; [lia|].
  cbn [all_from] in Hall. apply andb_prop in Hall as [Hz Hall].
  destruct (decide (x = z)) as [->|Hne]; [done|].
  apply (IH (z + 1)%Z); [done|lia].
Qed.

Lemma doe_ok_all : all_from (Z.to_nat 146097) 0 doe_ok = true.
Proof. vm_cast_no_check (eq_refl true). Qed.

Lemma doe_ok_range doe : (0 ≤ doe < 146097)%Z → doe_ok doe = true.
Proof.
  intros H. apply (all_from_spec (Z.to_nat 146097) 0); [apply doe_ok_all|lia].
Qed.

Lemma civil_from_days_spec z :
  ∃ y m d, civil_from_days z = (y, m, d) ∧
    (1 ≤ m ≤ 12)%Z ∧ (1 ≤ d ≤ 31)%Z ∧ days_from_civil y m d = z ∧
    ((z + 719468) / 146097 * 400 ≤ y ≤ (z + 719468) / 146097 * 400 + 400)%Z.
Proof.
  unfold civil_from_days, days_from_civil.
  set (z' := (z + 719468)%Z). set (era := (z' / 146097)%Z).
  assert (Hdoe : (0 ≤ z' mod 146097 < 146097)%Z) by (apply Z.mod_pos_bound; lia).
  pose proof (doe_ok_range _ Hdoe) as Hok. unfold doe_ok in Hok.
  destruct (civil_of_doe (z' mod 146097)) as [[yoe m] d].
  repeat (apply andb_prop in Hok as [Hok ?]).
  repeat match goal with
         | H : (_ <=? _)%Z = true |- _ => apply Z.leb_le in H
         | H : (_ <? _)%Z = true |- _ => apply Z.ltb_lt in H
         | H : (_ =? _)%Z = true |- _ => apply Z.eqb_eq in H
         end.
  exists (yoe + era * 400 + (if (m <=? 2)%Z then 1 else 0))%Z, m, d.
  split_and!; try done; try lia; [|destruct (m <=? 2)%Z; lia..].
  replace (yoe + era * 400 + (if (m <=? 2)%Z then 1 else 0)
           - (if (m <=? 2)%Z then 1 else 0))%Z with (yoe + era * 400)%Z by lia.
  rewrite Z.div_add, Z.mod_add by lia.
  rewrite Z.div_small, Z.mod_small by lia.
  pose proof (Z.div_mod z' 146097). subst era. lia.
Qed.

Lemma digit_char_value d :
  (0 ≤ d < 10)%Z →
  digit_value (digit_char d) = d ∧ is_digit (digit_char d) = true.
Proof.
  intros H.
  assert (Hd : d ∈ seqZ 0 10) by (apply elem_of_seqZ; lia).
  vm_compute in Hd. set_unfold in Hd.
  repeat (destruct Hd as [->|Hd]; [by vm_compute|]). done.
Qed.

Lemma digits_value_snoc l c :
  digits_value (l ++ [c]) = (digits_value l * 10 + digit_value c)%Z.
Proof. unfold digits_value. by rewrite foldl_app. Qed.

Lemma digits_fixed_spec w n :
  (0 ≤ n < 10 ^ Z.of_nat w)%Z →
  length (digits_fixed w n) = w ∧
  forallb is_digit (digits_fixed w n) = true ∧
  digits_value (digits_fixed w n) = n.
Proof.
  revert n. induction w as [|w IH]; intros n Hn.
  - simpl in *. split_and!; [done..|]. unfold digits_value. simpl. lia.
  - rewrite Nat2Z.inj_succ, Z.pow_succ_r in Hn by lia.
    destruct (IH (n / 10)%Z) as (Hl & Hd & Hv).
    { split; [apply Z.div_pos; lia|]. apply Z.div_lt_upper_bound; lia. }
    destruct (digit_char_value (n mod 10)) as [Hdv Hdd].
    { apply Z.mod_pos_bound. lia. }
    cbn [digits_fixed]. split_and!.
    + rewrite length_app, Hl. simpl. lia.
    + rewrite forallb_app, Hd. simpl. by rewrite Hdd.
    + rewrite digits_value_snoc, Hv, Hdv.
      pose proof (Z.div_mod n 10). lia.
Qed.

Lemma read_digits_fixed w n rest :
  (0 ≤ n < 10 ^ Z.of_nat w)%Z →
  read_digits w (digits_fixed w n ++ rest) = Some (n, rest).
Proof.
  intros Hn. destruct (digits_fixed_spec w n Hn) as (Hl & Hd & Hv).
  unfold read_digits.
  rewrite take_app_length', drop_app_length' by done.
  rewrite Hl, Hd, Hv, bool_decide_eq_true_2 by done. done.
Qed.

Lemma read_year_digits c l :
  is_digit c = true → read_year (c :: l) = read_digits 4 (c :: l).
Proof. by ascii_cases c. Qed.

Lemma read_year_toISOString y rest :
  (- 10 ^ 6 < y < 10 ^ 6)%Z →
  read_year
    ((if (0 <=? y)%Z && (y <=? 9999)%Z then digits_fixed 4 y
      else (if (y <? 0)%Z then "-"%char else "+"%char) :: digits_fixed 6 (Z.abs y))
     ++ rest) = Some (y, rest).
Proof.
  intros Hy. destruct ((0 <=? y)%Z && (y <=? 9999)%Z) eqn:Hc.
  - apply andb_prop in Hc as [?%Z.leb_le ?%Z.leb_le].
    assert (Hr : (0 ≤ y < 10 ^ Z.of_nat 4)%Z) by (simpl; lia).
    destruct (digits_fixed_spec 4 y Hr) as (Hl & Hd & _).
    pose proof (read_digits_fixed 4 y rest Hr) as Hread.
    destruct (digits_fixed 4 y) as [|c l]; [done|].
    simpl in Hd. apply andb_prop in Hd as [Hd _].
    cbn [app] in *. by rewrite read_year_digits.
  - assert (Hr : (0 ≤ Z.abs y < 10 ^ Z.of_nat 6)%Z) by (simpl; lia).
    pose proof (read_digits_fixed 6 (Z.abs y) rest Hr) as Hread.
    apply andb_false_iff in Hc.
    destruct (y <? 0)%Z eqn:Hs; cbn [app read_year]; rewrite Hread.
    + apply Z.ltb_lt in Hs. cbn [mbind option_bind].
      destruct (Z.abs y =? 0)%Z eqn:Hz; [lia|]. do 2 f_equal. lia.
    + apply Z.ltb_ge in Hs. do 2 f_equal. lia.
Qed.

(** Date.parse reads back the instant that toISOString wrote. *)
Lemma Date_parse_toISOString t :
  valid_time t = true → Date_parse (toISOString t) = Some t.
Proof.
  intros Hvalid. unfold valid_time, max_time in Hvalid.
  apply andb_prop in Hvalid as [Hlo%Z.leb_le Hhi%Z.leb_le].
  unfold toISOString.
  destruct (civil_from_days_spec (t / ms_per_day))
    as (y & m & d & -> & Hm & Hd & Hdays & Hy).
  set (r := (t mod ms_per_day)%Z).
  assert (Hr : (0 ≤ r < 86400000)%Z) by (apply Z.mod_pos_bound; done).
  assert (Ht : t = (t / ms_per_day * ms_per_day + r)%Z).
  { subst r. pose proof (Z.div_mod t ms_per_day). unfold ms_per_day in *. lia. }
  assert (Hdiv : (-100000000 ≤ t / ms_per_day ≤ 100000000)%Z).
  { unfold ms_per_day in *. lia. }
  assert (Hyb : (- 10 ^ 6 < y < 10 ^ 6)%Z).
  { assert ((-680 ≤ (t / ms_per_day + 719468) / 146097 < 690)%Z).
    { split; [apply Z.div_le_lower_bound|apply Z.div_lt_upper_bound]; lia. }
    simpl. lia. }
  assert (Hhh : (0 ≤ r / 3600000 < 24)%Z).
  { split; [apply Z.div_pos; lia|]. apply Z.div_lt_upper_bound; lia. }
  assert (Hmm : (0 ≤ (r / 60000) mod 60 < 60)%Z) by (apply Z.mod_pos_bound; lia).
  assert (Hss : (0 ≤ (r / 1000) mod 60 < 60)%Z) by (apply Z.mod_pos_bound; lia).
  assert (Hms : (0 ≤ r mod 1000 < 1000)%Z) by (apply Z.mod_pos_bound; lia).
  unfold Date_parse.
  rewrite read_year_toISOString by done.
  do 6 (cbn [mbind option_bind expect app];
        rewrite ?bool_decide_eq_true_2 by done;
        cbn [mbind option_bind];
        rewrite read_digits_fixed by (simpl; lia)).
  cbn [mbind option_bind].
  rewrite Hdays.
  assert (Hsum : (t / ms_per_day * ms_per_day + r / 3600000 * 3600000 +
                  (r / 60000) mod 60 * 60000 + (r / 1000) mod 60 * 1000 +
                  r mod 1000 = t)%Z).
  { assert (Hrsum : (r / 3600000 * 3600000 + (r / 60000) mod 60 * 60000 +
                     (r / 1000) mod 60 * 1000 + r mod 1000 = r)%Z).
    { clearbody r. clear -Hr. Z.div_mod_to_equations. lia. }
    lia. }
  rewrite Hsum.
  assert (Hchk : (1 <=? m)%Z && (m <=? 12)%Z && (1 <=? d)%Z && (d <=? 31)%Z &&
            (r / 3600000 <? 24)%Z && ((r / 60000) mod 60 <? 60)%Z &&
            ((r / 1000) mod 60 <? 60)%Z && valid_time t = true).
  { unfold valid_time, max_time.
    repeat (apply andb_true_intro; split);
      try (apply Z.leb_le; lia); try (apply Z.ltb_lt; lia). }
  by rewrite Hchk.
Qed.

(** * The record-mapping layer *)

(** ** Worked examples *)

(** create, findOne, update, findOne, delete, findOne, as in the
    end-to-end scenario. *)
Example end_to_end :
  let w0 := empty_world 1000 in
  let '(r1, w1) := BucketModel.create "user" user_u1 w0 in
  let '(r2, w2) := BucketModel.findOne "user" (VStr "u1") w1 in
  let '(r3, w3) := BucketModel.update "user" (VStr "u1")
                     (VObj [("active", VBool false)]%string) (at_time 2000 w2) in
  let '(r4, w4) := BucketModel.findOne "user" (VStr "u1") w3 in
  let '(r5, w5) := BucketModel.delete "user" (VStr "u1") w4 in
  let '(r6, w6) := BucketModel.findOne "user" (VStr "u1") w5 in
  let stored t active :=
    VObj [("id", VStr "u1"); ("name", VStr "A"); ("active", VBool active);
          ("createdAt", VDate (Some 1000%Z)); ("updatedAt", VDate (Some t))]%string in
  r1 = Returned (stored 1000%Z true) ∧ r2 = Returned (stored 1000%Z true) ∧
  r3 = Returned (stored 2000%Z false) ∧ r4 = Returned (stored 2000%Z false) ∧
  r5 = Returned () ∧ r6 = Returned VNull ∧
  objects w1 !! "user/u1.json"%string
    = Some (unstr (sq "{" ++ newline 2 ++ sq "'id': 'u1'," ++
                   newline 2 ++ sq "'name': 'A'," ++
                   newline 2 ++ sq "'active': true," ++
                   newline 2 ++ sq "'createdAt': '1970-01-01T00:00:01.000Z'," ++
                   newline 2 ++ sq "'updatedAt': '1970-01-01T00:00:01.000Z'" ++
                   newline 0 ++ sq "}")) ∧
  objects w6 = ∅.
Proof. vm_compute. repeat split. Qed.

(** Array.prototype.slice on relative, fractional and non-finite indices. *)
Example Array_slice_samples :
  let l := ["a"; "b"; "c"; "d"]%string in
  let n (z : Z) := Finite (number_of_Z z) in
  [Array_slice l (n 1%Z) None; Array_slice l (n (-1)%Z) None;
   Array_slice l (n 0%Z) (Some (n 2%Z)); Array_slice l (n 0%Z) (Some (n (-1)%Z));
   Array_slice l (Finite (Num false (str "15") 1)) None;
   Array_slice l NaN None; Array_slice l (Infinity false) None;
   Array_slice l (n 0%Z) (Some (Infinity false)); Array_slice l (n 7%Z) None]
  = [["b"; "c"; "d"]; ["d"]; ["a"; "b"]; ["a"; "b"; "c"]; ["b"; "c"; "d"];
     ["a"; "b"; "c"; "d"]; []; ["a"; "b"; "c"; "d"]; []]%string.
Proof. reflexivity. Qed.

Example truncate_samples :
  map truncate [number_of_Z 0; number_of_Z (-1200); Num false (str "25") 1;
                Num true (str "5") 0; Num false (str "12345") 3]
  = [0; -1200; 2; 0; 123]%Z.
Proof. reflexivity. Qed.

(** The filter example: records a (active) and b (not active). *)
Example filter_by_active :
  let ids opts :=
    match (BucketModel.findMany "user" (Some opts) world_ab).1 with
    | Returned records => map (λ r, field r "id") records
    | Threw _ => []
    end in
  let where_active b :=
    {| BucketModel.where_ := Some [("active"%string, Data (VBool b))];
       BucketModel.limit := None; BucketModel.offset := None |} in
  ids (where_active true) = [VStr "a"] ∧ ids (where_active false) = [VStr "b"].
Proof. vm_compute. split; reflexivity. Qed.

(** The where clause reads the records by computed keys, so it sees what
    a record inherits from Object.prototype: no record is undefined under
    [toString], every record that has no field [__proto__] of its own holds
    Object.prototype there, and a record holds undefined under a key that
    neither it nor Object.prototype has. *)
Example where_reads_inherited_members :
  let ids wh :=
    match (BucketModel.findMany "user"
             (Some {| BucketModel.where_ := Some wh;
                      BucketModel.limit := None; BucketModel.offset := None |})
             world_ab).1 with
    | Returned records => map (λ r, field r "id") records
    | Threw _ => []
    end in
  ids [("toString"%string, Data VUndefined)] = [] ∧
  ids [("toString"%string, Intrinsic "toString")] = [VStr "a"; VStr "b"] ∧
  ids [("__proto__"%string, Intrinsic "__proto__")] = [VStr "a"; VStr "b"] ∧
  ids [("nickname"%string, Data VUndefined)] = [VStr "a"; VStr "b"] ∧
  ids [("active"%string, Data (VBool true));
       ("valueOf"%string, Intrinsic "valueOf")] = [VStr "a"].
Proof. vm_compute. repeat split. Qed.

(** Validation of the id argument. *)
Example invalid_ids :
  map (λ id, match (BucketModel.findOne "user" id (empty_world 0)).1 with
             | Threw (BucketORMException e) => Some (code e)
             | _ => None
             end)
    [VStr EmptyString; VNull; VUndefined; VNumber (Finite (number_of_Z 7)); VStr "u1"]
  = [Some INVALID_DATA; Some INVALID_DATA; Some INVALID_DATA; Some INVALID_DATA; None].
Proof. vm_compute. reflexivity. Qed.

(** What serialization does to the values that JSON does not represent: an
    undefined field is left out, a non-finite number becomes null and a
    Date becomes a string; only the two timestamps are converted back. *)
Example create_then_findOne_lossy :
  let data :=
    VObj [("id", VStr "n1"); ("note", VUndefined); ("score", VNumber NaN);
          ("when", VDate (Some 0%Z))]%string in
  let '(r1, w1) := BucketModel.create "note" data (empty_world 1000) in
  let '(r2, _) := BucketModel.findOne "note" (VStr "n1") w1 in
  r1 = Returned (VObj [("id", VStr "n1"); ("note", VUndefined);
                       ("score", VNumber NaN); ("when", VDate (Some 0%Z));
                       ("createdAt", VDate (Some 1000%Z));
                       ("updatedAt", VDate (Some 1000%Z))]%string) ∧
  r2 = Returned (VObj [("id", VStr "n1"); ("score", VNull);
                       ("when", VStr "1970-01-01T00:00:00.000Z");
                       ("createdAt", VDate (Some 1000%Z));
                       ("updatedAt", VDate (Some 1000%Z))]%string).
Proof. vm_compute. split; reflexivity. Qed.

(** ** Values and their JSON form *)

Lemma to_json_wf v j : wf_value v = true → to_json v = Some j → wf_json j = true.
Proof.
  revert j. induction v as [| |b|x|s|t|xs IH|ps IH] using value_nested_ind;
    intros j Hwf Hj; simpl in Hj.
  - done.
  - by simplify_eq.
  - by simplify_eq.
  - destruct x; by simplify_eq.
  - by simplify_eq.
  - destruct t; by simplify_eq.
  - simplify_eq. cbn [wf_json wf_value] in *.
    rewrite forallb_forall in Hwf. rewrite Forall_forall in IH.
    apply forallb_forall. intros jx [x [<- Hx]]%in_map_iff.
    apply list_elem_of_In in Hx as Hx'.
    destruct (to_json x) as [jx|] eqn:Hjx; [|done].
    apply (IH x Hx'); [by apply Hwf|done].
  - simplify_eq. cbn [wf_json wf_value] in *.
    apply andb_prop in Hwf as [Hwf _].
    rewrite forallb_forall in Hwf. rewrite Forall_forall in IH.
    apply forallb_forall. intros [k jx] Hin.
    apply list_elem_of_In, list_elem_of_omap in Hin as ([k' x] & Hx & Hf).
    simpl in Hf. destruct (to_json x) as [jx'|] eqn:Hjx; simplify_eq.
    apply (IH _ Hx); [|done]. apply (Hwf (k, x)). by apply list_elem_of_In.
Qed.

Lemma lookup_set_prop_eq k v ps : lookup_prop k (set_prop k v ps) = Some v.
Proof.
  induction ps as [|[k' v'] ps IH]; simpl.
  - by rewrite bool_decide_eq_true_2.
  - destruct (bool_decide (k' = k)) eqn:Hk; simpl.
    + by rewrite bool_decide_eq_true_2.
    + by rewrite Hk.
Qed.

Lemma lookup_set_prop_ne k k' v ps :
  k ≠ k' → lookup_prop k' (set_prop k v ps) = lookup_prop k' ps.
Proof.
  intros Hne. induction ps as [|[k0 v0] ps IH]; simpl.
  - by rewrite bool_decide_eq_false_2.
  - destruct (bool_decide (k0 = k)) eqn:Hk; simpl.
    + apply bool_decide_eq_true in Hk as ->.
      by rewrite !bool_decide_eq_false_2.
    + destruct (bool_decide (k0 = k')); [done|]. apply IH.
Qed.

Lemma lookup_spread k ps src :
  lookup_prop k (spread ps src)
  = match lookup_prop k (rev src) with
    | Some v => Some v
    | None => lookup_prop k ps
    end.
Proof.
  unfold spread. revert ps. induction src as [|[k' v'] src IH] using rev_ind;
    intros ps; [done|].
  rewrite foldl_app, rev_app_distr. simpl.
  destruct (bool_decide (k' = k)) eqn:Hk.
  - apply bool_decide_eq_true in Hk as ->. apply lookup_set_prop_eq.
  - apply bool_decide_eq_false in Hk. rewrite lookup_set_prop_ne by done. apply IH.
Qed.

Lemma Forall_set_prop (P : value → Prop) k v ps :
  P v → Forall (λ kv, P kv.2) ps → Forall (λ kv, P kv.2) (set_prop k v ps).
Proof.
  intros Hv. induction 1 as [|[k' v'] ps Hx Hps IH]; simpl.
  - by constructor.
  - destruct (bool_decide (k' = k)); constructor; done.
Qed.

Lemma Forall_spread (P : value → Prop) ps src :
  Forall (λ kv, P kv.2) ps → Forall (λ kv, P kv.2) src →
  Forall (λ kv, P kv.2) (spread ps src).
Proof.
  intros Hps Hsrc. unfold spread. revert ps Hps.
  induction Hsrc as [|[k v] src Hx _ IH]; intros ps Hps; [done|].
  simpl. apply IH. by apply Forall_set_prop.
Qed.

Lemma wf_value_props ps :
  wf_value (VObj ps) = true ↔
  Forall (λ kv, wf_value kv.2 = true) ps ∧ NoDup ps.*1.
Proof.
  simpl. rewrite andb_true_iff, bool_decide_eq_true, forallb_forall, Forall_forall.
  split; intros [H ?]; (split; [|done]); intros x Hx; apply H;
    by apply list_elem_of_In.
Qed.

Lemma set_prop_fst_in k v ps : k ∈ ps.*1 → (set_prop k v ps).*1 = ps.*1.
Proof.
  induction ps as [|[k' v'] ps IH]; simpl; [by intros ?%elem_of_nil|].
  intros Hin. destruct (bool_decide (k' = k)) eqn:Hk; simpl.
  - by apply bool_decide_eq_true in Hk as ->.
  - apply bool_decide_eq_false in Hk. f_equal. apply IH.
    apply elem_of_cons in Hin as [->|]; done.
Qed.

Lemma set_prop_fst_notin k v ps : k ∉ ps.*1 → (set_prop k v ps).*1 = ps.*1 ++ [k].
Proof.
  induction ps as [|[k' v'] ps IH]; simpl; [done|].
  intros Hin. apply not_elem_of_cons in Hin as [Hne Hin].
  rewrite bool_decide_eq_false_2 by done. simpl. f_equal. by apply IH.
Qed.

Lemma NoDup_set_prop k v ps : NoDup ps.*1 → NoDup (set_prop k v ps).*1.
Proof.
  intros Hnd. destruct (decide (k ∈ ps.*1)) as [Hin|Hin].
  - by rewrite set_prop_fst_in.
  - rewrite set_prop_fst_notin by done. apply NoDup_app. split_and!; [done| |].
    + intros x Hx ->%list_elem_of_singleton. done.
    + apply NoDup_singleton.
Qed.

Lemma NoDup_foldl_set_prop {A} (key : A → string) (val : A → value) acc l :
  NoDup acc.*1 →
  NoDup (foldl (λ acc x, set_prop (key x) (val x) acc) acc l).*1.
Proof.
  revert acc. induction l as [|x l IH]; intros acc Hacc; [done|].
  simpl. apply IH. by apply NoDup_set_prop.
Qed.

Lemma NoDup_spread ps src : NoDup ps.*1 → NoDup (spread ps src).*1.
Proof. apply (NoDup_foldl_set_prop fst snd). Qed.

Lemma lookup_prop_None k ps : lookup_prop k ps = None ↔ k ∉ ps.*1.
Proof.
  induction ps as [|[k' v'] ps IH]; simpl.
  - split; [intros _ ?%elem_of_nil; done|done].
  - rewrite not_elem_of_cons. destruct (bool_decide (k' = k)) eqn:Hk.
    + apply bool_decide_eq_true in Hk as ->. split; [done|]. by intros [? _].
    + apply bool_decide_eq_false in Hk. rewrite IH.
      split; [intros ?; split; [congruence|done]|by intros [_ ?]].
Qed.

Lemma lookup_prop_Some k v ps :
  NoDup ps.*1 → lookup_prop k ps = Some v ↔ (k, v) ∈ ps.
Proof.
  induction ps as [|[k' v'] ps IH]; simpl.
  - intros _. split; [done|by intros ?%elem_of_nil].
  - intros [Hk' Hnd]%NoDup_cons. rewrite elem_of_cons.
    destruct (bool_decide (k' = k)) eqn:Hk.
    + apply bool_decide_eq_true in Hk as ->. split.
      * intros [= ->]. by left.
      * intros [[= ->]|Hin]; [done|]. destruct Hk'.
        apply list_elem_of_fmap. by exists (k, v).
    + apply bool_decide_eq_false in Hk. rewrite IH by done. split.
      * by right.
      * intros [[= -> ->]|Hin]; done.
Qed.

Lemma rev_reverse {A} (l : list A) : rev l = reverse l.
Proof. unfold reverse. apply rev_alt. Qed.

Lemma lookup_prop_rev k ps :
  NoDup ps.*1 → lookup_prop k (rev ps) = lookup_prop k ps.
Proof.
  intros Hnd.
  assert (Hrev : NoDup (rev ps).*1).
  { by rewrite rev_reverse, fmap_reverse, reverse_Permutation. }
  destruct (lookup_prop k ps) as [v|] eqn:Hl.
  - apply lookup_prop_Some; [done|]. apply lookup_prop_Some in Hl; [|done].
    rewrite rev_reverse. by apply elem_of_reverse.
  - apply lookup_prop_None. apply lookup_prop_None in Hl.
    by rewrite rev_reverse, fmap_reverse, elem_of_reverse.
Qed.

(** ** Running the operations *)

Lemma run_bind {A B} (m : M A) (k : A → M B) w :
  (x ← m; k x) w
  = match m w with
    | (Returned a, w') => k a w'
    | (Threw e, w') => (Threw e, w')
    end.
Proof. reflexivity. Qed.

Lemma revive_date_run field record w :
  record ≠ VNull → record ≠ VUndefined →
  BucketModel.revive_date field record w = (Returned (revived field record), w).
Proof.
  intros Hn Hu. unfold BucketModel.revive_date, revived. rewrite run_bind.
  destruct record; try done; simpl.
  destruct (lookup_prop field props) as [v|]; [|done].
  destruct v; simpl; try done.
  - by destruct b.
  - destruct x as [n| |]; simpl; try done.
    by destruct (bool_decide (num_digits n = [])).
  - by destruct (bool_decide (s = EmptyString)).
Qed.

Lemma revived_not_null field record :
  record ≠ VNull → record ≠ VUndefined →
  revived field record ≠ VNull ∧ revived field record ≠ VUndefined.
Proof.
  intros Hn Hu. unfold revived.
  destruct (lookup_prop _ _) as [[]|]; try done.
  by destruct (bool_decide _).
Qed.

Lemma value_of_json_defined j : value_of_json j ≠ VUndefined.
Proof. by destruct j. Qed.

Lemma getRecord_absent m id w :
  objects w !! BucketModel.generateKey m id = None →
  BucketModel.getRecord m id w
  = (Returned VNull, record_call (Download (BucketModel.generateKey m id)) w).
Proof.
  intros H. unfold BucketModel.getRecord, try_catch, BucketModel.getRecord_body.
  rewrite run_bind. unfold storage_download. by rewrite H.
Qed.

Lemma getRecord_empty m id w :
  objects w !! BucketModel.generateKey m id = Some EmptyString →
  BucketModel.getRecord m id w
  = (Returned VNull, record_call (Download (BucketModel.generateKey m id)) w).
Proof.
  intros H. unfold BucketModel.getRecord, try_catch, BucketModel.getRecord_body.
  rewrite run_bind. unfold storage_download. by rewrite H.
Qed.

Lemma getRecord_corrupt m id w body :
  objects w !! BucketModel.generateKey m id = Some body →
  body ≠ EmptyString →
  JSON_parse_text (str body) = None →
  BucketModel.getRecord m id w
  = (Threw (BucketORMException (parse_failure id)),
     record_call (Download (BucketModel.generateKey m id)) w).
Proof.
  intros H Hne Hparse.
  unfold BucketModel.getRecord, try_catch, BucketModel.getRecord_body.
  rewrite run_bind. unfold storage_download. rewrite H.
  destruct body as [|c body]; [done|].
  rewrite run_bind. unfold JSON_parse. rewrite Hparse. done.
Qed.

Lemma getRecord_parsed m id w body j :
  objects w !! BucketModel.generateKey m id = Some body →
  body ≠ EmptyString →
  JSON_parse_text (str body) = Some j →
  j ≠ JNull →
  BucketModel.getRecord m id w
  = (Returned (decoded j),
     record_call (Download (BucketModel.generateKey m id)) w).
Proof.
  intros H Hne Hparse Hj.
  assert (Hv : value_of_json j ≠ VNull) by (by destruct j).
  pose proof (value_of_json_defined j) as Hu.
  unfold BucketModel.getRecord, try_catch, BucketModel.getRecord_body.
  rewrite run_bind. unfold storage_download. rewrite H.
  destruct body as [|c body]; [done|].
  rewrite run_bind. unfold JSON_parse. rewrite Hparse. simpl native.
  unfold ret at 1. rewrite run_bind, revive_date_run by done.
  destruct (revived_not_null "createdAt" _ Hv Hu).
  rewrite run_bind, revive_date_run by done. done.
Qed.

(** A JSON null body: [record.createdAt] raises a TypeError, which
    [getRecord] wraps. *)
Lemma getRecord_null m id w body :
  objects w !! BucketModel.generateKey m id = Some body →
  body ≠ EmptyString →
  JSON_parse_text (str body) = Some JNull →
  ∃ e, BucketModel.getRecord m id w
       = (Threw (BucketORMException e),
          record_call (Download (BucketModel.generateKey m id)) w) ∧
       code e = STORAGE_ERROR.
Proof.
  intros H Hne Hparse.
  unfold BucketModel.getRecord, try_catch, BucketModel.getRecord_body.
  rewrite run_bind. unfold storage_download. rewrite H.
  destruct body as [|c body]; [done|].
  rewrite run_bind. unfold JSON_parse. rewrite Hparse. simpl.
  eexists. split; [reflexivity|done].
Qed.

(** Whatever happens, [getRecord] only reads: it leaves the bucket as it
    is and records one download. *)
Lemma getRecord_world m id w :
  (BucketModel.getRecord m id w).2
  = record_call (Download (BucketModel.generateKey m id)) w.
Proof.
  destruct (objects w !! BucketModel.generateKey m id) as [body|] eqn:Hb.
  - destruct (decide (body = EmptyString)) as [->|Hne].
    { by rewrite getRecord_empty. }
    destruct (JSON_parse_text (str body)) as [j|] eqn:Hj.
    + assert (j = JNull ∨ j ≠ JNull) as [->|Hnull] by (destruct j; auto).
      * destruct (getRecord_null m id w body Hb Hne Hj) as (e & -> & _). done.
      * by erewrite getRecord_parsed.
    + by erewrite getRecord_corrupt.
  - by rewrite getRecord_absent.
Qed.

(** [getRecord] returns a value or throws a BucketORMException. *)
Lemma getRecord_outcome m id w :
  (∃ v, (BucketModel.getRecord m id w).1 = Returned v) ∨
  (∃ e, (BucketModel.getRecord m id w).1 = Threw (BucketORMException e) ∧
        code e = STORAGE_ERROR).
Proof.
  destruct (objects w !! BucketModel.generateKey m id) as [body|] eqn:Hb.
  - destruct (decide (body = EmptyString)) as [->|Hne].
    { left. rewrite getRecord_empty by done. by eexists. }
    destruct (JSON_parse_text (str body)) as [j|] eqn:Hj.
    + assert (j = JNull ∨ j ≠ JNull) as [->|Hnull] by (destruct j; auto).
      * destruct (getRecord_null m id w body Hb Hne Hj) as (e & -> & He).
        right. by exists e.
      * left. erewrite getRecord_parsed by done. by eexists.
    + right. erewrite getRecord_corrupt by done. by eexists.
  - left. rewrite getRecord_absent by done. by eexists.
Qed.

Lemma invalid_id_false id :
  BucketModel.invalid_id id = false ↔ ∃ X, id = VStr X ∧ X ≠ EmptyString.
Proof.
  unfold BucketModel.invalid_id. split.
  - intros [Ht%negb_false_iff Hs%negb_false_iff]%orb_false_elim.
    destruct id; try done. exists s. split; [done|].
    simpl in Ht. apply negb_true_iff, bool_decide_eq_false in Ht. done.
  - intros (X & -> & HX). simpl. by rewrite bool_decide_eq_false_2.
Qed.

(** The record that [create] builds from the payload at time [t]. *)
Lemma create_returned m data w r w1 :
  BucketModel.create m data w = (Returned r, w1) →
  ∃ X existing json,
    get data "id" = inr (VStr X) ∧ X ≠ EmptyString ∧
    (BucketModel.getRecord m X w).1 = Returned existing ∧
    truthy existing = false ∧
    r = VObj (set_prop "updatedAt" (Date_of_time (clock w))
               (set_prop "createdAt" (Date_of_time (clock w))
                 (spread [] (own_props data)))) ∧
    JSON_stringify r = Some json ∧
    w1 = {| objects := <[BucketModel.generateKey m X := json]> (objects w);
            calls := Upload (BucketModel.generateKey m X) json ::
                     Download (BucketModel.generateKey m X) :: calls w;
            clock := clock w |}.
Proof.
  unfold BucketModel.create. rewrite run_bind.
  destruct (get data "id") as [e|id] eqn:Hid; [done|]. simpl native. unfold ret at 1.
  destruct (BucketModel.invalid_id id) eqn:Hinv; [done|].
  apply invalid_id_false in Hinv as (X & -> & HX). simpl BucketModel.text_of.
  rewrite run_bind.
  pose proof (getRecord_world m X w) as Hw.
  destruct (BucketModel.getRecord m X w) as [[existing|e] w0] eqn:Hget; [|done].
  simpl in Hw. subst w0.
  destruct (truthy existing) eqn:Htr; [done|].
  rewrite run_bind. unfold new_Date at 1. simpl clock.
  destruct (JSON_stringify _) as [json|] eqn:Hjson; [|done].
  intros H. unfold mbind, M_bind, bind, storage_upload, ret in H. simpl in H.
  simplify_eq. exists X, existing, json. split_and!; try done.
  by rewrite Hget.
Qed.

Lemma JSON_stringify_object ps json :
  JSON_stringify (VObj ps) = Some json →
  ∃ ms, to_json (VObj ps) = Some (JObj ms) ∧ json = unstr (print_json 0 (JObj ms)).
Proof.
  unfold JSON_stringify. simpl. intros [= <-]. eexists. done.
Qed.

Lemma print_json_object_nonempty ms : unstr (print_json 0 (JObj ms)) ≠ EmptyString.
Proof. by destruct ms. Qed.

Lemma decoded_object_truthy ms : truthy (decoded (JObj ms)) = true.
Proof.
  unfold decoded, revived. simpl value_of_json. simpl own_props.
  repeat (case_match; simpl; try done).
Qed.

(** Reading back what was just stored for a well-formed object. *)
Lemma getRecord_stored m X w ps json :
  wf_value (VObj ps) = true →
  JSON_stringify (VObj ps) = Some json →
  objects w !! BucketModel.generateKey m X = Some json →
  ∃ ms, to_json (VObj ps) = Some (JObj ms) ∧
    BucketModel.getRecord m X w
    = (Returned (decoded (JObj ms)),
       record_call (Download (BucketModel.generateKey m X)) w).
Proof.
  intros Hwf Hjson Hobj.
  destruct (JSON_stringify_object ps json Hjson) as (ms & Hms & ->).
  exists ms. split; [done|].
  eapply getRecord_parsed; [done| | |done].
  - apply print_json_object_nonempty.
  - unfold str, unstr. rewrite list_ascii_of_string_of_list_ascii.
    apply JSON_parse_text_print. by eapply to_json_wf.
Qed.

Lemma wf_value_created data t :
  wf_value data = true →
  wf_value (VObj (set_prop "updatedAt" (Date_of_time t)
                   (set_prop "createdAt" (Date_of_time t)
                     (spread [] (own_props data))))) = true.
Proof.
  intros Hwf. apply wf_value_props.
  assert (Hd : wf_value (Date_of_time t) = true).
  { unfold Date_of_time, time_clip. by destruct (valid_time t) eqn:Ht. }
  split.
  - do 2 (apply (Forall_set_prop (λ v, wf_value v = true)); [done|]).
    apply (Forall_spread (λ v, wf_value v = true)); [done|].
    destruct data; try done. by apply wf_value_props.
  - do 2 apply NoDup_set_prop. apply NoDup_spread, NoDup_nil_2.
Qed.

Lemma create_not_zod m data w errors w' :
  BucketModel.create m data w ≠ (Threw (ZodError errors), w').
Proof.
  unfold BucketModel.create. rewrite run_bind.
  destruct (get data "id") as [e|id]; [done|]. simpl native. unfold ret at 1.
  destruct (BucketModel.invalid_id id); [done|].
  rewrite run_bind.
  destruct (getRecord_outcome m (BucketModel.text_of id) w) as [[v Hv]|(e & He & _)];
    destruct (BucketModel.getRecord m (BucketModel.text_of id) w) as [o w0];
    cbn [fst] in *; subst o; [|done].
  destruct (truthy v); [done|].
  rewrite run_bind. unfold new_Date at 1.
  match goal with |- context [JSON_stringify ?r] => destruct (JSON_stringify r) end;
    [|done].
  unfold mbind, M_bind, bind, storage_upload, ret. done.
Qed.

Lemma findOne_corrupt m X w body :
  X ≠ EmptyString →
  objects w !! BucketModel.generateKey m X = Some body →
  body ≠ EmptyString →
  JSON_parse_text (str body) = None →
  BucketModel.findOne m (VStr X) w
  = (Threw (BucketORMException (parse_failure X)),
     record_call (Download (BucketModel.generateKey m X)) w).
Proof.
  intros HX Hb Hne Hp. unfold BucketModel.findOne.
  rewrite (proj2 (invalid_id_false (VStr X))) by eauto.
  by apply (getRecord_corrupt m X w body).
Qed.

Lemma NoDup_value_of_json j : NoDup (own_props (value_of_json j)).*1.
Proof.
  destruct j; simpl; try apply NoDup_nil_2.
  apply (NoDup_foldl_set_prop fst (λ m, value_of_json m.2)), NoDup_nil_2.
Qed.

Lemma NoDup_revived field v :
  NoDup (own_props v).*1 → NoDup (own_props (revived field v)).*1.
Proof.
  intros Hnd. unfold revived.
  destruct (lookup_prop _ _) as [[]|]; try done.
  destruct (bool_decide _); [done|]. simpl. by apply NoDup_set_prop.
Qed.

(** A record returned by [getRecord] has each of its keys once. *)
Lemma getRecord_NoDup m X w v :
  (BucketModel.getRecord m X w).1 = Returned v → NoDup (own_props v).*1.
Proof.
  destruct (objects w !! BucketModel.generateKey m X) as [body|] eqn:Hb.
  - destruct (decide (body = EmptyString)) as [->|Hne].
    { rewrite getRecord_empty by done. intros [= <-]. apply NoDup_nil_2. }
    destruct (JSON_parse_text (str body)) as [j|] eqn:Hj.
    + assert (j = JNull ∨ j ≠ JNull) as [->|Hnull] by (destruct j; auto).
      * by destruct (getRecord_null m X w body Hb Hne Hj) as (e & -> & _).
      * rewrite (getRecord_parsed m X w body j) by done. intros [= <-].
        do 2 apply NoDup_revived. apply NoDup_value_of_json.
    + by rewrite (getRecord_corrupt m X w body).
  - rewrite getRecord_absent by done. intros [= <-]. apply NoDup_nil_2.
Qed.

Lemma JSON_stringify_object_total ps : ∃ json, JSON_stringify (VObj ps) = Some json.
Proof. unfold JSON_stringify. simpl. by eexists. Qed.

(** What [update] does when the record exists. *)
Lemma update_existing m X d w existing :
  X ≠ EmptyString →
  (BucketModel.getRecord m X w).1 = Returned existing →
  truthy existing = true →
  let updatedRecord :=
    VObj (set_prop "updatedAt" (Date_of_time (clock w))
           (set_prop "createdAt"
              (default VUndefined (lookup_prop "createdAt" (own_props existing)))
             (set_prop "id" (VStr X)
               (spread (spread [] (own_props existing)) (own_props d))))) in
  ∃ json,
    JSON_stringify updatedRecord = Some json ∧
    BucketModel.update m (VStr X) d w
    = (Returned updatedRecord,
       {| objects := <[BucketModel.generateKey m X := json]> (objects w);
          calls := Upload (BucketModel.generateKey m X) json ::
                   Download (BucketModel.generateKey m X) :: calls w;
          clock := clock w |}).
Proof.
  intros HX Hget Htr updatedRecord.
  destruct (JSON_stringify_object_total
    (set_prop "updatedAt" (Date_of_time (clock w))
      (set_prop "createdAt"
         (default VUndefined (lookup_prop "createdAt" (own_props existing)))
        (set_prop "id" (VStr X)
          (spread (spread [] (own_props existing)) (own_props d))))))
    as [json Hjson].
  exists json. split; [done|].
  unfold BucketModel.update.
  rewrite (proj2 (invalid_id_false (VStr X))) by eauto.
  simpl BucketModel.text_of. rewrite run_bind.
  pose proof (getRecord_world m X w) as Hw.
  destruct (BucketModel.getRecord m X w) as [o w0]. simpl in Hget, Hw. subst o w0.
  rewrite Htr. cbn [negb].
  rewrite run_bind.
  assert (Hcreated : get existing "createdAt"
    = inr (default VUndefined (lookup_prop "createdAt" (own_props existing)))).
  { by destruct existing. }
  rewrite Hcreated. simpl native. unfold ret at 1.
  rewrite run_bind. unfold new_Date at 1.
  change (clock (record_call ?c w)) with (clock w).
  rewrite Hjson. done.
Qed.

Lemma findOne_absent m X w :
  X ≠ EmptyString →
  objects w !! BucketModel.generateKey m X = None →
  BucketModel.findOne m (VStr X) w
  = (Returned VNull, record_call (Download (BucketModel.generateKey m X)) w).
Proof.
  intros HX Habs. unfold BucketModel.findOne.
  rewrite (proj2 (invalid_id_false (VStr X))) by eauto.
  by apply getRecord_absent.
Qed.

(** ** The registry *)

Lemma model_cached n orm :
  let '(a, orm1) := BucketORM.model n orm in
  BucketORM.model n orm1 = (a, orm1).
Proof.
  unfold BucketORM.model.
  destruct (BucketORM.models orm !! n) as [m|] eqn:Hm; simpl.
  - by rewrite Hm.
  - by rewrite lookup_insert_eq.
Qed.

Lemma schemaModel_cached n sd sd' orm :
  let '(a, orm1) := BucketORM.schemaModel n sd orm in
  BucketORM.schemaModel n sd' orm1 = (a, orm1).
Proof.
  unfold BucketORM.schemaModel.
  destruct (BucketORM.models orm !! (n +:+ "_schema")) as [m|] eqn:Hm; simpl.
  - by rewrite Hm.
  - by rewrite lookup_insert_eq.
Qed.

(** An entry of the registry and the instance it refers to survive every
    later request. *)
Lemma registry_call_preserves orm c k m i :
  BucketORM.models orm !! k = Some m →
  BucketORM.heap orm !! m = Some i →
  BucketORM.models (registry_call orm c) !! k = Some m ∧
  BucketORM.heap (registry_call orm c) !! m = Some i.
Proof.
  intros Hk Hm.
  destruct c as [n|n sd]; simpl;
    unfold BucketORM.model, BucketORM.schemaModel.
  - destruct (BucketORM.models orm !! n) as [m'|] eqn:Hn; simpl; [done|].
    split.
    + rewrite lookup_insert_ne; [done|]. intros ->. congruence.
    + by apply lookup_app_l_Some.
  - destruct (BucketORM.models orm !! (n +:+ "_schema")) as [m'|] eqn:Hn;
      simpl; [done|].
    split.
    + rewrite lookup_insert_ne; [done|]. intros <-. congruence.
    + by apply lookup_app_l_Some.
Qed.

Lemma registry_calls_preserve cs orm k m i :
  BucketORM.models orm !! k = Some m →
  BucketORM.heap orm !! m = Some i →
  BucketORM.models (registry_calls cs orm) !! k = Some m ∧
  BucketORM.heap (registry_calls cs orm) !! m = Some i.
Proof.
  revert orm. induction cs as [|c cs IH]; intros orm Hk Hm; [done|].
  simpl. destruct (registry_call_preserves orm c k m i Hk Hm). by apply IH.
Qed.

(** ** findMany *)





(** The records loaded by the loop of [findMany] are truthy. *)
Lemma load_records_truthy m prefix keys acc w records w' :
  Forall (λ r, truthy r = true) acc →
  BucketModel.load_records m prefix keys acc w = (Returned records, w') →
  Forall (λ r, truthy r = true) records.
Proof.
  revert acc w. induction keys as [|key keys IH]; intros acc w Hacc.
  - simpl. by intros [= <- <-].
  - cbn [BucketModel.load_records]. rewrite run_bind.
    destruct (BucketModel.getRecord m _ w) as [[r|e] w0]; [|done].
    apply IH. destruct (truthy r) eqn:Hr; [|done].
    apply Forall_app. split; [done|]. by constructor.
Qed.

(** [findMany] with options is [findMany] without options followed by the
    filter and the two slices. *)
Lemma findMany_post m opts w :
  BucketModel.findMany m (Some opts) w
  = match BucketModel.findMany m None w with
    | (Returned records, w') =>
        let filteredRecords :=
          match BucketModel.where_ opts with
          | Some wh => filter (λ r, BucketModel.matches_where wh r = true) records
          | None => records
          end in
        let finalRecords :=
          match BucketModel.offset opts with
          | Some o => Array_slice filteredRecords o None
          | None => filteredRecords
          end in
        (Returned match BucketModel.limit opts with
                  | Some l => Array_slice finalRecords (Finite zero) (Some l)
                  | None => finalRecords
                  end, w')
    | (Threw e, w') => (Threw e, w')
    end.
Proof.
  unfold BucketModel.findMany, try_catch. rewrite !run_bind.
  unfold storage_list. rewrite !run_bind.
  destruct (BucketModel.load_records _ _ _ _ _) as [[records|e] w1]; [done|].
  by destruct e.
Qed.

Lemma findMany_truthy m w records w' :
  BucketModel.findMany m None w = (Returned records, w') →
  Forall (λ r, truthy r = true) records.
Proof.
  unfold BucketModel.findMany, try_catch. rewrite !run_bind.
  unfold storage_list. rewrite !run_bind.
  destruct (BucketModel.load_records _ _ _ _ _) as [[rs|e] w1] eqn:Hload.
  - simpl. intros [= <- <-]. by eapply load_records_truthy.
  - by destruct e.
Qed.

(** *** The id read back from a listed key *)

Lemma replace_unfold s pattern replacement :
  replace s pattern replacement
  = if String.prefix pattern s then
      replacement +:+ drop_string (String.length pattern) s
    else
      match s with
      | EmptyString => EmptyString
      | String c s' => String c (replace s' pattern replacement)
      end.
Proof. by destruct s. Qed.

Lemma prefix_app p s : String.prefix p (p +:+ s) = true.
Proof.
  induction p as [|c p IH]; [by destruct s|].
  change (String.prefix (String c p) (String c (p +:+ s)) = true).
  simpl. by destruct (ascii_dec c c).
Qed.

Lemma drop_string_app p s : drop_string (String.length p) (p +:+ s) = s.
Proof.
  induction p as [|c p IH]; [by destruct s|].
  change (drop_string (S (String.length p)) (String c (p +:+ s)) = s). done.
Qed.

Lemma replace_prefix p s : replace (p +:+ s) p EmptyString = s.
Proof. by rewrite replace_unfold, prefix_app, drop_string_app. Qed.

Lemma string_app_assoc (a b c : string) : (a +:+ b) +:+ c = a +:+ (b +:+ c).
Proof.
  induction a as [|x a IH]; [done|].
  change (String x ((a +:+ b) +:+ c) = String x (a +:+ (b +:+ c))). by rewrite IH.
Qed.

Lemma append_cons c s t : String c s +:+ t = String c (s +:+ t).
Proof. reflexivity. Qed.

Lemma prefix_cons a b p s :
  String.prefix (String a p) (String b s)
  = if ascii_dec a b then String.prefix p s else false.
Proof. simpl. by destruct (ascii_dec a b). Qed.

(** [.json] has no proper prefix that is also a suffix, so it does not
    occur across the end of an id that it is appended to. *)
Lemma prefix_json_app id :
  id ≠ EmptyString →
  String.prefix ".json" (id +:+ ".json") = String.prefix ".json" id.
Proof.
  intros Hne.
  destruct id as [|c1 [|c2 [|c3 [|c4 [|c5 id]]]]]; [done|..];
    rewrite ?append_cons;
    repeat (rewrite ?prefix_cons;
            match goal with
            | |- context [ascii_dec ?a ?b] =>
                destruct (ascii_dec a b) as [E|E]; [try discriminate E; try subst|]
            end);
    try reflexivity; by destruct id.
Qed.

(** For an id in which [.json] does not occur, removing the first [.json]
    from the key without its prefix gives the id back. *)
Lemma replace_extension id :
  contains id ".json" = false →
  replace (id +:+ ".json") ".json" EmptyString = id.
Proof.
  induction id as [|c id IH]; [done|].
  cbn [contains]. intros [Hp Hc]%orb_false_elim.
  rewrite replace_unfold, prefix_json_app, Hp by done.
  change (String c (replace (id +:+ ".json") ".json" EmptyString) = String c id).
  f_equal. by apply IH.
Qed.

Lemma extracted_id m id :
  contains id ".json" = false →
  replace (replace (BucketModel.generateKey m id) (m +:+ "/") EmptyString)
          ".json" EmptyString = id.
Proof.
  intros H. unfold BucketModel.generateKey.
  rewrite <- (string_app_assoc m "/").
  rewrite replace_prefix. by apply replace_extension.
Qed.

(** *** Listing a namespace of plain ids *)

Lemma endsWith_app s suffix : endsWith (s +:+ suffix) suffix = true.
Proof.
  induction s as [|c s IH].
  - change (endsWith suffix suffix = true).
    destruct suffix; cbn [endsWith]; by rewrite bool_decide_eq_true_2.
  - change (endsWith (String c (s +:+ suffix)) suffix = true).
    cbn [endsWith]. rewrite IH. apply orb_true_r.
Qed.

Lemma endsWith_generateKey m id :
  endsWith (BucketModel.generateKey m id) ".json" = true.
Proof.
  unfold BucketModel.generateKey.
  rewrite <- (string_app_assoc "/" id), <- (string_app_assoc m).
  apply endsWith_app.
Qed.

Lemma str_app s t : str (s +:+ t) = str s ++ str t.
Proof.
  induction s as [|c s IH]; [done|].
  change (str (String c (s +:+ t)) = c :: str s ++ str t).
  cbn [str list_ascii_of_string]. f_equal. apply IH.
Qed.

Lemma str_inj s t : str s = str t → s = t.
Proof. intros H. by rewrite <- (unstr_str s), <- (unstr_str t), H. Qed.

(** Distinct ids have distinct keys. *)
Lemma generateKey_inj m id id' :
  BucketModel.generateKey m id = BucketModel.generateKey m id' → id = id'.
Proof.
  unfold BucketModel.generateKey. intros H.
  do 2 apply String.app_inj in H.
  apply (f_equal str) in H. rewrite !str_app in H.
  by apply app_inv_tail, str_inj in H.
Qed.

Lemma getRecord_stored_record m w0 w id r :
  objects w = objects w0 →
  stored_record m w0 id r →
  BucketModel.getRecord m id w
  = (Returned r, record_call (Download (BucketModel.generateKey m id)) w) ∧
  truthy r = true.
Proof.
  intros Hw (body & ms & Hb & Hne & Hp & ->).
  rewrite (getRecord_parsed m id w body (JObj ms)); [|by rewrite Hw|done..].
  split; [done|apply decoded_object_truthy].
Qed.

(** The loop of [findMany] on keys of plain ids: it appends the stored
    record of every key, in order, and only reads. *)
Lemma load_records_plain m w0 keys : ∀ acc w,
  objects w = objects w0 →
  Forall (λ key, ∃ id r, key = BucketModel.generateKey m id ∧
                         contains id ".json" = false ∧
                         stored_record m w0 id r) keys →
  ∃ rs w',
    BucketModel.load_records m (m +:+ "/") keys acc w = (Returned (acc ++ rs), w') ∧
    objects w' = objects w0 ∧
    Forall2 (λ key r, ∃ id, key = BucketModel.generateKey m id ∧
                            stored_record m w0 id r) keys rs.
Proof.
  induction keys as [|key keys IH]; intros acc w Hw Hkeys.
  - exists [], w. rewrite app_nil_r. split_and!; [done..|constructor].
  - apply Forall_cons in Hkeys as [(id & r & -> & Hplain & Hst) Hkeys].
    cbn [BucketModel.load_records]. rewrite extracted_id by done.
    rewrite run_bind.
    destruct (getRecord_stored_record m w0 w id r Hw Hst) as [-> ->].
    destruct (IH (acc ++ [r])
                (record_call (Download (BucketModel.generateKey m id)) w))
      as (rs & w' & Hrun & Hw' & Hrs); [done..|].
    exists (r :: rs), w'. rewrite Hrun, <- app_assoc.
    split_and!; [done..|]. constructor; [by exists id|done].
Qed.

Lemma stored_record_unique m w id r r' :
  stored_record m w id r → stored_record m w id r' → r = r'.
Proof.
  intros (b & ms & Hb & _ & Hp & ->) (b' & ms' & Hb' & _ & Hp' & ->).
  congruence.
Qed.

Lemma prefix_generateKey m id :
  String.prefix (m +:+ "/") (BucketModel.generateKey m id) = true.
Proof.
  unfold BucketModel.generateKey. rewrite <- (string_app_assoc m "/").
  apply prefix_app.
Qed.

(** When every object under the prefix of the model is the record of an id
    in which [.json] does not occur, [findMany] without options returns
    exactly the stored records of the model, and only reads. *)
Lemma findMany_plain_ids m w :
  (∀ key, is_Some (objects w !! key) → String.prefix (m +:+ "/") key = true →
     ∃ id r, key = BucketModel.generateKey m id ∧
             contains id ".json" = false ∧ stored_record m w id r) →
  ∃ rs w',
    BucketModel.findMany m None w = (Returned rs, w') ∧
    objects w' = objects w ∧
    ∀ r, r ∈ rs ↔ ∃ id, stored_record m w id r.
Proof.
  intros Hplain.
  unfold BucketModel.findMany, try_catch. rewrite run_bind.
  unfold storage_list.
  set (keys := filter (λ k, String.prefix (m +:+ "/") k = true)
                 (map_to_list (objects w)).*1).
  set (jsonKeys := filter (λ key, endsWith key ".json" = true) keys).
  assert (Hin : ∀ key, key ∈ jsonKeys ↔
            is_Some (objects w !! key) ∧ String.prefix (m +:+ "/") key = true ∧
            endsWith key ".json" = true).
  { intros key. unfold jsonKeys, keys. rewrite !list_elem_of_filter.
    rewrite list_elem_of_fmap. split.
    - intros (He & Hp & [k v] & -> & Hkv%elem_of_map_to_list).
      split_and!; [by exists v|done..].
    - intros ([v Hv] & Hp & He). split_and!; [done..|].
      exists (key, v). split; [done|]. by apply elem_of_map_to_list. }
  destruct (load_records_plain m w jsonKeys []
              (record_call (List (m +:+ "/")) w)) as (rs & w' & Hrun & Hw' & Hrs);
    [done| |].
  { apply Forall_forall. intros key (Hsome & Hp & _)%Hin. by apply Hplain. }
  rewrite run_bind, Hrun. simpl in *.
  exists rs, w'. split_and!; [done..|].
  intros r. split.
  - intros (i & Hi)%list_elem_of_lookup.
    destruct (Forall2_lookup_r _ _ _ _ _ Hrs Hi) as (key & _ & id & _ & Hst).
    by exists id.
  - intros (id & Hst).
    assert (Hkey : BucketModel.generateKey m id ∈ jsonKeys).
    { apply Hin. destruct Hst as (body & ms & Hb & _). split_and!.
      - by exists body.
      - apply prefix_generateKey.
      - apply endsWith_generateKey. }
    apply list_elem_of_lookup in Hkey as (i & Hi).
    destruct (Forall2_lookup_l _ _ _ _ _ Hrs Hi) as (r' & Hr' & id' & Heq & Hst').
    apply generateKey_inj in Heq as <-.
    rewrite (stored_record_unique m w id r r' Hst Hst').
    apply list_elem_of_lookup. by exists i.
Qed.

(** ** Encoding and decoding records *)

Lemma set_prop_notin k v ps : k ∉ ps.*1 → set_prop k v ps = ps ++ [(k, v)].
Proof.
  induction ps as [|[k' v'] ps IH]; simpl; [done|].
  intros [Hne Hin]%not_elem_of_cons.
  rewrite bool_decide_eq_false_2 by done. f_equal. by apply IH.
Qed.

Lemma spread_fresh acc l : NoDup (acc ++ l).*1 → spread acc l = acc ++ l.
Proof.
  unfold spread. revert acc. induction l as [|[k v] l IH]; intros acc Hnd.
  - by rewrite app_nil_r.
  - simpl. rewrite fmap_app in Hnd. simpl in Hnd.
    assert (Hk : k ∉ acc.*1).
    { apply NoDup_app in Hnd as (_ & Hd & _). intros Hin.
      apply (Hd k Hin). by left. }
    rewrite set_prop_notin by done.
    rewrite IH; [by rewrite <- app_assoc|].
    rewrite !fmap_app, <- app_assoc. done.
Qed.

Lemma foldl_value_of_json acc ms :
  foldl (λ acc m, set_prop m.1 (value_of_json m.2) acc) acc ms
  = spread acc (map (λ m : string * json, (m.1, value_of_json m.2)) ms).
Proof.
  unfold spread. revert acc. induction ms as [|m ms IH]; intros acc; [done|].
  simpl. apply IH.
Qed.

Lemma set_prop_as_map k v ps :
  NoDup ps.*1 → k ∈ ps.*1 →
  set_prop k v ps
  = map (λ kv, if bool_decide (kv.1 = k) then (k, v) else kv) ps.
Proof.
  induction ps as [|[k' v'] ps IH]; simpl; [by intros _ ?%elem_of_nil|].
  intros [Hk' Hnd]%NoDup_cons Hin.
  destruct (bool_decide (k' = k)) eqn:Hk.
  - apply bool_decide_eq_true in Hk as ->. f_equal.
    rewrite <- (map_id ps) at 1. apply map_ext_in.
    intros [k1 v1] Hin1%list_elem_of_In. simpl.
    rewrite bool_decide_eq_false_2; [done|]. intros ->.
    apply Hk'. apply list_elem_of_fmap. by exists (k, v1).
  - apply bool_decide_eq_false in Hk. f_equal. apply IH; [done|].
    apply elem_of_cons in Hin as [->|]; done.
Qed.

Lemma lookup_prop_map_values (F : value → value) k ps :
  lookup_prop k (map (λ kv, (kv.1, F kv.2)) ps) = F <$> lookup_prop k ps.
Proof.
  induction ps as [|[k' v'] ps IH]; simpl; [done|].
  by destruct (bool_decide (k' = k)).
Qed.

(** An object all of whose properties serialize: its JSON form, and the
    object that parsing gives back. *)
Lemma to_json_object ps :
  Forall (λ kv, is_Some (to_json kv.2)) ps → NoDup ps.*1 →
  to_json (VObj ps) = Some (JObj (map (λ kv, (kv.1, enc kv.2)) ps)) ∧
  value_of_json (JObj (map (λ kv, (kv.1, enc kv.2)) ps))
  = VObj (map (λ kv, (kv.1, reparsed kv.2)) ps).
Proof.
  intros Hsome Hnd. split.
  - cbn [to_json]. do 2 f_equal.
    induction Hsome as [|[k v] ps [j Hj] _ IH]; [done|].
    apply NoDup_cons in Hnd as [_ Hnd].
    simpl in Hj. simpl. unfold enc at 1. rewrite Hj. simpl.
    f_equal. by apply IH.
  - cbn [value_of_json]. f_equal. rewrite foldl_value_of_json.
    rewrite map_map. cbn [fst snd]. rewrite spread_fresh; [done|].
    simpl. by rewrite <- list_fmap_compose.
Qed.

(** Plain JSON data comes back from its JSON form as it was. *)
Lemma reparsed_plain v :
  wf_value v = true → json_plain v = true →
  is_Some (to_json v) ∧ reparsed v = v.
Proof.
  induction v as [| |b|x|s|t|xs IH|ps IH] using value_nested_ind;
    intros Hwf Hplain; try done.
  - destruct x; [|done..]. split; [by eexists|done].
  - split; [by eexists|].
    change (reparsed (VArr xs)) with (VArr (map value_of_json (map enc xs))).
    f_equal. rewrite map_map. rewrite <- (map_id xs) at 2.
    apply map_ext_in. intros x Hx%list_elem_of_In.
    rewrite Forall_forall in IH. cbn [wf_value json_plain] in *.
    rewrite forallb_forall in Hwf, Hplain.
    apply (IH x Hx); [apply Hwf|apply Hplain]; by apply list_elem_of_In.
  - apply wf_value_props in Hwf as [Hwf Hnd]. cbn [json_plain] in Hplain.
    rewrite forallb_forall in Hplain. rewrite Forall_forall in IH, Hwf.
    assert (Hall : ∀ kv, kv ∈ ps → is_Some (to_json kv.2) ∧ reparsed kv.2 = kv.2).
    { intros kv Hkv. apply (IH kv Hkv); [by apply Hwf|].
      apply Hplain. by apply list_elem_of_In. }
    destruct (to_json_object ps) as [Hto Hof]; [|done|].
    { apply Forall_forall. intros kv Hkv. by apply Hall. }
    split; [by eexists|]. unfold reparsed, enc. rewrite Hto.
    change (default JNull (Some ?j)) with j.
    rewrite Hof. f_equal. rewrite <- (map_id ps) at 2.
    apply map_ext_in. intros [k v] Hkv%list_elem_of_In. simpl.
    f_equal. by apply (Hall (k, v)).
Qed.

Lemma toISOString_nonempty t : unstr (toISOString t) ≠ EmptyString.
Proof.
  intros H. apply (f_equal str) in H. rewrite str_unstr in H.
  unfold toISOString in H.
  destruct (civil_from_days _) as [[y m] d].
  apply app_eq_nil in H as [_ H]. done.
Qed.

Lemma reparsed_date t :
  reparsed (VDate (Some t)) = VStr (unstr (toISOString t)).
Proof. done. Qed.

Lemma Date_of_string_toISOString t :
  valid_time t = true → Date_of_string (unstr (toISOString t)) = VDate (Some t).
Proof.
  intros Ht. unfold Date_of_string. rewrite str_unstr.
  by rewrite Date_parse_toISOString.
Qed.

Lemma fst_map_values (F : value → value) (ps : list (string * value)) :
  (map (λ kv, (kv.1, F kv.2)) ps).*1 = ps.*1.
Proof. induction ps as [|[k v] ps IH]; simpl; [done|]. by f_equal. Qed.

Lemma lookup_prop_elem k v ps : lookup_prop k ps = Some v → (k, v) ∈ ps.
Proof.
  induction ps as [|[k' v'] ps IH]; simpl; [done|].
  destruct (bool_decide (k' = k)) eqn:Hk.
  - apply bool_decide_eq_true in Hk as ->. intros [= ->]. by left.
  - intros H. right. by apply IH.
Qed.

(** The two date conversions undo what serialization did to the two
    timestamps of a record and touch nothing else. *)
Lemma decoded_record ps t1 t2 :
  NoDup ps.*1 →
  lookup_prop "createdAt" ps = Some (VDate (Some t1)) →
  lookup_prop "updatedAt" ps = Some (VDate (Some t2)) →
  valid_time t1 = true → valid_time t2 = true →
  (∀ k v, (k, v) ∈ ps → k ≠ "createdAt"%string → k ≠ "updatedAt"%string →
          reparsed v = v) →
  revived "updatedAt"
    (revived "createdAt" (VObj (map (λ kv, (kv.1, reparsed kv.2)) ps)))
  = VObj ps.
Proof.
  intros Hnd Hc Hu Ht1 Ht2 Hplain.
  set (ps1 := map (λ kv, (kv.1, reparsed kv.2)) ps).
  assert (Hk1 : ps1.*1 = ps.*1) by apply fst_map_values.
  assert (Hcin : "createdAt"%string ∈ ps.*1).
  { apply list_elem_of_fmap. exists ("createdAt"%string, VDate (Some t1)).
    split; [done|by apply lookup_prop_elem]. }
  assert (Huin : "updatedAt"%string ∈ ps.*1).
  { apply list_elem_of_fmap. exists ("updatedAt"%string, VDate (Some t2)).
    split; [done|by apply lookup_prop_elem]. }
  unfold revived at 2. cbn [own_props]. unfold ps1 at 1.
  rewrite lookup_prop_map_values, Hc. cbn [fmap option_fmap option_map].
  rewrite reparsed_date.
  rewrite bool_decide_eq_false_2 by apply toISOString_nonempty.
  rewrite Date_of_string_toISOString by done.
  unfold revived. cbn [own_props].
  rewrite lookup_set_prop_ne by done. unfold ps1 at 1.
  rewrite lookup_prop_map_values, Hu. cbn [fmap option_fmap option_map].
  rewrite reparsed_date.
  rewrite bool_decide_eq_false_2 by apply toISOString_nonempty.
  rewrite Date_of_string_toISOString by done.
  f_equal.
  rewrite (set_prop_as_map "updatedAt");
    [|rewrite set_prop_fst_in; rewrite Hk1; done..].
  rewrite (set_prop_as_map "createdAt"); [|by rewrite Hk1..].
  unfold ps1. rewrite !map_map. rewrite <- (map_id ps) at 2.
  apply map_ext_in. intros [k v] Hin%list_elem_of_In. cbn [fst snd].
  destruct (decide (k = "createdAt"%string)) as [->|Hkc].
  - apply (lookup_prop_Some _ _ _ Hnd) in Hin.
    assert (v = VDate (Some t1)) as -> by congruence.
    done.
  - rewrite (bool_decide_eq_false_2 (k = "createdAt"%string)) by done.
    cbn [fst snd].
    destruct (decide (k = "updatedAt"%string)) as [->|Hku].
    + apply (lookup_prop_Some _ _ _ Hnd) in Hin.
      assert (v = VDate (Some t2)) as -> by congruence.
      done.
    + rewrite (bool_decide_eq_false_2 (k = "updatedAt"%string)) by done.
      f_equal. by apply (Hplain k v).
Qed.

(** * The claims *)

(** C1. Create-uniqueness: after a create with id [X] has succeeded, a
    second create with the same id fails with RECORD_ALREADY_EXISTS whatever
    its payload [data2] is, and it performs no write: the bucket is left as
    it was and the only call made to the storage is the download of the
    existence check. *)
Theorem create_twice_fails m data1 data2 w r1 w1 :
  wf_value data1 = true →
  BucketModel.create m data1 w = (Returned r1, w1) →
  get data2 "id" = get data1 "id" →
  ∃ X, get data1 "id" = inr (VStr X) ∧
    BucketModel.create m data2 w1
    = (Threw (BucketORMException {|
         code := RECORD_ALREADY_EXISTS;
         message := "Record with ID '" +:+ X +:+ "' already exists";
         details := NoDetails |}),
       {| objects := objects w1;
          calls := Download (BucketModel.generateKey m X) :: calls w1;
          clock := clock w1 |}).
Proof.
  intros Hwf Hcreate Hid.
  apply create_returned in Hcreate
    as (X & existing & json & HX & Hne & _ & _ & -> & Hjson & ->).
  exists X. split; [done|].
  unfold BucketModel.create. rewrite Hid, HX. simpl native.
  rewrite run_bind. unfold ret at 1.
  rewrite (proj2 (invalid_id_false (VStr X))) by eauto.
  simpl BucketModel.text_of. rewrite run_bind.
  edestruct (getRecord_stored m X) as (ms & _ & ->);
    [by apply wf_value_created|exact Hjson|..].
  { simpl. apply lookup_insert_eq. }
  by rewrite decoded_object_truthy.
Qed.

(** C3. Not-found symmetry: for a non-empty string id [X] with no object
    at its key, findOne returns null (a result, not an error), while update
    and delete both fail with RECORD_NOT_FOUND.  Each of the three only
    downloads: in particular delete issues no delete call. *)
Theorem absent_id m X d w :
  X ≠ EmptyString →
  objects w !! BucketModel.generateKey m X = None →
  let w' := record_call (Download (BucketModel.generateKey m X)) w in
  BucketModel.findOne m (VStr X) w = (Returned VNull, w') ∧
  BucketModel.update m (VStr X) d w
    = (Threw (BucketORMException (not_found X)), w') ∧
  BucketModel.delete m (VStr X) w
    = (Threw (BucketORMException (not_found X)), w') ∧
  calls w' = Download (BucketModel.generateKey m X) :: calls w ∧
  objects w' = objects w.
Proof.
  intros HX Habs w'.
  assert (Hid : BucketModel.invalid_id (VStr X) = false).
  { apply invalid_id_false. eauto. }
  unfold BucketModel.findOne, BucketModel.update, BucketModel.delete.
  rewrite Hid. simpl BucketModel.text_of.
  rewrite !run_bind, getRecord_absent by done. done.
Qed.

(** C7. Schema gate: when the schema rejects the payload,
    createWithValidation fails with INVALID_DATA, the error carries every
    issue the validator reported (field path and message) and nothing at
    all is done to the storage, so that a findOne for an id that had no
    record still returns null afterwards; when the schema accepts the
    payload, the call is Model.create on the validated data.  (An error
    raised by a rule of the schema itself passes through unchanged.) *)
Theorem schema_gate m s data w :
  match parse s data with
  | Invalid errors =>
      BucketSchemaModel.createWithValidation m s data w
      = (Threw (BucketORMException {|
           code := INVALID_DATA;
           message := BucketSchemaModel.validation_message errors;
           details := Issues errors |}), w) ∧
      ∀ X, X ≠ EmptyString → objects w !! BucketModel.generateKey m X = None →
        (BucketModel.findOne m (VStr X)
           (BucketSchemaModel.createWithValidation m s data w).2).1
        = Returned VNull
  | Parsed validatedData =>
      BucketSchemaModel.createWithValidation m s data w
      = BucketModel.create m validatedData w
  | Raised e =>
      BucketSchemaModel.createWithValidation m s data w
      = (Threw (NativeError e), w)
  end.
Proof.
  unfold BucketSchemaModel.createWithValidation, try_catch.
  rewrite run_bind. unfold zod_parse.
  destruct (parse s data) as [v|errors|e]; [|split; [done|]|done].
  - unfold ret at 1.
    pose proof (create_not_zod m v w) as Hnz.
    destruct (BucketModel.create m v w) as [[r|[e|e|errors]] w']; try done.
    by destruct (Hnz errors w').
  - intros X HX Habs. simpl. by rewrite findOne_absent.
Qed.

(** C8, as the code has it.  There is no CorruptData kind: a stored body
    that is not empty and is not valid JSON makes findOne and the
    existence checks of create, update and delete fail with STORAGE_ERROR,
    the SyntaxError of JSON.parse being carried as the details; the failure
    reaches the caller as it is, and nothing is written or deleted.  (An
    empty body is read as an absent record.) *)
Theorem corrupt_body_fails m X data d w body :
  X ≠ EmptyString →
  objects w !! BucketModel.generateKey m X = Some body →
  body ≠ EmptyString →
  JSON_parse_text (str body) = None →
  get data "id" = inr (VStr X) →
  let failure :=
    (Threw (BucketORMException (parse_failure X)),
     record_call (Download (BucketModel.generateKey m X)) w) in
  code (parse_failure X) = STORAGE_ERROR ∧
  details (parse_failure X) = Cause (SyntaxError "Unexpected token in JSON") ∧
  BucketModel.findOne m (VStr X) w = failure ∧
  BucketModel.create m data w = failure ∧
  BucketModel.update m (VStr X) d w = failure ∧
  BucketModel.delete m (VStr X) w
  = (Threw (BucketORMException (parse_failure X)),
     record_call (Download (BucketModel.generateKey m X)) w).
Proof.
  intros HX Hb Hne Hp Hid failure.
  assert (Hinv : BucketModel.invalid_id (VStr X) = false).
  { apply invalid_id_false. eauto. }
  split_and!; [done|done|by apply (findOne_corrupt m X w body)|..].
  - unfold BucketModel.create. rewrite Hid. simpl native.
    rewrite run_bind. unfold ret at 1. rewrite Hinv. simpl BucketModel.text_of.
    rewrite run_bind. by rewrite (getRecord_corrupt m X w body).
  - unfold BucketModel.update. rewrite Hinv. simpl BucketModel.text_of.
    rewrite run_bind. by rewrite (getRecord_corrupt m X w body).
  - unfold BucketModel.delete. rewrite Hinv. simpl BucketModel.text_of.
    rewrite run_bind. by rewrite (getRecord_corrupt m X w body).
Qed.

(** C8 as stated fails: the body [{oops] is not valid JSON, and findOne on
    it fails with a kind that is STORAGE_ERROR, not one distinct from
    it. *)
Lemma corrupt_body_is_storage_error :
  ¬ (∀ m X w body,
       objects w !! BucketModel.generateKey m X = Some body →
       JSON_parse_text (str body) = None →
       ∃ e, (BucketModel.findOne m (VStr X) w).1 = Threw (BucketORMException e) ∧
            code e ≠ STORAGE_ERROR).
Proof.
  intros H.
  destruct (H "user" "u1" corrupt_world "{oops")%string as (e & He & Hcode);
    [done..|].
  vm_compute in He. by simplify_eq.
Qed.

(** C2. Update: for an existing record at id [X] and a partial payload [d],
    update returns the existing record with the fields of [d] merged on
    top, in which id is [X] again and createdAt is the createdAt of the
    existing record whatever [d] says, updatedAt is the time of the update,
    and every other field is the one of [d] when [d] has it and the one of
    the existing record otherwise; what is stored at the same key,
    replacing the body that was there, is the serialization of exactly that
    record. *)
Theorem update_merges m X d w existing :
  X ≠ EmptyString →
  NoDup (own_props d).*1 →
  (BucketModel.getRecord m X w).1 = Returned existing →
  truthy existing = true →
  ∃ ps json,
    BucketModel.update m (VStr X) d w
    = (Returned (VObj ps),
       {| objects := <[BucketModel.generateKey m X := json]> (objects w);
          calls := Upload (BucketModel.generateKey m X) json ::
                   Download (BucketModel.generateKey m X) :: calls w;
          clock := clock w |}) ∧
    JSON_stringify (VObj ps) = Some json ∧
    lookup_prop "id" ps = Some (VStr X) ∧
    lookup_prop "createdAt" ps
      = Some (default VUndefined (lookup_prop "createdAt" (own_props existing))) ∧
    lookup_prop "updatedAt" ps = Some (Date_of_time (clock w)) ∧
    ∀ k, k ≠ "id"%string → k ≠ "createdAt"%string → k ≠ "updatedAt"%string →
      lookup_prop k ps
      = match lookup_prop k (own_props d) with
        | Some v => Some v
        | None => lookup_prop k (own_props existing)
        end.
Proof.
  intros HX Hd Hget Htr.
  destruct (update_existing m X d w existing HX Hget Htr) as (json & Hjson & Hrun).
  eexists _, json. split_and!; [exact Hrun|exact Hjson|..].
  - rewrite lookup_set_prop_ne, lookup_set_prop_ne by done.
    apply lookup_set_prop_eq.
  - rewrite lookup_set_prop_ne by done. apply lookup_set_prop_eq.
  - apply lookup_set_prop_eq.
  - intros k H1 H2 H3.
    rewrite !lookup_set_prop_ne by done.
    rewrite !lookup_spread.
    rewrite (lookup_prop_rev k (own_props d)) by done.
    rewrite (lookup_prop_rev k (own_props existing))
      by (by eapply getRecord_NoDup).
    simpl. by destruct (lookup_prop k (own_props d)), (lookup_prop k (own_props existing)).
Qed.

(** C9, where the code departs from it.  The registry keeps the
    schema-aware instance of [n] in the one map of the plain models, under
    the key [n ++ "_schema"]: after schemaModel("user", s), model("user_schema")
    finds that entry and returns the schema-aware instance of "user"; and
    after model("user_schema"), schemaModel("user", s) returns the plain
    model, which has no schema. *)
Theorem model_name_collision sd :
  (let '(a, orm1) := BucketORM.schemaModel "user" sd BucketORM.new in
   let '(b, orm2) := BucketORM.model "user_schema" orm1 in
   b = a ∧
   BucketORM.deref orm2 b = Some (NewBucketSchemaModel "user" (schema sd))) ∧
  (let '(a, orm1) := BucketORM.model "user_schema" BucketORM.new in
   let '(b, orm2) := BucketORM.schemaModel "user" sd orm1 in
   b = a ∧
   BucketORM.deref orm2 b = Some (NewBucketModel "user_schema") ∧
   BucketORM.getSchema orm2 b = None).
Proof. vm_compute. repeat split. Qed.

(** C10, where the code departs from it.  The schema-aware instance of
    [n] is looked up in the one map of the registry under the key [n]
    followed by [_schema], where a plain model of that name lives too:
    after model("user_schema"), schemaModel("user", s1) constructs nothing
    and returns the plain model; schemaModel("user", s2) after it returns
    the plain model again.  The instance returned is not one constructed
    with s1, and it has no getSchema. *)
Theorem schemaModel_returns_plain_model sd1 sd2 :
  let '(p, orm0) := BucketORM.model "user_schema" BucketORM.new in
  let '(a, orm1) := BucketORM.schemaModel "user" sd1 orm0 in
  let '(b, orm2) := BucketORM.schemaModel "user" sd2 orm1 in
  a = p ∧ b = p ∧ orm1 = orm0 ∧ orm2 = orm0 ∧
  BucketORM.deref orm2 b = Some (NewBucketModel "user_schema") ∧
  BucketORM.deref orm2 b ≠ Some (NewBucketSchemaModel "user" (schema sd1)) ∧
  BucketORM.getSchema orm2 b = None.
Proof. vm_compute. repeat split. discriminate. Qed.



(** C6, where the code departs from it.  The id is extracted from a listed
    key by removing the first occurrence of [.json], not the extension: for
    the stored id [x.jsonb] the key is [notes/x.jsonb.json], the id read
    back is [xb.json], that read misses and the record is skipped.  findOne
    finds the record; findMany returns nothing. *)
Theorem findMany_misses_dotted_id :
  objects world_dotted = {["notes/x.jsonb.json"%string :=
     unstr (sq "{" ++ newline 2 ++ sq "'id': 'x.jsonb'," ++
            newline 2 ++ sq "'title': 'T'," ++
            newline 2 ++ sq "'createdAt': '1970-01-01T00:00:01.000Z'," ++
            newline 2 ++ sq "'updatedAt': '1970-01-01T00:00:01.000Z'" ++
            newline 0 ++ sq "}")]} ∧
  (BucketModel.findOne "notes" (VStr "x.jsonb") world_dotted).1
  = Returned (VObj [("id", VStr "x.jsonb"); ("title", VStr "T");
                    ("createdAt", VDate (Some 1000%Z));
                    ("updatedAt", VDate (Some 1000%Z))]%string) ∧
  (BucketModel.findMany "notes" None world_dotted).1 = Returned [] ∧
  replace (replace "notes/x.jsonb.json" "notes/" EmptyString) ".json" EmptyString
  = "xb.json"%string.
Proof. vm_compute. repeat split. Qed.

(** C4, as the code has it.  A valid record whose fields other than the
    two timestamps hold plain JSON data (null, booleans, finite numbers,
    strings, arrays and objects of such) is read back from the bytes that
    encode it exactly as it was: createdAt and updatedAt, written as
    ISO-8601 strings, come back as Date objects of the same instants, and
    every other field is unchanged. *)
Theorem record_roundtrip m X w r json :
  valid_record r = true →
  plain_fields r = true →
  JSON_stringify r = Some json →
  objects w !! BucketModel.generateKey m X = Some json →
  BucketModel.getRecord m X w
  = (Returned r, record_call (Download (BucketModel.generateKey m X)) w).
Proof.
  intros Hvalid Hplain Hjson Hobj.
  apply andb_prop in Hvalid as [Hwf Hfields].
  destruct r as [| | | | | | |ps]; try done.
  unfold plain_fields in Hplain. cbn [own_props] in Hfields, Hplain.
  destruct (lookup_prop "id" ps) as [[]|]; try done.
  destruct (lookup_prop "createdAt" ps) as [[| | | | |[t1|]| |]|] eqn:Hc; try done.
  destruct (lookup_prop "updatedAt" ps) as [[| | | | |[t2|]| |]|] eqn:Hu; try done.
  clear Hfields.
  pose proof Hwf as [Hall Hnd]%wf_value_props.
  rewrite Forall_forall in Hall. rewrite forallb_forall in Hplain.
  assert (Ht1 : valid_time t1 = true).
  { apply (Hall ("createdAt"%string, VDate (Some t1))). by apply lookup_prop_elem. }
  assert (Ht2 : valid_time t2 = true).
  { apply (Hall ("updatedAt"%string, VDate (Some t2))). by apply lookup_prop_elem. }
  assert (Hre : ∀ k v, (k, v) ∈ ps →
            is_Some (to_json v) ∧
            (k ≠ "createdAt"%string → k ≠ "updatedAt"%string → reparsed v = v)).
  { intros k v Hin.
    destruct (decide (k = "createdAt"%string)) as [->|Hkc].
    { apply (lookup_prop_Some _ _ _ Hnd) in Hin.
      assert (v = VDate (Some t1)) as -> by congruence. split; [by eexists|done]. }
    destruct (decide (k = "updatedAt"%string)) as [->|Hku].
    { apply (lookup_prop_Some _ _ _ Hnd) in Hin.
      assert (v = VDate (Some t2)) as -> by congruence. split; [by eexists|done]. }
    pose proof (Hplain (k, v) (proj1 (list_elem_of_In _ _) Hin)) as Hp.
    cbn [fst snd] in Hp.
    rewrite !bool_decide_eq_false_2 in Hp by done.
    destruct (reparsed_plain v (Hall (k, v) Hin) Hp). by split. }
  destruct (to_json_object ps) as [Hto Hof]; [|done|].
  { apply Forall_forall. intros [k v] Hin. by apply (Hre k v). }
  destruct (JSON_stringify_object ps json Hjson) as (ms & Hms & ->).
  rewrite Hto in Hms. injection Hms as <-.
  rewrite (getRecord_parsed m X w
             (unstr (print_json 0 (JObj (map (λ kv, (kv.1, enc kv.2)) ps))))
             (JObj (map (λ kv, (kv.1, enc kv.2)) ps)));
    [|done|apply print_json_object_nonempty| |done].
  - unfold decoded. rewrite Hof.
    rewrite (decoded_record ps t1 t2); [done..|].
    intros k v Hin. by apply (Hre k v).
  - rewrite str_unstr. apply JSON_parse_text_print. by eapply to_json_wf.
Qed.

(** C4 as stated fails for arbitrary caller fields: a Date among them is
    written as an ISO-8601 string like the timestamps, but only createdAt
    and updatedAt are converted back, so [lastLogin] is read back as a
    string. *)
Lemma date_field_not_restored :
  ¬ (∀ r m X w json,
       valid_record r = true →
       JSON_stringify r = Some json →
       objects w !! BucketModel.generateKey m X = Some json →
       (BucketModel.getRecord m X w).1 = Returned r).
Proof.
  intros H.
  specialize (H user_with_login "user" "user1" world_with_login _
                eq_refl eq_refl eq_refl)%string.
  vm_compute in H. discriminate H.
Qed.

(** * The theorems at concrete inputs *)

Lemma create_twice_fails_witness :
  ∃ X, get user_u1 "id" = inr (VStr X) ∧
    BucketModel.create "user" (VObj [("id", VStr "u1"); ("name", VStr "B")]%string)
      world_u1
    = (Threw (BucketORMException {|
         code := RECORD_ALREADY_EXISTS;
         message := "Record with ID '" +:+ X +:+ "' already exists";
         details := NoDetails |}),
       {| objects := objects world_u1;
          calls := Download (BucketModel.generateKey "user" X) :: calls world_u1;
          clock := clock world_u1 |}).
Proof.
  apply (create_twice_fails "user" user_u1
           (VObj [("id", VStr "u1"); ("name", VStr "B")]%string)
           (empty_world 1000) (user_u1_created 1000 true) world_u1);
    vm_compute; reflexivity.
Defined.

Lemma update_merges_witness :
  ∃ ps json,
    BucketModel.update "user" (VStr "u1")
      (VObj [("active", VBool false); ("id", VStr "other")]%string)
      (at_time 2000 world_u1)
    = (Returned (VObj ps),
       {| objects := <[BucketModel.generateKey "user" "u1" := json]>
                       (objects (at_time 2000 world_u1));
          calls := Upload (BucketModel.generateKey "user" "u1") json ::
                   Download (BucketModel.generateKey "user" "u1") ::
                   calls (at_time 2000 world_u1);
          clock := clock (at_time 2000 world_u1) |}) ∧
    JSON_stringify (VObj ps) = Some json ∧
    lookup_prop "id" ps = Some (VStr "u1") ∧
    lookup_prop "createdAt" ps
      = Some (default VUndefined
                (lookup_prop "createdAt" (own_props (user_u1_created 1000 true)))) ∧
    lookup_prop "updatedAt" ps = Some (Date_of_time (clock (at_time 2000 world_u1))) ∧
    ∀ k, k ≠ "id"%string → k ≠ "createdAt"%string → k ≠ "updatedAt"%string →
      lookup_prop k ps
      = match lookup_prop k
                (own_props (VObj [("active", VBool false); ("id", VStr "other")]%string)) with
        | Some v => Some v
        | None => lookup_prop k (own_props (user_u1_created 1000 true))
        end.
Proof.
  apply (update_merges "user" "u1"
           (VObj [("active", VBool false); ("id", VStr "other")]%string)
           (at_time 2000 world_u1) (user_u1_created 1000 true)).
  - done.
  - apply (bool_decide_unpack _). vm_compute. reflexivity.
  - vm_compute. reflexivity.
  - reflexivity.
Defined.

Lemma absent_id_witness :
  let w' := record_call (Download (BucketModel.generateKey "user" "u9")) world_u1 in
  BucketModel.findOne "user" (VStr "u9") world_u1 = (Returned VNull, w') ∧
  BucketModel.update "user" (VStr "u9") (VObj []) world_u1
    = (Threw (BucketORMException (not_found "u9")), w') ∧
  BucketModel.delete "user" (VStr "u9") world_u1
    = (Threw (BucketORMException (not_found "u9")), w') ∧
  calls w' = Download (BucketModel.generateKey "user" "u9") :: calls world_u1 ∧
  objects w' = objects world_u1.
Proof.
  apply (absent_id "user" "u9" (VObj []) world_u1).
  - done.
  - vm_compute. reflexivity.
Defined.

Lemma record_roundtrip_witness :
  BucketModel.getRecord "user" "u1" world_u1
  = (Returned (user_u1_created 1000 true),
     record_call (Download (BucketModel.generateKey "user" "u1")) world_u1).
Proof.
  apply (record_roundtrip "user" "u1" world_u1 (user_u1_created 1000 true)
           (default EmptyString (JSON_stringify (user_u1_created 1000 true))));
    vm_compute; reflexivity.
Defined.


Lemma schema_gate_witness :
  BucketSchemaModel.createWithValidation "user" adult_schema minor world_u1
  = (Threw (BucketORMException {|
       code := INVALID_DATA;
       message := "Schema validation failed: age: Number must be greater than or equal to 18";
       details := Issues [{| path := ["age"%string];
                             issue_message := "Number must be greater than or equal to 18" |}]
     |}), world_u1) ∧
  (BucketModel.findOne "user" (VStr "u2")
     (BucketSchemaModel.createWithValidation "user" adult_schema minor world_u1).2).1
  = Returned VNull.
Proof.
  destruct (schema_gate "user" adult_schema minor world_u1) as [Hfail Hfind].
  split; [exact Hfail|].
  apply Hfind; [done|]. vm_compute. reflexivity.
Defined.

Lemma corrupt_body_fails_witness :
  let failure :=
    (Threw (BucketORMException (parse_failure "u1")),
     record_call (Download (BucketModel.generateKey "user" "u1")) corrupt_world) in
  code (parse_failure "u1") = STORAGE_ERROR ∧
  details (parse_failure "u1") = Cause (SyntaxError "Unexpected token in JSON") ∧
  BucketModel.findOne "user" (VStr "u1") corrupt_world = failure ∧
  BucketModel.create "user" user_u1 corrupt_world = failure ∧
  BucketModel.update "user" (VStr "u1") (VObj []) corrupt_world = failure ∧
  BucketModel.delete "user" (VStr "u1") corrupt_world
  = (Threw (BucketORMException (parse_failure "u1")),
     record_call (Download (BucketModel.generateKey "user" "u1")) corrupt_world).
Proof.
  apply (corrupt_body_fails "user" "u1" user_u1 (VObj []) corrupt_world "{oops");
    try done; vm_compute; reflexivity.
Defined.

(** * Further properties of the record-mapping layer *)

(** ** What a read depends on *)

Lemma stateless_ret {A} (a : A) : stateless (ret a).
Proof. by exists (Returned a). Qed.

Lemma stateless_throw {A} e : stateless (@throw A e).
Proof. by exists (Threw e). Qed.

Lemma stateless_native {A} (r : JsError + A) : stateless (native r).
Proof. destruct r; [apply stateless_throw|apply stateless_ret]. Qed.

Lemma stateless_bind {A B} (m : M A) (k : A → M B) :
  stateless m → (∀ a, stateless (k a)) → stateless (m ≫= k).
Proof.
  intros [o Hm] Hk. destruct o as [a|e].
  - destruct (Hk a) as [o Ha]. exists o. intros w.
    rewrite run_bind, Hm. apply Ha.
  - exists (Threw e). intros w. by rewrite run_bind, Hm.
Qed.

Lemma stateless_try_catch {A} (m : M A) (h : Thrown → M A) :
  stateless m → (∀ e, stateless (h e)) → stateless (try_catch m h).
Proof.
  intros [o Hm] Hh. destruct o as [a|e].
  - exists (Returned a). intros w. unfold try_catch. by rewrite Hm.
  - destruct (Hh e) as [o He]. exists o. intros w.
    unfold try_catch. rewrite Hm. apply He.
Qed.

Lemma stateless_revive_date field record :
  stateless (BucketModel.revive_date field record).
Proof.
  apply stateless_bind; [apply stateless_native|].
  intros v. destruct (truthy v && is_string v); apply stateless_ret.
Qed.

(** [getRecord] downloads the body at the key of the id, and its result is
    determined by that body alone. *)
Lemma getRecord_reads m id :
  ∃ f : option string → Outcome value, ∀ w,
    BucketModel.getRecord m id w
    = (f (objects w !! BucketModel.generateKey m id),
       record_call (Download (BucketModel.generateKey m id)) w).
Proof.
  set (k := λ jsonData : option string,
    match jsonData with
    | None | Some EmptyString => ret VNull
    | Some jsonData =>
        record ← native (JSON_parse jsonData);
        record ← BucketModel.revive_date "createdAt" record;
        record ← BucketModel.revive_date "updatedAt" record;
        ret record
    end).
  assert (Hk : ∀ body, stateless (k body)).
  { intros [[|c body]|]; try apply stateless_ret.
    apply stateless_bind; [apply stateless_native|]. intros r0.
    apply stateless_bind; [apply stateless_revive_date|]. intros r1.
    apply stateless_bind; [apply stateless_revive_date|]. intros r2.
    apply stateless_ret. }
  set (h := λ error : Thrown,
    match error with
    | BucketORMException _ => throw error
    | NativeError e =>
        throw (BucketORMException {|
          code := STORAGE_ERROR;
          message := "Failed to retrieve record with ID '" +:+ id +:+ "': "
                     +:+ js_message e;
          details := Cause e |})
    | ZodError errors =>
        throw (BucketORMException {|
          code := STORAGE_ERROR;
          message := "Failed to retrieve record with ID '" +:+ id +:+ "': "
                     +:+ "Schema validation failed";
          details := Issues errors |})
    end : M value).
  assert (Hh : ∀ e, stateless (h e)).
  { intros [e|e|errors]; apply stateless_throw. }
  exists (λ body, (try_catch (k body) h (empty_world 0)).1).
  intros w.
  change (BucketModel.getRecord m id)
    with (try_catch (storage_download (BucketModel.generateKey m id) ≫= k) h).
  destruct (stateless_try_catch (k (objects w !! BucketModel.generateKey m id)) h
              (Hk _) Hh) as [o Ho].
  rewrite (Ho (empty_world 0)). cbn [fst].
  rewrite <- (Ho (record_call (Download (BucketModel.generateKey m id)) w)).
  unfold try_catch. rewrite run_bind. done.
Qed.

Lemma getRecord_body_only m id w w0 :
  objects w !! BucketModel.generateKey m id
  = objects w0 !! BucketModel.generateKey m id →
  (BucketModel.getRecord m id w).1 = (BucketModel.getRecord m id w0).1.
Proof.
  intros Heq. destruct (getRecord_reads m id) as [f Hf].
  by rewrite !Hf, Heq.
Qed.

(** ** Validation of the id *)

Lemma invalid_id_true id :
  (∀ X, id = VStr X → X = EmptyString) → BucketModel.invalid_id id = true.
Proof.
  intros H. destruct (BucketModel.invalid_id id) eqn:Hinv; [done|].
  apply invalid_id_false in Hinv as (X & -> & HX). by destruct HX, (H X).
Qed.

(** ** Reads and failed writes *)

Lemma load_records_objects m prefix keys : ∀ acc w,
  objects (BucketModel.load_records m prefix keys acc w).2 = objects w.
Proof.
  induction keys as [|key keys IH]; intros acc w; [done|].
  cbn [BucketModel.load_records]. rewrite run_bind.
  pose proof (getRecord_world m
    (replace (replace key prefix EmptyString) ".json" EmptyString) w) as Hw.
  destruct (BucketModel.getRecord m _ w) as [[record|e] w1]; simpl in Hw; subst w1.
  - by rewrite IH.
  - done.
Qed.

Lemma findMany_objects m opts w :
  objects (BucketModel.findMany m opts w).2 = objects w.
Proof.
  unfold BucketModel.findMany, try_catch. rewrite run_bind.
  unfold storage_list at 1. rewrite run_bind.
  pose proof (load_records_objects m (m +:+ "/")
    (filter (λ key, endsWith key ".json" = true)
       (filter (λ k, String.prefix (m +:+ "/") k = true)
          (map_to_list (objects w)).*1)) []
    (record_call (List (m +:+ "/")) w)) as Hw.
  destruct (BucketModel.load_records m _ _ _ _) as [[records|e] w1]; simpl in Hw.
  - done.
  - by destruct e.
Qed.

Lemma create_threw m data w e w' :
  BucketModel.create m data w = (Threw e, w') → objects w' = objects w.
Proof.
  unfold BucketModel.create. rewrite run_bind.
  destruct (get data "id") as [e0|id]; simpl native.
  { unfold throw. by intros [= _ <-]. }
  unfold ret at 1.
  destruct (BucketModel.invalid_id id). { unfold throw. by intros [= _ <-]. }
  rewrite run_bind.
  pose proof (getRecord_world m (BucketModel.text_of id) w) as Hw.
  destruct (BucketModel.getRecord m _ w) as [[existing|e0] w1]; simpl in Hw; subst w1.
  2: { by intros [= _ <-]. }
  destruct (truthy existing). { unfold throw. by intros [= _ <-]. }
  rewrite run_bind. unfold new_Date at 1.
  destruct (JSON_stringify _) as [json|].
  - intros H. unfold mbind, M_bind, bind, storage_upload, ret in H. done.
  - unfold throw. by intros [= _ <-].
Qed.

Lemma update_threw m id d w e w' :
  BucketModel.update m id d w = (Threw e, w') → objects w' = objects w.
Proof.
  unfold BucketModel.update.
  destruct (BucketModel.invalid_id id). { unfold throw. by intros [= _ <-]. }
  rewrite run_bind.
  pose proof (getRecord_world m (BucketModel.text_of id) w) as Hw.
  destruct (BucketModel.getRecord m _ w) as [[existing|e0] w1]; simpl in Hw; subst w1.
  2: { by intros [= _ <-]. }
  destruct (negb (truthy existing)). { unfold throw. by intros [= _ <-]. }
  rewrite run_bind.
  destruct (get existing "createdAt") as [e0|createdAt]; simpl native.
  { unfold throw. by intros [= _ <-]. }
  unfold ret at 1. rewrite run_bind. unfold new_Date at 1.
  destruct (JSON_stringify _) as [json|].
  - intros H. unfold mbind, M_bind, bind, storage_upload, ret in H. done.
  - unfold throw. by intros [= _ <-].
Qed.

Lemma delete_threw m id w e w' :
  BucketModel.delete m id w = (Threw e, w') → objects w' = objects w.
Proof.
  unfold BucketModel.delete.
  destruct (BucketModel.invalid_id id). { unfold throw. by intros [= _ <-]. }
  rewrite run_bind.
  pose proof (getRecord_world m (BucketModel.text_of id) w) as Hw.
  destruct (BucketModel.getRecord m _ w) as [[existing|e0] w1]; simpl in Hw; subst w1.
  2: { by intros [= _ <-]. }
  destruct (negb (truthy existing)). { unfold throw. by intros [= _ <-]. }
  done.
Qed.

Lemma create_threw_early m data w e w' :
  BucketModel.create m data w = (Threw e, w') → threw_before_write m w w'.
Proof.
  intros Hrun. split; [by apply (create_threw m data w e)|]. revert Hrun.
  unfold BucketModel.create. rewrite run_bind.
  destruct (get data "id") as [e0|id]; simpl native.
  { unfold throw. intros [= _ <-]. by left. }
  unfold ret at 1.
  destruct (BucketModel.invalid_id id). { unfold throw. intros [= _ <-]. by left. }
  rewrite run_bind.
  pose proof (getRecord_world m (BucketModel.text_of id) w) as Hw.
  destruct (BucketModel.getRecord m _ w) as [[existing|e0] w1]; simpl in Hw; subst w1.
  2: { intros [= _ <-]. right. by eexists. }
  destruct (truthy existing). { unfold throw. intros [= _ <-]. right. by eexists. }
  rewrite run_bind. unfold new_Date at 1.
  destruct (JSON_stringify _) as [json|].
  - intros H. unfold mbind, M_bind, bind, storage_upload, ret in H. done.
  - unfold throw. intros [= _ <-]. right. by eexists.
Qed.

Lemma update_threw_early m id d w e w' :
  BucketModel.update m id d w = (Threw e, w') → threw_before_write m w w'.
Proof.
  intros Hrun. split; [by apply (update_threw m id d w e)|]. revert Hrun.
  unfold BucketModel.update.
  destruct (BucketModel.invalid_id id). { unfold throw. intros [= _ <-]. by left. }
  rewrite run_bind.
  pose proof (getRecord_world m (BucketModel.text_of id) w) as Hw.
  destruct (BucketModel.getRecord m _ w) as [[existing|e0] w1]; simpl in Hw; subst w1.
  2: { intros [= _ <-]. right. by eexists. }
  destruct (negb (truthy existing)). { unfold throw. intros [= _ <-]. right. by eexists. }
  rewrite run_bind.
  destruct (get existing "createdAt") as [e0|createdAt]; simpl native.
  { unfold throw. intros [= _ <-]. right. by eexists. }
  unfold ret at 1. rewrite run_bind. unfold new_Date at 1.
  destruct (JSON_stringify _) as [json|].
  - intros H. unfold mbind, M_bind, bind, storage_upload, ret in H. done.
  - unfold throw. intros [= _ <-]. right. by eexists.
Qed.

Lemma delete_threw_early m id w e w' :
  BucketModel.delete m id w = (Threw e, w') → threw_before_write m w w'.
Proof.
  intros Hrun. split; [by apply (delete_threw m id w e)|]. revert Hrun.
  unfold BucketModel.delete.
  destruct (BucketModel.invalid_id id). { unfold throw. intros [= _ <-]. by left. }
  rewrite run_bind.
  pose proof (getRecord_world m (BucketModel.text_of id) w) as Hw.
  destruct (BucketModel.getRecord m _ w) as [[existing|e0] w1]; simpl in Hw; subst w1.
  2: { intros [= _ <-]. right. by eexists. }
  destruct (negb (truthy existing)). { unfold throw. intros [= _ <-]. right. by eexists. }
  done.
Qed.

Lemma findOne_objects m id w :
  objects (BucketModel.findOne m id w).2 = objects w.
Proof.
  unfold BucketModel.findOne. destruct (BucketModel.invalid_id id); [done|].
  by rewrite getRecord_world.
Qed.

(** ** create on a free key, delete of a stored record *)

Lemma getRecord_free m X w :
  objects w !! BucketModel.generateKey m X = None ∨
  objects w !! BucketModel.generateKey m X = Some EmptyString →
  BucketModel.getRecord m X w
  = (Returned VNull, record_call (Download (BucketModel.generateKey m X)) w).
Proof. intros [H|H]; [by apply getRecord_absent|by apply getRecord_empty]. Qed.

Lemma create_free m data X w :
  get data "id" = inr (VStr X) →
  X ≠ EmptyString →
  objects w !! BucketModel.generateKey m X = None ∨
  objects w !! BucketModel.generateKey m X = Some EmptyString →
  let record :=
    VObj (set_prop "updatedAt" (Date_of_time (clock w))
           (set_prop "createdAt" (Date_of_time (clock w))
             (spread [] (own_props data)))) in
  ∃ json,
    JSON_stringify record = Some json ∧
    BucketModel.create m data w
    = (Returned record,
       {| objects := <[BucketModel.generateKey m X := json]> (objects w);
          calls := Upload (BucketModel.generateKey m X) json ::
                   Download (BucketModel.generateKey m X) :: calls w;
          clock := clock w |}).
Proof.
  intros Hid HX Hfree record.
  destruct (JSON_stringify_object_total
    (set_prop "updatedAt" (Date_of_time (clock w))
      (set_prop "createdAt" (Date_of_time (clock w))
        (spread [] (own_props data))))) as [json Hjson].
  exists json. split; [done|].
  unfold BucketModel.create. rewrite run_bind, Hid. simpl native. unfold ret at 1.
  rewrite (proj2 (invalid_id_false (VStr X))) by eauto.
  simpl BucketModel.text_of. rewrite run_bind.
  rewrite getRecord_free by done. cbn [truthy].
  rewrite run_bind. unfold new_Date at 1.
  change (clock (record_call ?c w)) with (clock w).
  rewrite Hjson. done.
Qed.

Lemma delete_stored m X w existing :
  X ≠ EmptyString →
  (BucketModel.getRecord m X w).1 = Returned existing →
  truthy existing = true →
  BucketModel.delete m (VStr X) w
  = (Returned (),
     {| objects := base.delete (BucketModel.generateKey m X) (objects w);
        calls := Delete (BucketModel.generateKey m X) ::
                 Download (BucketModel.generateKey m X) :: calls w;
        clock := clock w |}).
Proof.
  intros HX Hget Htr.
  unfold BucketModel.delete.
  rewrite (proj2 (invalid_id_false (VStr X))) by eauto.
  simpl BucketModel.text_of. rewrite run_bind.
  pose proof (getRecord_world m X w) as Hw.
  destruct (BucketModel.getRecord m X w) as [o w0]. simpl in Hget, Hw. subst o w0.
  rewrite Htr. done.
Qed.

(** ** Reading back what was written *)

(** A valid record with plain fields is read back as it was from the
    object that holds its serialization. *)
Lemma getRecord_valid_record m X w r json :
  valid_record r = true →
  plain_fields r = true →
  JSON_stringify r = Some json →
  objects w !! BucketModel.generateKey m X = Some json →
  BucketModel.getRecord m X w
  = (Returned r, record_call (Download (BucketModel.generateKey m X)) w).
Proof.
  intros Hvalid Hplain Hjson Hobj.
  apply andb_prop in Hvalid as [Hwf Hfields].
  destruct r as [| | | | | | |ps]; try done.
  unfold plain_fields in Hplain. cbn [own_props] in Hfields, Hplain.
  destruct (lookup_prop "id" ps) as [[]|]; try done.
  destruct (lookup_prop "createdAt" ps) as [[| | | | |[t1|]| |]|] eqn:Hc; try done.
  destruct (lookup_prop "updatedAt" ps) as [[| | | | |[t2|]| |]|] eqn:Hu; try done.
  clear Hfields.
  pose proof Hwf as [Hall Hnd]%wf_value_props.
  rewrite Forall_forall in Hall. rewrite forallb_forall in Hplain.
  assert (Ht1 : valid_time t1 = true).
  { apply (Hall ("createdAt"%string, VDate (Some t1))). by apply lookup_prop_elem. }
  assert (Ht2 : valid_time t2 = true).
  { apply (Hall ("updatedAt"%string, VDate (Some t2))). by apply lookup_prop_elem. }
  assert (Hre : ∀ k v, (k, v) ∈ ps →
            is_Some (to_json v) ∧
            (k ≠ "createdAt"%string → k ≠ "updatedAt"%string → reparsed v = v)).
  { intros k v Hin.
    destruct (decide (k = "createdAt"%string)) as [->|Hkc].
    { apply (lookup_prop_Some _ _ _ Hnd) in Hin.
      assert (v = VDate (Some t1)) as -> by congruence. split; [by eexists|done]. }
    destruct (decide (k = "updatedAt"%string)) as [->|Hku].
    { apply (lookup_prop_Some _ _ _ Hnd) in Hin.
      assert (v = VDate (Some t2)) as -> by congruence. split; [by eexists|done]. }
    pose proof (Hplain (k, v) (proj1 (list_elem_of_In _ _) Hin)) as Hp.
    cbn [fst snd] in Hp.
    rewrite !bool_decide_eq_false_2 in Hp by done.
    destruct (reparsed_plain v (Hall (k, v) Hin) Hp). by split. }
  destruct (to_json_object ps) as [Hto Hof]; [|done|].
  { apply Forall_forall. intros [k v] Hin. by apply (Hre k v). }
  destruct (JSON_stringify_object ps json Hjson) as (ms & Hms & ->).
  rewrite Hto in Hms. injection Hms as <-.
  rewrite (getRecord_parsed m X w
             (unstr (print_json 0 (JObj (map (λ kv, (kv.1, enc kv.2)) ps))))
             (JObj (map (λ kv, (kv.1, enc kv.2)) ps)));
    [|done|apply print_json_object_nonempty| |done].
  - unfold decoded. rewrite Hof.
    rewrite (decoded_record ps t1 t2); [done..|].
    intros k v Hin. by apply (Hre k v).
  - rewrite str_unstr. apply JSON_parse_text_print. by eapply to_json_wf.
Qed.

Lemma wf_value_own_props v :
  wf_value v = true →
  Forall (λ kv, wf_value kv.2 = true) (own_props v) ∧ NoDup (own_props v).*1.
Proof.
  destruct v; try (intros _; split; [constructor|apply NoDup_nil_2]).
  apply wf_value_props.
Qed.

Lemma get_Some v k x :
  get v k = inr x → x ≠ VUndefined → lookup_prop k (own_props v) = Some x.
Proof.
  destruct v as [| | | | | | |ps]; simpl; try done; intros [= <-] Hx; try done.
  by destruct (lookup_prop k ps).
Qed.

(** The fields other than the timestamps, by lookup. *)
Lemma plain_fields_lookup ps :
  NoDup ps.*1 →
  plain_fields (VObj ps) = true ↔
  ∀ k v, lookup_prop k ps = Some v →
    k ≠ "createdAt"%string → k ≠ "updatedAt"%string → json_plain v = true.
Proof.
  intros Hnd. unfold plain_fields. cbn [own_props].
  rewrite forallb_forall. split.
  - intros H k v Hk H1 H2.
    apply (lookup_prop_Some _ _ _ Hnd), list_elem_of_In in Hk.
    specialize (H _ Hk). cbn [fst snd] in H.
    by rewrite !bool_decide_eq_false_2 in H by done.
  - intros H [k v] Hin. cbn [fst snd].
    destruct (decide (k = "createdAt"%string)) as [->|H1]; [done|].
    destruct (decide (k = "updatedAt"%string)) as [->|H2].
    { rewrite (bool_decide_eq_true_2 ("updatedAt"%string = "updatedAt"%string)) by done.
      by rewrite orb_true_r. }
    rewrite !bool_decide_eq_false_2 by done. simpl.
    apply (H k); [|done..].
    apply (lookup_prop_Some _ _ _ Hnd). by apply list_elem_of_In.
Qed.

Lemma plain_fields_own_props v k x :
  wf_value v = true → plain_fields v = true →
  lookup_prop k (own_props v) = Some x →
  k ≠ "createdAt"%string → k ≠ "updatedAt"%string → json_plain x = true.
Proof.
  intros Hwf Hplain. destruct v; try done.
  apply wf_value_props in Hwf as [_ Hnd].
  by apply plain_fields_lookup.
Qed.

Lemma Date_of_time_valid t : valid_time t = true → Date_of_time t = VDate (Some t).
Proof. intros H. unfold Date_of_time, time_clip. by rewrite H. Qed.

(** The record that create builds is a valid record with plain fields
    when the payload is. *)
Lemma created_record_valid data X t :
  wf_value data = true →
  plain_fields data = true →
  valid_time t = true →
  get data "id" = inr (VStr X) →
  X ≠ EmptyString →
  let r := VObj (set_prop "updatedAt" (Date_of_time t)
                  (set_prop "createdAt" (Date_of_time t)
                    (spread [] (own_props data)))) in
  valid_record r = true ∧ plain_fields r = true.
Proof.
  intros Hwf Hplain Ht Hid HX r.
  pose proof (wf_value_own_props data Hwf) as [_ Hnd].
  assert (Hwfr : wf_value r = true) by by apply wf_value_created.
  pose proof Hwfr as [_ Hndr]%wf_value_props.
  assert (Hother : ∀ k, k ≠ "createdAt"%string → k ≠ "updatedAt"%string →
            lookup_prop k (own_props r) = lookup_prop k (own_props data)).
  { intros k H1 H2. subst r. cbn [own_props].
    rewrite !lookup_set_prop_ne by done.
    rewrite lookup_spread, lookup_prop_rev by done.
    by destruct (lookup_prop k (own_props data)). }
  split.
  - unfold valid_record. rewrite Hwfr. cbn [andb].
    rewrite (Hother "id"%string) by done.
    rewrite (get_Some data "id" (VStr X)) by done.
    subst r. cbn [own_props].
    rewrite (lookup_set_prop_ne "updatedAt" "createdAt") by done.
    rewrite !lookup_set_prop_eq, (Date_of_time_valid t) by done.
    by rewrite bool_decide_eq_false_2.
  - apply plain_fields_lookup; [done|].
    intros k v Hk H1 H2. change (lookup_prop k (own_props r) = Some v) in Hk.
    rewrite Hother in Hk by done.
    by apply (plain_fields_own_props data k v).
Qed.

Lemma valid_record_fields r :
  valid_record r = true →
  ∃ ps X t1 t2, r = VObj ps ∧ wf_value r = true ∧
    lookup_prop "id" ps = Some (VStr X) ∧ X ≠ EmptyString ∧
    lookup_prop "createdAt" ps = Some (VDate (Some t1)) ∧
    lookup_prop "updatedAt" ps = Some (VDate (Some t2)).
Proof.
  intros [Hwf Hfields]%andb_prop.
  destruct r as [| | | | | | |ps]; try done. cbn [own_props] in Hfields.
  destruct (lookup_prop "id" ps) as [[| | | |X| | |]|] eqn:Hid; try done.
  destruct (lookup_prop "createdAt" ps) as [[| | | | |[t1|]| |]|] eqn:Hc; try done.
  destruct (lookup_prop "updatedAt" ps) as [[| | | | |[t2|]| |]|] eqn:Hu; try done.
  exists ps, X, t1, t2. split_and!; try done.
  by apply negb_true_iff, bool_decide_eq_false in Hfields.
Qed.

(** The record that update builds from a valid record with plain fields
    and a plain payload is again a valid record with plain fields. *)
Lemma updated_record_valid existing d X t :
  valid_record existing = true →
  plain_fields existing = true →
  wf_value d = true →
  plain_fields d = true →
  valid_time t = true →
  X ≠ EmptyString →
  let r := VObj (set_prop "updatedAt" (Date_of_time t)
                  (set_prop "createdAt"
                     (default VUndefined (lookup_prop "createdAt" (own_props existing)))
                    (set_prop "id" (VStr X)
                      (spread (spread [] (own_props existing)) (own_props d))))) in
  valid_record r = true ∧ plain_fields r = true.
Proof.
  intros Hvalid Hplain Hwfd Hpld Ht HX.
  destruct (valid_record_fields existing Hvalid)
    as (ps & X0 & t1 & t2 & -> & Hwf & Hid & HX0 & Hc & Hu).
  intros r. subst r. cbn [own_props]. rewrite Hc. cbn [default].
  set (r := VObj _).
  pose proof Hwf as [Hall Hnd]%wf_value_props.
  pose proof (wf_value_own_props d Hwfd) as [Halld Hndd].
  assert (Ht1 : valid_time t1 = true).
  { rewrite Forall_forall in Hall.
    apply (Hall ("createdAt"%string, VDate (Some t1))). by apply lookup_prop_elem. }
  assert (Hwfr : wf_value r = true).
  { apply wf_value_props. split.
    - apply (Forall_set_prop (λ v, wf_value v = true)).
      { by rewrite Date_of_time_valid. }
      apply (Forall_set_prop (λ v, wf_value v = true)); [done|].
      apply (Forall_set_prop (λ v, wf_value v = true)); [done|].
      apply (Forall_spread (λ v, wf_value v = true)); [|done].
      apply (Forall_spread (λ v, wf_value v = true)); [constructor|done].
    - do 3 apply NoDup_set_prop. do 2 apply NoDup_spread. apply NoDup_nil_2. }
  pose proof Hwfr as [_ Hndr]%wf_value_props.
  assert (Hother : ∀ k, k ≠ "id"%string → k ≠ "createdAt"%string →
            k ≠ "updatedAt"%string →
            lookup_prop k (own_props r)
            = match lookup_prop k (own_props d) with
              | Some v => Some v
              | None => lookup_prop k ps
              end).
  { intros k H0 H1 H2. subst r. cbn [own_props].
    rewrite !lookup_set_prop_ne by done.
    rewrite !lookup_spread, !lookup_prop_rev by done.
    simpl. by destruct (lookup_prop k (own_props d)), (lookup_prop k ps). }
  split.
  - unfold valid_record. rewrite Hwfr. cbn [andb].
    subst r. cbn [own_props].
    rewrite (lookup_set_prop_ne "updatedAt" "id"),
            (lookup_set_prop_ne "createdAt" "id"), lookup_set_prop_eq by done.
    rewrite (lookup_set_prop_ne "updatedAt" "createdAt") by done.
    rewrite !lookup_set_prop_eq, (Date_of_time_valid t) by done.
    by rewrite bool_decide_eq_false_2.
  - apply plain_fields_lookup; [done|].
    intros k v Hk H1 H2. change (lookup_prop k (own_props r) = Some v) in Hk.
    destruct (decide (k = "id"%string)) as [->|H0].
    { subst r. cbn [own_props] in Hk.
      rewrite (lookup_set_prop_ne "updatedAt" "id"),
              (lookup_set_prop_ne "createdAt" "id"), lookup_set_prop_eq in Hk by done.
      by injection Hk as <-. }
    rewrite Hother in Hk by done.
    destruct (lookup_prop k (own_props d)) as [v'|] eqn:Hd.
    + injection Hk as <-. by apply (plain_fields_own_props d k v').
    + by apply (plain_fields_own_props (VObj ps) k v).
Qed.

(** ** Failures of a read *)

Lemma getRecord_threw m id w e :
  (BucketModel.getRecord m id w).1 = Threw e →
  ∃ cause, e = BucketORMException (read_failure id cause).
Proof.
  destruct (objects w !! BucketModel.generateKey m id) as [body|] eqn:Hb.
  - destruct (decide (body = EmptyString)) as [->|Hne].
    { by rewrite getRecord_empty. }
    destruct (JSON_parse_text (str body)) as [j|] eqn:Hj.
    + assert (j = JNull ∨ j ≠ JNull) as [->|Hnull] by (destruct j; auto).
      * unfold BucketModel.getRecord, try_catch, BucketModel.getRecord_body.
        rewrite run_bind. unfold storage_download. rewrite Hb.
        destruct body as [|c body]; [done|].
        rewrite run_bind. unfold JSON_parse. rewrite Hj. simpl.
        intros [= <-]. by eexists (TypeError _).
      * by erewrite getRecord_parsed.
    + erewrite getRecord_corrupt by done. simpl. intros [= <-].
      by exists (SyntaxError "Unexpected token in JSON").
  - by rewrite getRecord_absent.
Qed.

Lemma load_records_throws m prefix w0 key keys :
  key ∈ keys →
  (∀ w, objects w = objects w0 →
     ∃ e, (BucketModel.getRecord m
             (replace (replace key prefix EmptyString) ".json" EmptyString) w).1
          = Threw e) →
  ∀ acc w, objects w = objects w0 →
    ∃ id cause w',
      BucketModel.load_records m prefix keys acc w
      = (Threw (BucketORMException (read_failure id cause)), w').
Proof.
  intros Hin Hthrows.
  induction keys as [|k keys IH]; intros acc w Hw; [by apply elem_of_nil in Hin|].
  cbn [BucketModel.load_records]. rewrite run_bind.
  pose proof (getRecord_world m
    (replace (replace k prefix EmptyString) ".json" EmptyString) w) as Hw1.
  pose proof (getRecord_threw m
    (replace (replace k prefix EmptyString) ".json" EmptyString) w) as Hthrew.
  destruct (BucketModel.getRecord m _ w) as [[record|e] w1] eqn:Hget;
    simpl in Hw1; subst w1.
  - apply elem_of_cons in Hin as [->|Hin].
    { destruct (Hthrows w Hw) as [e He]. by rewrite Hget in He. }
    by apply IH.
  - destruct (Hthrew e eq_refl) as [cause ->]. by eexists _, _, _.
Qed.

Lemma findMany_None_Some m opts w e w' :
  BucketModel.findMany m None w = (Threw e, w') →
  BucketModel.findMany m opts w = (Threw e, w').
Proof.
  intros H. destruct opts as [opts|]; [|done].
  by rewrite findMany_post, H.
Qed.

(** ** Slices of an empty and of a whole list *)


(** ** The where clause *)




Lemma relative_index_negative len z :
  (z < 0)%Z → relative_index len (Int z) = len - Z.to_nat (- z).
Proof. intros Hz. unfold relative_index. rewrite (proj2 (Z.ltb_lt z 0)) by done. lia. Qed.

Lemma Array_slice_offset {A} (l : list A) o k :
  relative_index (length l) (ToIntegerOrInfinity o) = k →
  Array_slice l o None = drop k l.
Proof.
  intros Hk. unfold Array_slice. rewrite Hk.
  apply take_ge. rewrite length_drop. lia.
Qed.

Lemma Array_slice_limit {A} (l : list A) e k :
  relative_index (length l) (ToIntegerOrInfinity e) = k →
  Array_slice l (Finite zero) (Some e) = take k l.
Proof.
  intros Hk. unfold Array_slice. rewrite Hk.
  change (relative_index (length l) (ToIntegerOrInfinity (Finite zero)))
    with (Z.to_nat (Z.min 0 (Z.of_nat (length l)))).
  replace (Z.to_nat (Z.min 0 (Z.of_nat (length l)))) with 0 by lia.
  by rewrite Nat.sub_0_r.
Qed.

(** ** Keys of different models *)

Lemma contains_slash_cons c s :
  contains (String c s) "/" = false → c ≠ "/"%char ∧ contains s "/" = false.
Proof.
  cbn [contains]. intros [Hp Hs]%orb_false_elim. split; [|done].
  intros ->. rewrite (prefix_cons "/" "/" EmptyString s) in Hp.
  destruct (ascii_dec "/" "/"); [by destruct s|done].
Qed.

(** A name without a slash is the part of a key before its first slash. *)
Lemma slash_free_split m m' r r' :
  contains m "/" = false → contains m' "/" = false →
  m +:+ "/" +:+ r = m' +:+ "/" +:+ r' → m = m' ∧ r = r'.
Proof.
  revert m'. induction m as [|c m IH]; intros [|c' m'] Hm Hm'.
  - change (String "/" r = String "/" r' → EmptyString = EmptyString ∧ r = r').
    by intros [= ->].
  - apply contains_slash_cons in Hm' as [Hc' _].
    change (String "/" r = String c' (m' +:+ "/" +:+ r') →
            EmptyString = String c' m' ∧ r = r').
    by intros [= <-].
  - apply contains_slash_cons in Hm as [Hc _].
    change (String c (m +:+ "/" +:+ r) = String "/" r' →
            String c m = EmptyString ∧ r = r').
    by intros [= ->].
  - apply contains_slash_cons in Hm as [_ Hm].
    apply contains_slash_cons in Hm' as [_ Hm'].
    change (String c (m +:+ "/" +:+ r) = String c' (m' +:+ "/" +:+ r') →
            String c m = String c' m' ∧ r = r').
    intros [= -> Heq].
    by destruct (IH m' Hm Hm' Heq) as [-> ->].
Qed.

Lemma generateKey_models m m' X X' :
  contains m "/" = false → contains m' "/" = false →
  BucketModel.generateKey m X = BucketModel.generateKey m' X' →
  m = m' ∧ X = X'.
Proof.
  intros Hm Hm' Heq. unfold BucketModel.generateKey in Heq.
  destruct (slash_free_split m m' _ _ Hm Hm' Heq) as [-> Hr].
  split; [done|]. by apply (generateKey_inj m').
Qed.

(** ** The objects that a write touches *)

Lemma create_objects m data w :
  objects (BucketModel.create m data w).2 = objects w ∨
  ∃ X json, objects (BucketModel.create m data w).2
            = <[BucketModel.generateKey m X := json]> (objects w).
Proof.
  destruct (BucketModel.create m data w) as [[r|e] w1] eqn:Hrun.
  - right. destruct (create_returned m data w r w1 Hrun)
      as (X & _ & json & _ & _ & _ & _ & _ & _ & ->). by exists X, json.
  - left. by apply (create_threw m data w e).
Qed.

Lemma update_objects m id d w :
  objects (BucketModel.update m id d w).2 = objects w ∨
  ∃ json, objects (BucketModel.update m id d w).2
          = <[BucketModel.generateKey m (BucketModel.text_of id) := json]> (objects w).
Proof.
  destruct (BucketModel.update m id d w) as [[r|e] w1] eqn:Hrun.
  2: { left. by apply (update_threw m id d w e). }
  right. revert Hrun. unfold BucketModel.update.
  destruct (BucketModel.invalid_id id); [done|].
  rewrite run_bind.
  pose proof (getRecord_world m (BucketModel.text_of id) w) as Hw.
  destruct (BucketModel.getRecord m _ w) as [[existing|e0] w0]; simpl in Hw; subst w0;
    [|done].
  destruct (negb (truthy existing)); [done|].
  rewrite run_bind.
  destruct (get existing "createdAt") as [e0|createdAt]; simpl native; [done|].
  unfold ret at 1. rewrite run_bind. unfold new_Date at 1.
  destruct (JSON_stringify _) as [json|]; [|done].
  intros H. unfold mbind, M_bind, bind, storage_upload, ret in H. simpl in H.
  simplify_eq. by exists json.
Qed.

Lemma delete_objects m id w :
  objects (BucketModel.delete m id w).2 = objects w ∨
  objects (BucketModel.delete m id w).2
  = base.delete (BucketModel.generateKey m (BucketModel.text_of id)) (objects w).
Proof.
  unfold BucketModel.delete.
  destruct (BucketModel.invalid_id id); [by left|].
  rewrite run_bind.
  pose proof (getRecord_world m (BucketModel.text_of id) w) as Hw.
  destruct (BucketModel.getRecord m _ w) as [[existing|e0] w0]; simpl in Hw; subst w0;
    [|by left].
  destruct (negb (truthy existing)); [by left|]. by right.
Qed.

Lemma findOne_body_only m id w w0 :
  (∀ X, objects w !! BucketModel.generateKey m X
        = objects w0 !! BucketModel.generateKey m X) →
  (BucketModel.findOne m id w).1 = (BucketModel.findOne m id w0).1.
Proof.
  intros H. unfold BucketModel.findOne.
  destruct (BucketModel.invalid_id id); [done|]. by apply getRecord_body_only.
Qed.

(** ** Validated writes *)

Lemma update_not_zod m id d w errors w' :
  BucketModel.update m id d w ≠ (Threw (ZodError errors), w').
Proof.
  unfold BucketModel.update.
  destruct (BucketModel.invalid_id id); [done|].
  rewrite run_bind.
  destruct (getRecord_outcome m (BucketModel.text_of id) w) as [[v Hv]|(e & He & _)];
    destruct (BucketModel.getRecord m (BucketModel.text_of id) w) as [o w0];
    cbn [fst] in *; subst o; [|done].
  destruct (negb (truthy v)); [done|].
  rewrite run_bind.
  destruct (get v "createdAt") as [e0|createdAt]; simpl native; [done|].
  unfold ret at 1. rewrite run_bind. unfold new_Date at 1.
  match goal with |- context [JSON_stringify ?r] => destruct (JSON_stringify r) end;
    [|done].
  unfold mbind, M_bind, bind, storage_upload, ret. done.
Qed.

(** The handler of the validating methods lets everything through that is
    not a ZodError. *)
Lemma try_catch_on_error {A} (m : M A) w :
  (∀ errors w', m w ≠ (Threw (ZodError errors), w')) →
  try_catch m BucketSchemaModel.on_error w = m w.
Proof.
  intros Hnz. unfold try_catch.
  destruct (m w) as [[a|[e|e|errors]] w'] eqn:Hm; try done.
  by destruct (Hnz errors w').
Qed.

(** ** The invariant of the registry *)

Lemma deref_valid orm r i : BucketORM.deref orm r = Some i → r < length (BucketORM.heap orm).
Proof. apply lookup_lt_Some. Qed.

Lemma registry_entry_valid orm k r :
  registry_entry orm k r → r < length (BucketORM.heap orm).
Proof. intros [H|(n & s & _ & H)]; by eapply deref_valid. Qed.

Lemma registry_entry_grow orm k r i ms :
  registry_entry orm k r →
  registry_entry {| BucketORM.models := ms; BucketORM.heap := BucketORM.heap orm ++ [i] |} k r.
Proof.
  unfold registry_entry, BucketORM.deref. cbn [BucketORM.heap].
  intros [H|(n & s & Hk & H)]; [left|right; exists n, s; split; [done|]];
    by apply lookup_app_l_Some.
Qed.

Lemma registry_ok_insert orm k i :
  registry_ok orm →
  BucketORM.models orm !! k = None →
  (∀ orm', BucketORM.deref orm' (length (BucketORM.heap orm)) = Some i →
           registry_entry orm' k (length (BucketORM.heap orm))) →
  registry_ok {| BucketORM.models := <[k := length (BucketORM.heap orm)]> (BucketORM.models orm);
                 BucketORM.heap := BucketORM.heap orm ++ [i] |}.
Proof.
  intros [Hentries Hinj] Hfree Hnew. split.
  - intros k' r. cbn [BucketORM.models]. rewrite lookup_insert_Some.
    intros [[<- <-]|[Hne Hk']].
    + apply Hnew. unfold BucketORM.deref. cbn [BucketORM.heap].
      by rewrite lookup_app_r, Nat.sub_diag.
    + by apply (registry_entry_grow orm), Hentries.
  - intros k1 k2 r. cbn [BucketORM.models]. rewrite !lookup_insert_Some.
    intros [[<- <-]|[Hne1 Hk1]] [[<- Hr]|[Hne2 Hk2]]; try done.
    + apply Hentries, registry_entry_valid in Hk2. lia.
    + apply Hentries, registry_entry_valid in Hk1. lia.
    + by apply (Hinj k1 k2 r).
Qed.

Lemma registry_ok_call orm c : registry_ok orm → registry_ok (registry_call orm c).
Proof.
  intros Hok. destruct c as [n|n sd]; simpl;
    unfold BucketORM.model, BucketORM.schemaModel.
  - destruct (BucketORM.models orm !! n) as [r|] eqn:Hn; simpl; [done|].
    apply registry_ok_insert; [done..|]. intros orm' H. by left.
  - destruct (BucketORM.models orm !! (n +:+ "_schema")) as [r|] eqn:Hn; simpl; [done|].
    apply registry_ok_insert; [done..|]. intros orm' H. right. by exists n, (schema sd).
Qed.

Lemma registry_ok_new : registry_ok BucketORM.new.
Proof. split; intros *; cbn [BucketORM.new BucketORM.models]; by rewrite lookup_empty. Qed.

Lemma registry_ok_calls cs orm : registry_ok orm → registry_ok (registry_calls cs orm).
Proof.
  revert orm. induction cs as [|c cs IH]; intros orm Hok; [done|].
  simpl. by apply IH, registry_ok_call.
Qed.

Lemma model_lookup n orm :
  BucketORM.models (BucketORM.model n orm).2 !! n = Some (BucketORM.model n orm).1.
Proof.
  unfold BucketORM.model.
  destruct (BucketORM.models orm !! n) as [r|] eqn:Hn; simpl; [done|].
  apply lookup_insert_eq.
Qed.

Lemma schemaModel_lookup n sd orm :
  BucketORM.models (BucketORM.schemaModel n sd orm).2 !! (n +:+ "_schema")
  = Some (BucketORM.schemaModel n sd orm).1.
Proof.
  unfold BucketORM.schemaModel.
  destruct (BucketORM.models orm !! (n +:+ "_schema")) as [r|] eqn:Hn; simpl; [done|].
  apply lookup_insert_eq.
Qed.

Lemma append_inj_r (a b suffix : string) : a +:+ suffix = b +:+ suffix → a = b.
Proof.
  intros H. apply str_inj. apply (f_equal str) in H.
  rewrite !str_app in H. by apply app_inv_tail in H.
Qed.

(** ** Decoded records are well formed *)

Lemma Date_parse_valid s t : Date_parse s = Some t → valid_time t = true.
Proof.
  unfold Date_parse. intros H.
  repeat match type of H with
  | (_ ≫= _) = Some _ => apply bind_Some in H as (? & _ & H)
  | (let '(_, _) := ?p in _) = Some _ => destruct p
  | (if ?c then _ else _) = Some _ =>
      lazymatch c with context [valid_time] => destruct c eqn:Hc; [|done] end
  | match ?s with _ => _ end = Some _ => destruct s; try done
  end.
  injection H as <-. by apply andb_prop in Hc as [_ Hc].
Qed.

Lemma wf_value_of_json j : wf_json j = true → wf_value (value_of_json j) = true.
Proof.
  induction j as [| | | |xs IH|ms IH] using json_nested_ind; try done.
  - cbn [wf_json value_of_json wf_value]. rewrite !forallb_forall.
    intros Hwf v [x [<- Hx]]%in_map_iff.
    rewrite Forall_forall in IH. apply IH; [by apply list_elem_of_In|by apply Hwf].
  - cbn [wf_json]. rewrite forallb_forall. intros Hwf.
    cbn [value_of_json]. apply wf_value_props. split.
    + rewrite foldl_value_of_json.
      apply (Forall_spread (λ v, wf_value v = true)); [constructor|].
      apply Forall_forall. intros kv [mem [-> Hmem]]%list_elem_of_fmap.
      rewrite Forall_forall in IH. cbn [snd].
      apply IH; [done|]. by apply Hwf, list_elem_of_In.
    + apply (NoDup_value_of_json (JObj ms)).
Qed.

Lemma wf_value_revived field v :
  wf_value v = true → wf_value (revived field v) = true.
Proof.
  intros Hwf. unfold revived.
  destruct (lookup_prop field (own_props v)) as [[| | | |s| | |]|]; try done.
  destruct (bool_decide (s = EmptyString)); [done|].
  destruct (wf_value_own_props v Hwf) as [Hall Hnd].
  apply wf_value_props. split.
  - apply (Forall_set_prop (λ v, wf_value v = true)); [|done].
    unfold Date_of_string. destruct (Date_parse (str s)) as [t|] eqn:Ht; [|done].
    by apply (Date_parse_valid (str s)).
  - by apply NoDup_set_prop.
Qed.

Lemma wf_value_decoded j : wf_json j = true → wf_value (decoded j) = true.
Proof. intros H. by do 2 apply wf_value_revived; apply wf_value_of_json. Qed.

Lemma wf_value_Date_of_time t : wf_value (Date_of_time t) = true.
Proof. unfold Date_of_time, time_clip. by destruct (valid_time t) eqn:Ht. Qed.

Lemma wf_value_updated existing d X t :
  wf_value existing = true →
  wf_value d = true →
  wf_value (VObj (set_prop "updatedAt" (Date_of_time t)
                   (set_prop "createdAt"
                      (default VUndefined (lookup_prop "createdAt" (own_props existing)))
                     (set_prop "id" (VStr X)
                       (spread (spread [] (own_props existing)) (own_props d))))))
  = true.
Proof.
  intros Hwf Hwfd.
  destruct (wf_value_own_props existing Hwf) as [Hall Hnd].
  destruct (wf_value_own_props d Hwfd) as [Halld Hndd].
  apply wf_value_props. split.
  - apply (Forall_set_prop (λ v, wf_value v = true)); [apply wf_value_Date_of_time|].
    apply (Forall_set_prop (λ v, wf_value v = true)).
    { destruct (lookup_prop "createdAt" (own_props existing)) as [c|] eqn:Hc; [|done].
      rewrite Forall_forall in Hall.
      apply (Hall ("createdAt"%string, c)). by apply lookup_prop_elem. }
    apply (Forall_set_prop (λ v, wf_value v = true)); [done|].
    apply (Forall_spread (λ v, wf_value v = true)); [|done].
    apply (Forall_spread (λ v, wf_value v = true)); [constructor|done].
  - do 3 apply NoDup_set_prop. do 2 apply NoDup_spread. apply NoDup_nil_2.
Qed.

(** ** What update returns *)

Lemma update_returned m id d w r w1 :
  BucketModel.update m id d w = (Returned r, w1) →
  ∃ X existing json,
    id = VStr X ∧ X ≠ EmptyString ∧
    (BucketModel.getRecord m X w).1 = Returned existing ∧
    truthy existing = true ∧
    r = VObj (set_prop "updatedAt" (Date_of_time (clock w))
               (set_prop "createdAt"
                  (default VUndefined (lookup_prop "createdAt" (own_props existing)))
                 (set_prop "id" (VStr X)
                   (spread (spread [] (own_props existing)) (own_props d))))) ∧
    JSON_stringify r = Some json ∧
    w1 = {| objects := <[BucketModel.generateKey m X := json]> (objects w);
            calls := Upload (BucketModel.generateKey m X) json ::
                     Download (BucketModel.generateKey m X) :: calls w;
            clock := clock w |}.
Proof.
  intros Hrun.
  destruct (BucketModel.invalid_id id) eqn:Hinv.
  { unfold BucketModel.update in Hrun. by rewrite Hinv in Hrun. }
  apply invalid_id_false in Hinv as (X & -> & HX).
  destruct (BucketModel.getRecord m X w) as [[existing|e] w0] eqn:Hget.
  2: { unfold BucketModel.update in Hrun.
       rewrite (proj2 (invalid_id_false (VStr X))) in Hrun by eauto.
       simpl BucketModel.text_of in Hrun. rewrite run_bind, Hget in Hrun. done. }
  destruct (truthy existing) eqn:Htr.
  2: { unfold BucketModel.update in Hrun.
       rewrite (proj2 (invalid_id_false (VStr X))) in Hrun by eauto.
       simpl BucketModel.text_of in Hrun. rewrite run_bind, Hget, Htr in Hrun. done. }
  destruct (update_existing m X d w existing HX) as (json & Hjson & Hrun');
    [by rewrite Hget|done|].
  rewrite Hrun' in Hrun. injection Hrun as <- <-.
  exists X, existing, json. split_and!; try done. by rewrite Hget.
Qed.

(** ** The namespace of a model *)

Lemma prefix_split p s : String.prefix p s = true → ∃ r, s = p +:+ r.
Proof.
  revert s. induction p as [|a p IH]; intros s H; [by exists s|].
  destruct s as [|b s]; [done|].
  rewrite prefix_cons in H. destruct (ascii_dec a b) as [->|]; [|done].
  destruct (IH s H) as [r ->]. by exists r.
Qed.

Lemma prefix_other_model m m' X :
  contains m "/" = false → contains m' "/" = false → m ≠ m' →
  String.prefix (m +:+ "/") (BucketModel.generateKey m' X) = false.
Proof.
  intros Hm Hm' Hne. apply not_true_iff_false. intros [r Hr]%prefix_split.
  unfold BucketModel.generateKey in Hr. rewrite string_app_assoc in Hr.
  by destruct (slash_free_split m' m _ _ Hm' Hm Hr).
Qed.

Lemma written_same m w w' :
  objects w' = objects w → written_by_model m w → written_by_model m w'.
Proof. intros Heq H key body. rewrite Heq. apply H. Qed.

Lemma written_delete m w w' k :
  objects w' = base.delete k (objects w) →
  written_by_model m w → written_by_model m w'.
Proof.
  intros Heq H key body. rewrite Heq. intros [_ Hk]%lookup_delete_Some. by apply H.
Qed.

Lemma written_insert_other m w w' k body :
  objects w' = <[k := body]> (objects w) →
  String.prefix (m +:+ "/") k = false →
  written_by_model m w → written_by_model m w'.
Proof.
  intros Heq Hk H key b. rewrite Heq.
  intros [[<- <-]|[_ Hb]]%lookup_insert_Some Hp; [congruence|by apply H].
Qed.

Lemma written_insert_record m w w' X ps json :
  objects w' = <[BucketModel.generateKey m X := json]> (objects w) →
  X ≠ EmptyString → contains X ".json" = false →
  wf_value (VObj ps) = true → lookup_prop "id" ps = Some (VStr X) →
  JSON_stringify (VObj ps) = Some json →
  written_by_model m w → written_by_model m w'.
Proof.
  intros Heq HX Hplain Hwf Hid Hjson H key b. rewrite Heq.
  intros [[<- <-]|[_ Hb]]%lookup_insert_Some Hp; [|by apply H].
  by exists X, ps.
Qed.

(** The [id] of a record survives serialization and decoding. *)
Lemma omap_cons_unfold {A B} (f : A → option B) x l :
  omap f (x :: l) = match f x with Some y => y :: omap f l | None => omap f l end.
Proof. done. Qed.

Lemma lookup_id_encoded ps X :
  lookup_prop "id" ps = Some (VStr X) →
  lookup_prop "id"
    (map (λ m : string * json, (m.1, value_of_json m.2))
       (omap (λ kv : string * value,
                match to_json kv.2 with
                | Some j => Some (kv.1, j)
                | None => None
                end) ps))
  = Some (VStr X).
Proof.
  induction ps as [|[k v] ps IH]; [done|].
  rewrite omap_cons_unfold. cbn [lookup_prop fst snd].
  destruct (bool_decide (k = "id"%string)) eqn:Hk.
  - intros [= ->]. cbn [to_json map lookup_prop fst snd value_of_json].
    by rewrite Hk.
  - intros H. destruct (to_json v) as [j|]; [|by apply IH].
    cbn [map lookup_prop fst snd]. rewrite Hk. by apply IH.
Qed.

Lemma NoDup_encoded (ps : list (string * value)) :
  NoDup ps.*1 →
  NoDup (map (λ m : string * json, (m.1, value_of_json m.2))
           (omap (λ kv : string * value,
                    match to_json kv.2 with
                    | Some j => Some (kv.1, j)
                    | None => None
                    end) ps)).*1.
Proof.
  induction ps as [|[k v] ps IH]; [done|].
  rewrite omap_cons_unfold, fmap_cons. cbn [fst snd].
  intros [Hk Hnd]%NoDup_cons. destruct (to_json v) as [j|]; [|by apply IH].
  cbn [map]. rewrite fmap_cons. cbn [fst]. apply NoDup_cons. split; [|by apply IH].
  intros Hin. apply Hk. clear -Hin.
  induction ps as [|[k' v'] ps IH]; [done|].
  rewrite omap_cons_unfold in Hin. cbn [fst snd] in Hin.
  rewrite fmap_cons. cbn [fst]. destruct (to_json v') as [j'|].
  - cbn [map] in Hin. rewrite fmap_cons in Hin. cbn [fst] in Hin.
    apply elem_of_cons in Hin as [->|Hin]; [by left|right; by apply IH].
  - right. by apply IH.
Qed.

Lemma lookup_revived_ne field k v :
  field ≠ k →
  lookup_prop k (own_props (revived field v)) = lookup_prop k (own_props v).
Proof.
  intros Hne. unfold revived.
  destruct (lookup_prop field (own_props v)) as [[| | | |s| | |]|]; try done.
  destruct (bool_decide (s = EmptyString)); [done|].
  cbn [own_props]. by apply lookup_set_prop_ne.
Qed.

Lemma decoded_id ps ms X :
  wf_value (VObj ps) = true →
  to_json (VObj ps) = Some (JObj ms) →
  lookup_prop "id" ps = Some (VStr X) →
  field (decoded (JObj ms)) "id" = VStr X.
Proof.
  intros [_ Hnd]%wf_value_props Hms Hid. cbn [to_json] in Hms. injection Hms as <-.
  unfold field, decoded. rewrite !lookup_revived_ne by done.
  cbn [value_of_json own_props]. rewrite foldl_value_of_json, lookup_spread.
  rewrite lookup_prop_rev by by apply NoDup_encoded.
  by rewrite (lookup_id_encoded ps X).
Qed.

(** Under the invariant, a record that a read finds is well formed, its
    id is free of [.json], and it carries that id. *)
Lemma written_read m w X existing :
  written_by_model m w →
  (BucketModel.getRecord m X w).1 = Returned existing →
  truthy existing = true →
  wf_value existing = true ∧ contains X ".json" = false ∧
  stored_record m w X existing ∧ field existing "id" = VStr X.
Proof.
  intros Hinv Hget Htr.
  destruct (objects w !! BucketModel.generateKey m X) as [body|] eqn:Hbody.
  2: { rewrite getRecord_absent in Hget by done. simpl in Hget. by simplify_eq. }
  destruct (Hinv _ _ Hbody (prefix_generateKey m X))
    as (id & ps & Hkey & Hid & Hplain & Hwf & Hidf & Hjson).
  apply generateKey_inj in Hkey as <-.
  destruct (getRecord_stored m X w ps body Hwf Hjson Hbody) as (ms & Hms & Hrun).
  rewrite Hrun in Hget. simpl in Hget. injection Hget as <-.
  destruct (JSON_stringify_object ps body Hjson) as (ms' & Hms' & ->).
  assert (ms' = ms) as -> by congruence.
  assert (Hwfj : wf_json (JObj ms) = true) by by eapply to_json_wf.
  split_and!; [by apply wf_value_decoded|done| |by apply (decoded_id ps)].
  exists (unstr (print_json 0 (JObj ms))), ms. split_and!; try done.
  - apply print_json_object_nonempty.
  - rewrite str_unstr. by apply JSON_parse_text_print.
Qed.

Lemma written_operation m w op :
  contains m "/" = false →
  usual op = true →
  written_by_model m w → written_by_model m (run_operation w op).
Proof.
  intros Hm Hop Hinv. destruct op as [m' data|m' id|m' opts|m' id data|m' id|t];
    cbn [run_operation].
  - apply andb_prop in Hop as [[Hm'%negb_true_iff Hwf]%andb_prop Hid].
    destruct (BucketModel.create m' data w) as [[r|e] w1] eqn:Hrun; cbn [snd].
    2: { apply (written_same m w); [by apply (create_threw m' data w e)|done]. }
    destruct (create_returned m' data w r w1 Hrun)
      as (X & _ & json & Hget & HX & _ & _ & -> & Hjson & ->).
    rewrite Hget in Hid. cbn [plain_id] in Hid. apply negb_true_iff in Hid.
    destruct (decide (m' = m)) as [->|Hne].
    + eapply (written_insert_record m w _ X); [reflexivity|done..| | |done|done].
      * by apply wf_value_created.
      * destruct (wf_value_own_props data Hwf) as [_ Hnd].
        rewrite !lookup_set_prop_ne by done.
        rewrite lookup_spread, lookup_prop_rev by done.
        by rewrite (get_Some data "id" (VStr X)).
    + eapply (written_insert_other m w); [reflexivity| |done].
      by apply prefix_other_model.
  - apply (written_same m w); [apply findOne_objects|done].
  - apply (written_same m w); [apply findMany_objects|done].
  - apply andb_prop in Hop as [Hm'%negb_true_iff Hwf].
    destruct (BucketModel.update m' id data w) as [[r|e] w1] eqn:Hrun; cbn [snd].
    2: { apply (written_same m w); [by apply (update_threw m' id data w e)|done]. }
    destruct (update_returned m' id data w r w1 Hrun)
      as (X & existing & json & -> & HX & Hget & Htr & -> & Hjson & ->).
    destruct (decide (m' = m)) as [->|Hne].
    + destruct (written_read m w X existing Hinv Hget Htr) as (Hwfe & Hplain & _).
      eapply (written_insert_record m w _ X); [reflexivity|done..| | |done|done].
      * by apply wf_value_updated.
      * rewrite !lookup_set_prop_ne by done. apply lookup_set_prop_eq.
    + eapply (written_insert_other m w); [reflexivity| |done].
      by apply prefix_other_model.
  - destruct (delete_objects m' id w) as [Heq|Heq].
    + by apply (written_same m w).
    + by eapply (written_delete m w).
  - by apply (written_same m w).
Qed.

Lemma written_operations m ops : ∀ w,
  contains m "/" = false →
  Forall (λ op, usual op = true) ops →
  written_by_model m w → written_by_model m (run_operations ops w).
Proof.
  induction ops as [|op ops IH]; intros w Hm Hops Hinv; [done|].
  apply Forall_cons in Hops as [Hop Hops]. simpl.
  apply IH; [done..|]. by apply written_operation.
Qed.

Lemma written_empty m t : written_by_model m (empty_world t).
Proof. intros key body. simpl. by rewrite lookup_empty. Qed.

(** Under the invariant, every object of the namespace is the stored
    record of its id, which the record carries. *)
Lemma written_stored m w key body :
  written_by_model m w →
  objects w !! key = Some body →
  String.prefix (m +:+ "/") key = true →
  ∃ id r, key = BucketModel.generateKey m id ∧ id ≠ EmptyString ∧
          contains id ".json" = false ∧ stored_record m w id r ∧
          field r "id" = VStr id.
Proof.
  intros Hinv Hbody Hp.
  destruct (Hinv _ _ Hbody Hp) as (id & ps & -> & Hid & Hplain & Hwf & Hidf & Hjson).
  destruct (JSON_stringify_object ps body Hjson) as (ms & Hms & ->).
  exists id, (decoded (JObj ms)). split_and!; try done; [|by apply (decoded_id ps)].
  exists (unstr (print_json 0 (JObj ms))), ms. split_and!; try done.
  - apply print_json_object_nonempty.
  - rewrite str_unstr. apply JSON_parse_text_print. by eapply to_json_wf.
Qed.

Lemma stored_record_id m w id r :
  written_by_model m w → stored_record m w id r →
  id ≠ EmptyString ∧ field r "id" = VStr id.
Proof.
  intros Hinv Hst. pose proof Hst as (body & ms & Hbody & _).
  destruct (written_stored m w _ body Hinv Hbody (prefix_generateKey m id))
    as (id' & r' & Hkey & Hid & _ & Hst' & Hidf).
  apply generateKey_inj in Hkey as <-.
  by rewrite (stored_record_unique m w id r r' Hst Hst').
Qed.

Lemma Forall2_NoDup {A B} (R : A → B → Prop) l k :
  (∀ x x' y, R x y → R x' y → x = x') →
  Forall2 R l k → NoDup l → NoDup k.
Proof.
  intros Hinj H. induction H as [|x y l k Hxy H IH];
    [intros _; apply NoDup_nil_2|].
  intros [Hx Hnd]%NoDup_cons. apply NoDup_cons. split; [|by apply IH].
  intros Hy. apply Hx.
  apply list_elem_of_lookup in Hy as [i Hi].
  destruct (Forall2_lookup_r _ _ _ _ _ H Hi) as (x' & Hx' & Hx'y).
  rewrite (Hinj x x' y Hxy Hx'y). by eapply list_elem_of_lookup_2.
Qed.

(** Under the invariant, findMany returns each stored record once. *)
Lemma findMany_written m w :
  written_by_model m w →
  ∃ rs w',
    BucketModel.findMany m None w = (Returned rs, w') ∧
    objects w' = objects w ∧
    NoDup rs ∧
    ∀ r, r ∈ rs ↔ ∃ X, field r "id" = VStr X ∧ X ≠ EmptyString ∧
                       stored_record m w X r.
Proof.
  intros Hinv.
  unfold BucketModel.findMany, try_catch. rewrite run_bind.
  unfold storage_list.
  set (keys := filter (λ k, String.prefix (m +:+ "/") k = true)
                 (map_to_list (objects w)).*1).
  set (jsonKeys := filter (λ key, endsWith key ".json" = true) keys).
  assert (Hin : ∀ key, key ∈ jsonKeys ↔
            is_Some (objects w !! key) ∧ String.prefix (m +:+ "/") key = true ∧
            endsWith key ".json" = true).
  { intros key. unfold jsonKeys, keys. rewrite !list_elem_of_filter.
    rewrite list_elem_of_fmap. split.
    - intros (He & Hp & [k v] & -> & Hkv%elem_of_map_to_list).
      split_and!; [by exists v|done..].
    - intros ([v Hv] & Hp & He). split_and!; [done..|].
      exists (key, v). split; [done|]. by apply elem_of_map_to_list. }
  assert (Hnd : NoDup jsonKeys).
  { unfold jsonKeys, keys. do 2 apply NoDup_filter. apply NoDup_fst_map_to_list. }
  destruct (load_records_plain m w jsonKeys []
              (record_call (List (m +:+ "/")) w)) as (rs & w' & Hrun & Hw' & Hrs);
    [done| |].
  { apply Forall_forall. intros key ([body Hbody] & Hp & _)%Hin.
    destruct (written_stored m w key body Hinv Hbody Hp)
      as (id & r & -> & _ & Hplain & Hst & _). by exists id, r. }
  rewrite run_bind, Hrun. simpl in *.
  exists rs, w'. split_and!; [done..| |].
  - apply (Forall2_NoDup _ jsonKeys rs) in Hrs; [done| |done].
    intros key key' r (id & -> & Hst) (id' & -> & Hst').
    destruct (stored_record_id m w id r Hinv Hst) as [_ Hid].
    destruct (stored_record_id m w id' r Hinv Hst') as [_ Hid'].
    by assert (id = id') as -> by congruence.
  - intros r. split.
    + intros (i & Hi)%list_elem_of_lookup.
      destruct (Forall2_lookup_r _ _ _ _ _ Hrs Hi) as (key & _ & id & _ & Hst).
      destruct (stored_record_id m w id r Hinv Hst) as [Hne Hid].
      by exists id.
    + intros (id & _ & _ & Hst).
      assert (Hkey : BucketModel.generateKey m id ∈ jsonKeys).
      { apply Hin. destruct Hst as (body & ms & Hb & _). split_and!.
        - by exists body.
        - apply prefix_generateKey.
        - apply endsWith_generateKey. }
      apply list_elem_of_lookup in Hkey as (i & Hi).
      destruct (Forall2_lookup_l _ _ _ _ _ Hrs Hi) as (r' & Hr' & id' & Heq & Hst').
      apply generateKey_inj in Heq as <-.
      rewrite (stored_record_unique m w id r r' Hst Hst').
      apply list_elem_of_lookup. by exists i.
Qed.

(** A stored record is what findOne returns for its id. *)
Lemma findOne_stored m w X r :
  X ≠ EmptyString → stored_record m w X r →
  BucketModel.findOne m (VStr X) w
  = (Returned r, record_call (Download (BucketModel.generateKey m X)) w).
Proof.
  intros HX Hst. unfold BucketModel.findOne.
  rewrite (proj2 (invalid_id_false (VStr X))) by eauto.
  simpl BucketModel.text_of.
  by destruct (getRecord_stored_record m w w X r eq_refl Hst) as [-> _].
Qed.

Lemma findOne_written m w X r :
  written_by_model m w →
  (BucketModel.findOne m (VStr X) w).1 = Returned r → r ≠ VNull →
  X ≠ EmptyString ∧ stored_record m w X r ∧ field r "id" = VStr X.
Proof.
  intros Hinv Hfind Hr. unfold BucketModel.findOne in Hfind.
  destruct (BucketModel.invalid_id (VStr X)) eqn:HX; [done|].
  apply invalid_id_false in HX as (? & [= <-] & HX).
  simpl BucketModel.text_of in Hfind.
  destruct (objects w !! BucketModel.generateKey m X) as [body|] eqn:Hbody.
  2: { rewrite getRecord_absent in Hfind by done. simpl in Hfind. by simplify_eq. }
  destruct (written_stored m w _ body Hinv Hbody (prefix_generateKey m X))
    as (id & r' & Hkey & _ & _ & Hst & Hid).
  apply generateKey_inj in Hkey as <-.
  destruct (getRecord_stored_record m w w X r' eq_refl Hst) as [Hget _].
  rewrite Hget in Hfind. simpl in Hfind. by injection Hfind as <-.
Qed.

(** ** Bodies that are JSON but no record *)

Lemma getRecord_null_body m id w body :
  objects w !! BucketModel.generateKey m id = Some body →
  body ≠ EmptyString →
  JSON_parse_text (str body) = Some JNull →
  BucketModel.getRecord m id w
  = (Threw (BucketORMException
       (read_failure id
          (TypeError "Cannot read properties of null (reading 'createdAt')"))),
     record_call (Download (BucketModel.generateKey m id)) w).
Proof.
  intros H Hne Hparse.
  unfold BucketModel.getRecord, try_catch, BucketModel.getRecord_body.
  rewrite run_bind. unfold storage_download. rewrite H.
  destruct body as [|c body]; [done|].
  rewrite run_bind. unfold JSON_parse. rewrite Hparse. reflexivity.
Qed.

Lemma decoded_falsy j :
  j ≠ JNull → truthy (value_of_json j) = false → decoded j = value_of_json j.
Proof. by destruct j. Qed.

Lemma create_over m data X w existing :
  get data "id" = inr (VStr X) →
  X ≠ EmptyString →
  (BucketModel.getRecord m X w).1 = Returned existing →
  truthy existing = false →
  let record :=
    VObj (set_prop "updatedAt" (Date_of_time (clock w))
           (set_prop "createdAt" (Date_of_time (clock w))
             (spread [] (own_props data)))) in
  ∃ json,
    JSON_stringify record = Some json ∧
    BucketModel.create m data w
    = (Returned record,
       {| objects := <[BucketModel.generateKey m X := json]> (objects w);
          calls := Upload (BucketModel.generateKey m X) json ::
                   Download (BucketModel.generateKey m X) :: calls w;
          clock := clock w |}).
Proof.
  intros Hid HX Hget Htr record.
  destruct (JSON_stringify_object_total
    (set_prop "updatedAt" (Date_of_time (clock w))
      (set_prop "createdAt" (Date_of_time (clock w))
        (spread [] (own_props data))))) as [json Hjson].
  exists json. split; [done|].
  unfold BucketModel.create. rewrite run_bind, Hid. simpl native. unfold ret at 1.
  rewrite (proj2 (invalid_id_false (VStr X))) by eauto.
  simpl BucketModel.text_of. rewrite run_bind.
  pose proof (getRecord_world m X w) as Hw.
  destruct (BucketModel.getRecord m X w) as [o w0]. simpl in Hget, Hw. subst o w0.
  rewrite Htr.
  rewrite run_bind. unfold new_Date at 1.
  change (clock (record_call ?c w)) with (clock w).
  rewrite Hjson. done.
Qed.

Lemma update_missing m X d w existing :
  X ≠ EmptyString →
  (BucketModel.getRecord m X w).1 = Returned existing →
  truthy existing = false →
  BucketModel.update m (VStr X) d w
  = (Threw (BucketORMException (not_found X)),
     record_call (Download (BucketModel.generateKey m X)) w).
Proof.
  intros HX Hget Htr. unfold BucketModel.update.
  rewrite (proj2 (invalid_id_false (VStr X))) by eauto.
  simpl BucketModel.text_of. rewrite run_bind.
  pose proof (getRecord_world m X w) as Hw.
  destruct (BucketModel.getRecord m X w) as [o w0]. simpl in Hget, Hw. subst o w0.
  by rewrite Htr.
Qed.

Lemma delete_missing m X w existing :
  X ≠ EmptyString →
  (BucketModel.getRecord m X w).1 = Returned existing →
  truthy existing = false →
  BucketModel.delete m (VStr X) w
  = (Threw (BucketORMException (not_found X)),
     record_call (Download (BucketModel.generateKey m X)) w).
Proof.
  intros HX Hget Htr. unfold BucketModel.delete.
  rewrite (proj2 (invalid_id_false (VStr X))) by eauto.
  simpl BucketModel.text_of. rewrite run_bind.
  pose proof (getRecord_world m X w) as Hw.
  destruct (BucketModel.getRecord m X w) as [o w0]. simpl in Hget, Hw. subst o w0.
  by rewrite Htr.
Qed.

(** ** Composition with the listing *)

Lemma findOne_getRecord m X w :
  X ≠ EmptyString →
  BucketModel.findOne m (VStr X) w = BucketModel.getRecord m X w.
Proof.
  intros HX. unfold BucketModel.findOne.
  by rewrite (proj2 (invalid_id_false (VStr X))) by eauto.
Qed.

Lemma stored_record_ext m w w' X r :
  objects w' !! BucketModel.generateKey m X = objects w !! BucketModel.generateKey m X →
  stored_record m w' X r ↔ stored_record m w X r.
Proof. intros Heq. unfold stored_record. by rewrite Heq. Qed.

(** ** What create stores can be read *)

Lemma lookup_encoded k ps v j :
  lookup_prop k ps = Some v →
  to_json v = Some j →
  lookup_prop k
    (map (λ m : string * json, (m.1, value_of_json m.2))
       (omap (λ kv : string * value,
                match to_json kv.2 with
                | Some j => Some (kv.1, j)
                | None => None
                end) ps))
  = Some (value_of_json j).
Proof.
  intros Hk Hj. induction ps as [|[k' v'] ps IH]; [done|].
  rewrite omap_cons_unfold. cbn [lookup_prop fst snd] in *.
  destruct (bool_decide (k' = k)) eqn:Hk'.
  - injection Hk as ->. rewrite Hj. cbn [map lookup_prop fst snd]. by rewrite Hk'.
  - destruct (to_json v') as [j'|]; [|by apply IH].
    cbn [map lookup_prop fst snd]. rewrite Hk'. by apply IH.
Qed.

Lemma lookup_value_of_json k ps ms v j :
  NoDup ps.*1 →
  to_json (VObj ps) = Some (JObj ms) →
  lookup_prop k ps = Some v →
  to_json v = Some j →
  lookup_prop k (own_props (value_of_json (JObj ms))) = Some (value_of_json j).
Proof.
  intros Hnd Hms Hk Hj. cbn [to_json] in Hms. injection Hms as <-.
  cbn [value_of_json own_props]. rewrite foldl_value_of_json, lookup_spread.
  rewrite lookup_prop_rev by by apply NoDup_encoded.
  by rewrite (lookup_encoded k ps v j).
Qed.

Lemma lookup_revived_eq field v s :
  lookup_prop field (own_props v) = Some (VStr s) → s ≠ EmptyString →
  lookup_prop field (own_props (revived field v)) = Some (Date_of_string s).
Proof.
  intros Hk Hs. unfold revived. rewrite Hk.
  rewrite bool_decide_eq_false_2 by done. cbn [own_props].
  apply lookup_set_prop_eq.
Qed.

(** The timestamps of a stored record are read back as the Dates they
    were written from. *)
Lemma decoded_timestamps ps ms t1 t2 :
  wf_value (VObj ps) = true →
  to_json (VObj ps) = Some (JObj ms) →
  lookup_prop "createdAt" ps = Some (VDate (Some t1)) →
  lookup_prop "updatedAt" ps = Some (VDate (Some t2)) →
  field (decoded (JObj ms)) "createdAt" = VDate (Some t1) ∧
  field (decoded (JObj ms)) "updatedAt" = VDate (Some t2).
Proof.
  intros Hwf Hms Hc Hu.
  pose proof Hwf as [Hall Hnd]%wf_value_props. rewrite Forall_forall in Hall.
  assert (Ht1 : valid_time t1 = true).
  { apply (Hall ("createdAt"%string, VDate (Some t1))). by apply lookup_prop_elem. }
  assert (Ht2 : valid_time t2 = true).
  { apply (Hall ("updatedAt"%string, VDate (Some t2))). by apply lookup_prop_elem. }
  pose proof (lookup_value_of_json "createdAt" ps ms _ _ Hnd Hms Hc eq_refl) as Hc'.
  pose proof (lookup_value_of_json "updatedAt" ps ms _ _ Hnd Hms Hu eq_refl) as Hu'.
  change (value_of_json (JStr ?s)) with (VStr s) in Hc', Hu'.
  unfold field, decoded. split.
  - rewrite lookup_revived_ne by done.
    rewrite (lookup_revived_eq _ _ _ Hc') by apply toISOString_nonempty.
    by rewrite Date_of_string_toISOString.
  - rewrite (lookup_revived_eq "updatedAt" _ (unstr (toISOString t2))).
    + by rewrite Date_of_string_toISOString.
    + by rewrite lookup_revived_ne.
    + apply toISOString_nonempty.
Qed.

(** * Further properties of the code *)

(** ** BucketModel *)

(** X1. Validation of the id: when the id is anything but a non-empty
    string, create (for the id of its payload), findOne, update and delete
    fail with INVALID_DATA before the storage is consulted: the bucket and
    the log of storage calls are exactly as they were. *)
Theorem invalid_id_rejected m id data d w :
  (∀ X, id = VStr X → X = EmptyString) →
  get data "id" = inr id →
  BucketModel.create m data w
  = (Threw (BucketORMException (invalid_data "Record must have a valid string ID")), w) ∧
  BucketModel.findOne m id w
  = (Threw (BucketORMException (invalid_data "ID must be a valid string")), w) ∧
  BucketModel.update m id d w
  = (Threw (BucketORMException (invalid_data "ID must be a valid string")), w) ∧
  BucketModel.delete m id w
  = (Threw (BucketORMException (invalid_data "ID must be a valid string")), w).
Proof.
  intros Hid%invalid_id_true Hget. split_and!.
  - unfold BucketModel.create. rewrite run_bind, Hget. simpl native.
    unfold ret at 1. by rewrite Hid.
  - unfold BucketModel.findOne. by rewrite Hid.
  - unfold BucketModel.update. by rewrite Hid.
  - unfold BucketModel.delete. by rewrite Hid.
Qed.

(** X2. create on a free key: for a payload whose id is a non-empty string
    with no object (or an empty one) at its key, create returns the payload
    with createdAt and updatedAt both set to the current time, whatever
    the payload said of them, and every other field as the payload has it;
    it stores the serialization of that record at the key of the id, by one
    download followed by one upload. *)
Theorem create_on_free_key m data X w :
  get data "id" = inr (VStr X) →
  X ≠ EmptyString →
  NoDup (own_props data).*1 →
  objects w !! BucketModel.generateKey m X = None ∨
  objects w !! BucketModel.generateKey m X = Some EmptyString →
  ∃ ps json,
    BucketModel.create m data w
    = (Returned (VObj ps),
       {| objects := <[BucketModel.generateKey m X := json]> (objects w);
          calls := Upload (BucketModel.generateKey m X) json ::
                   Download (BucketModel.generateKey m X) :: calls w;
          clock := clock w |}) ∧
    JSON_stringify (VObj ps) = Some json ∧
    lookup_prop "createdAt" ps = Some (Date_of_time (clock w)) ∧
    lookup_prop "updatedAt" ps = Some (Date_of_time (clock w)) ∧
    ∀ k, k ≠ "createdAt"%string → k ≠ "updatedAt"%string →
      lookup_prop k ps = lookup_prop k (own_props data).
Proof.
  intros Hid HX Hnd Hfree.
  destruct (create_free m data X w Hid HX Hfree) as (json & Hjson & Hrun).
  eexists _, json. split_and!; [exact Hrun|exact Hjson|..].
  - rewrite lookup_set_prop_ne by done. apply lookup_set_prop_eq.
  - apply lookup_set_prop_eq.
  - intros k H1 H2. rewrite !lookup_set_prop_ne by done.
    rewrite lookup_spread, lookup_prop_rev by done.
    by destruct (lookup_prop k (own_props data)).
Qed.

(** X3. delete of a stored record: it removes the object at the key of the
    id, by one download followed by one delete, and touches no other
    object; afterwards findOne for the id returns null and a second delete
    fails with RECORD_NOT_FOUND without a delete call. *)
Theorem delete_removes m X w existing :
  X ≠ EmptyString →
  (BucketModel.getRecord m X w).1 = Returned existing →
  truthy existing = true →
  let key := BucketModel.generateKey m X in
  let w1 := {| objects := base.delete key (objects w);
               calls := Delete key :: Download key :: calls w;
               clock := clock w |} in
  BucketModel.delete m (VStr X) w = (Returned (), w1) ∧
  (∀ k, k ≠ key → objects w1 !! k = objects w !! k) ∧
  BucketModel.findOne m (VStr X) w1
  = (Returned VNull, record_call (Download key) w1) ∧
  BucketModel.delete m (VStr X) w1
  = (Threw (BucketORMException (not_found X)), record_call (Download key) w1).
Proof.
  intros HX Hget Htr key w1.
  assert (Hgone : objects w1 !! key = None) by apply lookup_delete_eq.
  split_and!.
  - by apply (delete_stored m X w existing).
  - intros k Hk. by apply lookup_delete_ne.
  - by apply findOne_absent.
  - unfold BucketModel.delete.
    rewrite (proj2 (invalid_id_false (VStr X))) by eauto.
    simpl BucketModel.text_of. rewrite run_bind.
    by rewrite getRecord_absent.
Qed.

(** X4. Reads never write, and what create, update and delete throw they
    throw before they write.  findOne and findMany leave every object of
    the bucket as it was, whatever they return or throw.  Over a storage
    that answers every request (its upload and its delete do not fail),
    whenever create, update or delete throws, the call has issued no upload
    and no delete, at most the one download of the record it looks up, and
    the bucket holds exactly the objects it held before the call.  (What
    the bucket holds after the storage itself rejects an upload or a
    delete is the storage's to say, and is not stated here.) *)
Theorem failure_leaves_bucket m w :
  (∀ id, objects (BucketModel.findOne m id w).2 = objects w) ∧
  (∀ opts, objects (BucketModel.findMany m opts w).2 = objects w) ∧
  (∀ data e w', BucketModel.create m data w = (Threw e, w') →
     threw_before_write m w w') ∧
  (∀ id d e w', BucketModel.update m id d w = (Threw e, w') →
     threw_before_write m w w') ∧
  (∀ id e w', BucketModel.delete m id w = (Threw e, w') →
     threw_before_write m w w').
Proof.
  split_and!.
  - intros id. apply findOne_objects.
  - intros opts. apply findMany_objects.
  - intros data e w'. apply create_threw_early.
  - intros id d e w'. apply update_threw_early.
  - intros id e w'. apply delete_threw_early.
Qed.

(** X5. create, then findOne: when the payload holds plain JSON data (its
    createdAt and updatedAt, which create replaces, apart) and the clock
    shows a time that a Date can hold, findOne for the id of a record just
    created returns the very record that create returned. *)
Theorem create_then_findOne m data w r w1 :
  wf_value data = true →
  plain_fields data = true →
  valid_time (clock w) = true →
  BucketModel.create m data w = (Returned r, w1) →
  ∃ X, get data "id" = inr (VStr X) ∧
    BucketModel.findOne m (VStr X) w1
    = (Returned r, record_call (Download (BucketModel.generateKey m X)) w1).
Proof.
  intros Hwf Hplain Ht Hrun.
  destruct (create_returned m data w r w1 Hrun)
    as (X & existing & json & Hid & HX & _ & _ & -> & Hjson & ->).
  exists X. split; [done|].
  destruct (created_record_valid data X (clock w)) as [Hvalid Hpl]; [done..|].
  rewrite findOne_getRecord by done.
  apply (getRecord_valid_record m X _ _ json); [done..|].
  simpl. apply lookup_insert_eq.
Qed.

(** X6. update, then findOne: for a stored record that is valid and holds
    plain JSON data, a payload of plain JSON data and a clock that shows a
    time a Date can hold, update succeeds and findOne for the id then
    returns the very record that update returned: the merge is what the
    bucket holds, with the createdAt of the record before. *)
Theorem update_then_findOne m X d w existing :
  X ≠ EmptyString →
  (BucketModel.getRecord m X w).1 = Returned existing →
  valid_record existing = true →
  plain_fields existing = true →
  wf_value d = true →
  plain_fields d = true →
  valid_time (clock w) = true →
  ∃ r w1,
    BucketModel.update m (VStr X) d w = (Returned r, w1) ∧
    field r "createdAt" = field existing "createdAt" ∧
    BucketModel.findOne m (VStr X) w1
    = (Returned r, record_call (Download (BucketModel.generateKey m X)) w1).
Proof.
  intros HX Hget Hvalid Hplain Hwfd Hpld Ht.
  assert (Htr : truthy existing = true).
  { by destruct (valid_record_fields existing Hvalid) as (ps & ? & ? & ? & -> & _). }
  destruct (update_existing m X d w existing HX Hget Htr) as (json & Hjson & Hrun).
  destruct (updated_record_valid existing d X (clock w)) as [Hv Hp]; [done..|].
  eexists _, _. split_and!; [exact Hrun|..].
  - unfold field. cbn [own_props].
    rewrite lookup_set_prop_ne by done. by rewrite lookup_set_prop_eq.
  - rewrite findOne_getRecord by done.
    apply (getRecord_valid_record m X _ _ json); [done..|].
    simpl. apply lookup_insert_eq.
Qed.

(** X7. One unreadable record fails the whole listing: when the bucket
    holds, under the key of an id free of [.json], a body that is not
    empty and is not valid JSON, findMany, with or without options, returns
    no record at all: it throws the STORAGE_ERROR of the read that failed
    (the first one in listing order), with the message of that read and not
    a message of its own, and it changes no object. *)
Theorem findMany_fails_on_corrupt m X w body opts :
  contains X ".json" = false →
  objects w !! BucketModel.generateKey m X = Some body →
  body ≠ EmptyString →
  JSON_parse_text (str body) = None →
  ∃ id cause w',
    BucketModel.findMany m opts w
    = (Threw (BucketORMException (read_failure id cause)), w') ∧
    objects w' = objects w.
Proof.
  intros Hplain Hbody Hne Hparse.
  assert (∃ id cause w', BucketModel.findMany m None w
            = (Threw (BucketORMException (read_failure id cause)), w'))
    as (id & cause & w' & Hrun).
  { unfold BucketModel.findMany, try_catch. rewrite run_bind.
    unfold storage_list at 1.
    set (jsonKeys := filter (λ key, endsWith key ".json" = true)
           (filter (λ k, String.prefix (m +:+ "/") k = true)
              (map_to_list (objects w)).*1)).
    destruct (load_records_throws m (m +:+ "/") w (BucketModel.generateKey m X)
                jsonKeys) with (acc := @nil value)
                               (w := record_call (List (m +:+ "/")) w)
      as (id & cause & w' & Hload); [| |done|].
    - unfold jsonKeys. rewrite !list_elem_of_filter. split_and!.
      + apply endsWith_generateKey.
      + apply prefix_generateKey.
      + apply list_elem_of_fmap. exists (BucketModel.generateKey m X, body).
        split; [done|]. by apply elem_of_map_to_list.
    - intros w1 Hw1. rewrite extracted_id by done.
      rewrite (getRecord_corrupt m X w1 body); [by eexists|by rewrite Hw1|done..].
    - rewrite run_bind, Hload. by eexists _, _, _. }
  exists id, cause, w'. split.
  - by apply findMany_None_Some.
  - pose proof (findMany_objects m None w) as Hobj. by rewrite Hrun in Hobj.
Qed.


(** X9. An offset or a limit that is negative or infinite is handed to
    slice as it is.  A negative offset -k keeps the last k records and a
    negative limit -k drops the last k; an offset of Infinity returns
    nothing and a limit of Infinity everything, an offset of -Infinity
    returns everything and a limit of -Infinity nothing. *)
Theorem findMany_relative_options m w records w' x z :
  BucketModel.findMany m None w = (Returned records, w') →
  ToIntegerOrInfinity x = Int z →
  (z < 0)%Z →
  let n := length records - Z.to_nat (- z) in
  BucketModel.findMany m (Some (only_offset x)) w = (Returned (drop n records), w') ∧
  BucketModel.findMany m (Some (only_limit x)) w = (Returned (take n records), w') ∧
  BucketModel.findMany m (Some (only_offset (Infinity false))) w = (Returned [], w') ∧
  BucketModel.findMany m (Some (only_limit (Infinity false))) w = (Returned records, w') ∧
  BucketModel.findMany m (Some (only_offset (Infinity true))) w = (Returned records, w') ∧
  BucketModel.findMany m (Some (only_limit (Infinity true))) w = (Returned [], w').
Proof.
  intros Hload Hx Hz n.
  rewrite !findMany_post, Hload. cbv zeta. cbn [only_offset only_limit
    BucketModel.where_ BucketModel.offset BucketModel.limit].
  split_and!; do 2 f_equal.
  - apply Array_slice_offset. rewrite Hx. by apply relative_index_negative.
  - apply Array_slice_limit. rewrite Hx. by apply relative_index_negative.
  - rewrite (Array_slice_offset _ _ (length records)) by done. apply drop_all.
  - rewrite (Array_slice_limit _ _ (length records)) by done. apply firstn_all.
  - by rewrite (Array_slice_offset _ _ 0).
Qed.

(** X10. Models do not interfere: the keys of two models whose names are
    distinct and hold no slash never coincide, and so whatever create,
    update or delete does in one of them, with any arguments, findOne in the
    other returns (or throws) afterwards what it did before, for every
    id. *)
Theorem models_do_not_interfere m m' w id :
  contains m "/" = false →
  contains m' "/" = false →
  m ≠ m' →
  (∀ X X', BucketModel.generateKey m X ≠ BucketModel.generateKey m' X') ∧
  (∀ data, (BucketModel.findOne m id (BucketModel.create m' data w).2).1
           = (BucketModel.findOne m id w).1) ∧
  (∀ id' d, (BucketModel.findOne m id (BucketModel.update m' id' d w).2).1
            = (BucketModel.findOne m id w).1) ∧
  (∀ id', (BucketModel.findOne m id (BucketModel.delete m' id' w).2).1
          = (BucketModel.findOne m id w).1).
Proof.
  intros Hm Hm' Hne.
  assert (Hkeys : ∀ X X', BucketModel.generateKey m X ≠ BucketModel.generateKey m' X').
  { intros X X' Heq. by destruct (generateKey_models m m' X X' Hm Hm' Heq). }
  split_and!; [done|..].
  - intros data. apply findOne_body_only. intros X.
    destruct (create_objects m' data w) as [->|(X' & json & ->)]; [done|].
    apply lookup_insert_ne. intros Heq. by apply (Hkeys X X').
  - intros id' d. apply findOne_body_only. intros X.
    destruct (update_objects m' id' d w) as [->|(json & ->)]; [done|].
    apply lookup_insert_ne. intros Heq. by apply (Hkeys X (BucketModel.text_of id')).
  - intros id'. apply findOne_body_only. intros X.
    destruct (delete_objects m' id' w) as [->| ->]; [done|].
    apply lookup_delete_ne. intros Heq. by apply (Hkeys X (BucketModel.text_of id')).
Qed.

(** The guarantee of X10 needs the names to be free of slashes: the record
    [c] of the model [a/b] and the record [b/c] of the model [a] are one
    object. *)
Example slash_in_model_name :
  BucketModel.generateKey "a/b" "c" = BucketModel.generateKey "a" "b/c".
Proof. reflexivity. Qed.

(** ** BucketSchemaModel *)

(** X11. The schema gate of updateWithValidation.  The payload is checked
    against the partial form of the schema when the schema has one, and
    against the schema itself otherwise.  When the check rejects the
    payload the call fails with INVALID_DATA, the message and the details
    listing every issue, and nothing is done to the storage, not even the
    read of the record: the failure is the same whether the id exists or
    not.  When the check accepts, the call is update on the validated data,
    with all its outcomes.  An error raised by a rule of the schema passes
    through unchanged. *)
Theorem update_schema_gate m s id data w :
  match update_parse s data with
  | Invalid errors =>
      BucketSchemaModel.updateWithValidation m s id data w
      = (Threw (BucketORMException (validation_failure errors)), w)
  | Parsed validatedData =>
      BucketSchemaModel.updateWithValidation m s id data w
      = BucketModel.update m id validatedData w
  | Raised e =>
      BucketSchemaModel.updateWithValidation m s id data w
      = (Threw (NativeError e), w)
  end.
Proof.
  unfold BucketSchemaModel.updateWithValidation.
  change (match partial_parse s with Some p => p | None => parse s end)
    with (update_parse s).
  unfold try_catch at 1. rewrite run_bind. unfold zod_parse.
  destruct (update_parse s data) as [v|errors|e]; try done.
  unfold ret at 1.
  pose proof (update_not_zod m id v w) as Hnz.
  destruct (BucketModel.update m id v w) as [[r|[e|e|errors]] w']; try done.
  by destruct (Hnz errors w').
Qed.

(** X12. validateData is the gate on its own: it returns what the schema
    makes of the data, fails with INVALID_DATA and every issue when the
    schema rejects it, and in either case reads and writes nothing;
    createWithValidation is validateData followed by create on its
    result. *)
Theorem validateData_then_create m s data w :
  BucketSchemaModel.validateData s data w
  = (match parse s data with
     | Parsed validatedData => Returned validatedData
     | Invalid errors => Threw (BucketORMException (validation_failure errors))
     | Raised e => Threw (NativeError e)
     end, w) ∧
  BucketSchemaModel.createWithValidation m s data w
  = (validatedData ← BucketSchemaModel.validateData s data;
     BucketModel.create m validatedData) w.
Proof.
  assert (Hv : BucketSchemaModel.validateData s data w
    = (match parse s data with
       | Parsed validatedData => Returned validatedData
       | Invalid errors => Threw (BucketORMException (validation_failure errors))
       | Raised e => Threw (NativeError e)
       end, w)).
  { unfold BucketSchemaModel.validateData, try_catch, zod_parse.
    by destruct (parse s data). }
  split; [done|].
  rewrite run_bind, Hv.
  unfold BucketSchemaModel.createWithValidation, try_catch at 1.
  rewrite run_bind. unfold zod_parse.
  destruct (parse s data) as [v|errors|e]; try done.
  unfold ret at 1.
  pose proof (create_not_zod m v w) as Hnz.
  destruct (BucketModel.create m v w) as [[r|[e|e|errors]] w']; try done.
  by destruct (Hnz errors w').
Qed.

(** ** BucketORM *)

(** X13. The first plain model wins: when model(n) constructs the instance
    for [n], a later model(n), whatever requests the registry served in
    between, returns that same instance and leaves the registry alone. *)
Theorem model_keeps_first_instance n cs orm :
  BucketORM.models orm !! n = None →
  let '(a, orm1) := BucketORM.model n orm in
  let orm2 := registry_calls cs orm1 in
  let '(b, orm3) := BucketORM.model n orm2 in
  b = a ∧ orm3 = orm2 ∧ BucketORM.deref orm3 b = Some (NewBucketModel n).
Proof.
  intros Hfree. unfold BucketORM.model at 1. rewrite Hfree. simpl.
  set (orm1 := {| BucketORM.models := _; BucketORM.heap := _ |}).
  destruct (registry_calls_preserve cs orm1 n (length (BucketORM.heap orm))
              (NewBucketModel n)) as [Hk Hm].
  { simpl. apply lookup_insert_eq. }
  { simpl. by rewrite lookup_app_r, Nat.sub_diag. }
  unfold BucketORM.model. rewrite Hk.
  unfold BucketORM.deref. by rewrite Hm.
Qed.

(** X14. What the registry hands out.  After any sequence of requests to
    a new registry, every entry refers to an instance of the kind its key
    tells and no two keys share an instance.  Hence model(n) returns a
    plain model named [n] whenever [n] does not end in [_schema];
    schemaModel(n, s) returns a schema-aware model of [n], with some
    schema, or else the plain model that is named [n_schema]; and model
    returns different instances for different names. *)
Theorem registry_instances cs :
  let orm := registry_calls cs BucketORM.new in
  registry_ok orm ∧
  (∀ n, endsWith n "_schema" = false →
     let '(a, orm') := BucketORM.model n orm in
     BucketORM.deref orm' a = Some (NewBucketModel n)) ∧
  (∀ n sd,
     let '(a, orm') := BucketORM.schemaModel n sd orm in
     BucketORM.deref orm' a = Some (NewBucketModel (n +:+ "_schema")) ∨
     ∃ s, BucketORM.deref orm' a = Some (NewBucketSchemaModel n s)) ∧
  (∀ n1 n2, n1 ≠ n2 →
     let '(a, orm1) := BucketORM.model n1 orm in
     let '(b, _) := BucketORM.model n2 orm1 in
     a ≠ b).
Proof.
  intros orm.
  assert (Hok : registry_ok orm) by apply registry_ok_calls, registry_ok_new.
  split_and!; [done|..].
  - intros n Hn.
    pose proof (registry_ok_call orm (CallModel n) Hok) as [Hentries _].
    pose proof (model_lookup n orm) as Hlook. simpl in Hentries.
    destruct (BucketORM.model n orm) as [a orm']. simpl in Hentries, Hlook.
    destruct (Hentries n a Hlook) as [H|(n' & s & -> & _)]; [done|].
    by rewrite endsWith_app in Hn.
  - intros n sd.
    pose proof (registry_ok_call orm (CallSchemaModel n sd) Hok) as [Hentries _].
    pose proof (schemaModel_lookup n sd orm) as Hlook. simpl in Hentries.
    destruct (BucketORM.schemaModel n sd orm) as [a orm']. simpl in Hentries, Hlook.
    destruct (Hentries _ a Hlook) as [H|(n' & s & Heq & H)]; [by left|].
    right. exists s. by rewrite (append_inj_r n n' "_schema" Heq).
  - intros n1 n2 Hne.
    pose proof (registry_ok_call orm (CallModel n1) Hok) as Hok1.
    pose proof (model_lookup n1 orm) as Hlook1. simpl in Hok1.
    destruct (BucketORM.model n1 orm) as [a orm1]. simpl in Hok1, Hlook1.
    pose proof (registry_ok_call orm1 (CallModel n2) Hok1) as [_ Hinj].
    pose proof (model_lookup n2 orm1) as Hlook2.
    pose proof (λ i Hi, proj1 (registry_call_preserves orm1 (CallModel n2) n1 a i
                                 Hlook1 Hi)) as Hkeep.
    destruct Hok1 as [Hentries1 _].
    assert (∃ i, BucketORM.heap orm1 !! a = Some i) as [i Hi].
    { apply lookup_lt_is_Some_2. by eapply registry_entry_valid, Hentries1. }
    specialize (Hkeep i Hi). simpl in Hinj, Hkeep.
    destruct (BucketORM.model n2 orm1) as [b orm2]. simpl in Hinj, Hlook2, Hkeep.
    intros ->. by apply Hne, (Hinj n1 n2 b).
Qed.

(** ** The namespace of a model *)

(** X15. The namespace invariant.  Whatever sequence of create, findOne,
    findMany, update and delete calls is made, on this model and on
    others, with time passing in between, every object under the prefix of
    the model stays the serialization of an object at the key of a
    non-empty id free of [.json], as long as the names of the models
    written to hold no slash and no record is created under an id that
    holds [.json].  It holds of the empty bucket. *)
Theorem namespace_invariant m ops w :
  contains m "/" = false →
  Forall (λ op, usual op = true) ops →
  written_by_model m w →
  written_by_model m (run_operations ops w) ∧
  ∀ t, written_by_model m (run_operations ops (empty_world t)).
Proof.
  intros Hm Hops Hinv. split; [by apply written_operations|].
  intros t. apply written_operations; [done..|]. apply written_empty.
Qed.

(** X16. findMany lists what findOne finds: in a bucket in which the
    namespace of the model holds what the model wrote, findMany without
    options succeeds, changes no object and returns, each of them once, the
    records that findOne returns for the id they carry. *)
Theorem findMany_lists_what_findOne_finds m w :
  written_by_model m w →
  ∃ rs w',
    BucketModel.findMany m None w = (Returned rs, w') ∧
    objects w' = objects w ∧
    NoDup rs ∧
    ∀ r, r ∈ rs ↔
         ∃ X, field r "id" = VStr X ∧
              (BucketModel.findOne m (VStr X) w).1 = Returned r.
Proof.
  intros Hinv.
  destruct (findMany_written m w Hinv) as (rs & w' & Hrun & Hobj & Hnd & Hrs).
  exists rs, w'. split_and!; [done..|].
  intros r. rewrite Hrs. split.
  - intros (X & Hid & HX & Hst). exists X. split; [done|].
    by rewrite (findOne_stored m w X r).
  - intros (X & Hid & Hfind).
    destruct (findOne_written m w X r Hinv Hfind) as (HX & Hst & _).
    { intros ->. discriminate Hid. }
    by exists X.
Qed.

(** X17. A created record joins the listing: in such a bucket, after a
    create that succeeded for a payload of plain JSON data, findMany
    returns the record that create returned together with the records it
    returned before, and nothing else. *)
Theorem created_record_is_listed m data w r w1 rs0 w0 :
  written_by_model m w →
  contains m "/" = false →
  usual (DoCreate m data) = true →
  plain_fields data = true →
  valid_time (clock w) = true →
  BucketModel.findMany m None w = (Returned rs0, w0) →
  BucketModel.create m data w = (Returned r, w1) →
  ∃ rs w2,
    BucketModel.findMany m None w1 = (Returned rs, w2) ∧
    NoDup rs ∧
    ∀ r', r' ∈ rs ↔ r' = r ∨ r' ∈ rs0.
Proof.
  intros Hinv Hm Hop Hplain Ht Hbefore Hrun.
  pose proof (written_operation m w (DoCreate m data) Hm Hop Hinv) as Hinv1.
  cbn [run_operation] in Hinv1. rewrite Hrun in Hinv1. cbn [snd] in Hinv1.
  destruct (findMany_written m w Hinv) as (rs0' & w0' & Hrun0 & _ & _ & Hrs0).
  rewrite Hbefore in Hrun0. injection Hrun0 as <- <-.
  destruct (findMany_written m w1 Hinv1) as (rs & w2 & Hrun1 & _ & Hnd & Hrs).
  exists rs, w2. split_and!; [done..|].
  apply andb_prop in Hop as [[_ Hwf]%andb_prop _].
  destruct (create_returned m data w r w1 Hrun)
    as (X & existing & json & Hid & HX & Hget & Htr & Hr & Hjson & Hw1).
  destruct (created_record_valid data X (clock w)) as [Hvalid Hpl]; [done..|].
  rewrite <- Hr in Hvalid, Hpl.
  assert (Hfind : BucketModel.findOne m (VStr X) w1
            = (Returned r, record_call (Download (BucketModel.generateKey m X)) w1)).
  { rewrite findOne_getRecord by done.
    apply (getRecord_valid_record m X _ _ json); [done..|].
    rewrite Hw1. simpl. apply lookup_insert_eq. }
  destruct (findOne_written m w1 X r Hinv1) as (_ & Hnew & Hnewid);
    [by rewrite Hfind|by rewrite Hr|].
  assert (Hold : ∀ Y r', Y ≠ X → stored_record m w1 Y r' ↔ stored_record m w Y r').
  { intros Y r' HY. apply stored_record_ext. rewrite Hw1. simpl.
    apply lookup_insert_ne. intros Heq. by apply generateKey_inj in Heq. }
  assert (Hfree : ∀ r', ¬ stored_record m w X r').
  { intros r' Hst.
    destruct (getRecord_stored_record m w w X r' eq_refl Hst) as [Hget' Htr'].
    rewrite Hget' in Hget. simpl in Hget. congruence. }
  intros r'. rewrite Hrs, Hrs0. split.
  - intros (Y & HidY & HY & Hst).
    destruct (decide (Y = X)) as [->|Hne].
    + left. by apply (stored_record_unique m w1 X r' r).
    + right. exists Y. split_and!; [done..|]. by apply Hold.
  - intros [->|(Y & HidY & HY & Hst)].
    + by exists X.
    + exists Y. split_and!; [done..|]. apply Hold; [|done].
      intros ->. by apply (Hfree r').
Qed.

(** X18. A deleted record leaves the listing: in such a bucket, after a
    delete that succeeded findMany returns the records it returned before
    except the one that carries the deleted id. *)
Theorem deleted_record_is_not_listed m X w w1 rs0 w0 :
  written_by_model m w →
  BucketModel.findMany m None w = (Returned rs0, w0) →
  BucketModel.delete m (VStr X) w = (Returned (), w1) →
  ∃ rs w2,
    BucketModel.findMany m None w1 = (Returned rs, w2) ∧
    NoDup rs ∧
    ∀ r, r ∈ rs ↔ r ∈ rs0 ∧ field r "id" ≠ VStr X.
Proof.
  intros Hinv Hbefore Hrun.
  assert (Hw1 : objects w1 = base.delete (BucketModel.generateKey m X) (objects w)).
  { destruct (BucketModel.invalid_id (VStr X)) eqn:HX.
    { unfold BucketModel.delete in Hrun. by rewrite HX in Hrun. }
    apply invalid_id_false in HX as (? & [= <-] & HX).
    destruct (BucketModel.getRecord m X w) as [[existing|e] w'] eqn:Hget.
    2: { unfold BucketModel.delete in Hrun.
         rewrite (proj2 (invalid_id_false (VStr X))) in Hrun by eauto.
         simpl BucketModel.text_of in Hrun. by rewrite run_bind, Hget in Hrun. }
    destruct (truthy existing) eqn:Htr.
    2: { rewrite (delete_missing m X w existing) in Hrun; [done..|by rewrite Hget|done]. }
    rewrite (delete_stored m X w existing) in Hrun; [|done|by rewrite Hget|done].
    by injection Hrun as <-. }
  assert (Hinv1 : written_by_model m w1) by by eapply (written_delete m w).
  destruct (findMany_written m w Hinv) as (rs0' & w0' & Hrun0 & _ & _ & Hrs0).
  rewrite Hbefore in Hrun0. injection Hrun0 as <- <-.
  destruct (findMany_written m w1 Hinv1) as (rs & w2 & Hrun1 & _ & Hnd & Hrs).
  exists rs, w2. split_and!; [done..|].
  assert (Hold : ∀ Y r, Y ≠ X → stored_record m w1 Y r ↔ stored_record m w Y r).
  { intros Y r' HY. apply stored_record_ext. rewrite Hw1.
    apply lookup_delete_ne. intros Heq. by apply generateKey_inj in Heq. }
  assert (Hgone : ∀ r, ¬ stored_record m w1 X r).
  { intros r (body & ms & Hbody & _). rewrite Hw1 in Hbody.
    by rewrite lookup_delete_eq in Hbody. }
  intros r. rewrite Hrs, Hrs0. split.
  - intros (Y & HidY & HY & Hst).
    assert (Y ≠ X) by (intros ->; by apply (Hgone r)).
    split; [|congruence]. exists Y. split_and!; [done..|]. by apply Hold.
  - intros [(Y & HidY & HY & Hst) Hne].
    assert (Y ≠ X) by congruence.
    exists Y. split_and!; [done..|]. by apply Hold.
Qed.

(** X19. An updated record replaces its former self in the listing: in
    such a bucket, after an update of a valid record of plain JSON data by
    a payload of plain JSON data, findMany returns the record that update
    returned together with the records it returned before, except the one
    that carried the id. *)
Theorem updated_record_is_listed m X d w existing r w1 rs0 w0 :
  written_by_model m w →
  (BucketModel.getRecord m X w).1 = Returned existing →
  valid_record existing = true →
  plain_fields existing = true →
  wf_value d = true →
  plain_fields d = true →
  valid_time (clock w) = true →
  BucketModel.findMany m None w = (Returned rs0, w0) →
  BucketModel.update m (VStr X) d w = (Returned r, w1) →
  ∃ rs w2,
    BucketModel.findMany m None w1 = (Returned rs, w2) ∧
    NoDup rs ∧
    ∀ r', r' ∈ rs ↔ r' = r ∨ (r' ∈ rs0 ∧ field r' "id" ≠ VStr X).
Proof.
  intros Hinv Hget Hvalid Hplain Hwfd Hpld Ht Hbefore Hrun.
  destruct (update_returned m (VStr X) d w r w1 Hrun)
    as (X' & existing' & json & [= <-] & HX & Hget' & Htr & Hr & Hjson & Hw1).
  assert (existing' = existing) as -> by congruence.
  destruct (updated_record_valid existing d X (clock w)) as [Hv Hp]; [done..|].
  rewrite <- Hr in Hv, Hp.
  assert (Hfind : BucketModel.findOne m (VStr X) w1
            = (Returned r, record_call (Download (BucketModel.generateKey m X)) w1)).
  { rewrite findOne_getRecord by done.
    apply (getRecord_valid_record m X _ _ json); [done..|].
    rewrite Hw1. simpl. apply lookup_insert_eq. }
  destruct (written_read m w X existing Hinv Hget Htr) as (Hwfe & Hplainid & _).
  assert (Hinv1 : written_by_model m w1).
  { rewrite Hr in Hjson.
    match type of Hjson with
    | JSON_stringify (VObj ?ps) = _ =>
        apply (written_insert_record m w w1 X ps json)
    end; [by rewrite Hw1|done..| | |done|done].
    - by apply wf_value_updated.
    - rewrite !lookup_set_prop_ne by done. apply lookup_set_prop_eq. }
  destruct (findMany_written m w Hinv) as (rs0' & w0' & Hrun0 & _ & _ & Hrs0).
  rewrite Hbefore in Hrun0. injection Hrun0 as <- <-.
  destruct (findMany_written m w1 Hinv1) as (rs & w2 & Hrun1 & _ & Hnd & Hrs).
  exists rs, w2. split_and!; [done..|].
  destruct (findOne_written m w1 X r Hinv1) as (_ & Hnew & Hnewid);
    [by rewrite Hfind|by rewrite Hr|].
  assert (Hold : ∀ Y r', Y ≠ X → stored_record m w1 Y r' ↔ stored_record m w Y r').
  { intros Y r' HY. apply stored_record_ext. rewrite Hw1. simpl.
    apply lookup_insert_ne. intros Heq. by apply generateKey_inj in Heq. }
  intros r'. rewrite Hrs, Hrs0. split.
  - intros (Y & HidY & HY & Hst).
    destruct (decide (Y = X)) as [->|Hne].
    + left. by apply (stored_record_unique m w1 X r' r).
    + right. split; [|congruence]. exists Y. split_and!; [done..|]. by apply Hold.
  - intros [->|[(Y & HidY & HY & Hst) Hne]].
    + by exists X.
    + assert (Y ≠ X) by congruence.
      exists Y. split_and!; [done..|]. by apply Hold.
Qed.

(** X20. What create stores can be read, whatever the payload holds: the
    body is the JSON text of an object, and findOne for the id returns an
    object that carries the id and, when the clock shows a time that a
    Date can hold, createdAt and updatedAt as Dates of that time; for the
    other fields see X5. *)
Theorem created_record_is_readable m data w r w1 :
  wf_value data = true →
  valid_time (clock w) = true →
  BucketModel.create m data w = (Returned r, w1) →
  ∃ X ps,
    get data "id" = inr (VStr X) ∧
    BucketModel.findOne m (VStr X) w1
    = (Returned (VObj ps), record_call (Download (BucketModel.generateKey m X)) w1) ∧
    lookup_prop "id" ps = Some (VStr X) ∧
    lookup_prop "createdAt" ps = Some (VDate (Some (clock w))) ∧
    lookup_prop "updatedAt" ps = Some (VDate (Some (clock w))).
Proof.
  intros Hwf Ht Hrun.
  destruct (create_returned m data w r w1 Hrun)
    as (X & existing & json & Hid & HX & _ & _ & -> & Hjson & ->).
  destruct (wf_value_own_props data Hwf) as [_ Hnd].
  pose proof (wf_value_created data (clock w) Hwf) as Hwfr.
  set (ps := set_prop "updatedAt" (Date_of_time (clock w))
               (set_prop "createdAt" (Date_of_time (clock w))
                  (spread [] (own_props data)))) in *.
  set (w1 := {| objects := _; calls := _; clock := _ |}).
  destruct (getRecord_stored m X w1 ps json Hwfr Hjson) as (ms & Hms & Hget).
  { simpl. apply lookup_insert_eq. }
  assert (Hidf : lookup_prop "id" ps = Some (VStr X)).
  { unfold ps. rewrite !lookup_set_prop_ne by done.
    rewrite lookup_spread, lookup_prop_rev by done.
    by rewrite (get_Some data "id" (VStr X)). }
  assert (Hc : lookup_prop "createdAt" ps = Some (VDate (Some (clock w)))).
  { unfold ps. rewrite lookup_set_prop_ne by done.
    by rewrite lookup_set_prop_eq, Date_of_time_valid. }
  assert (Hu : lookup_prop "updatedAt" ps = Some (VDate (Some (clock w)))).
  { unfold ps. by rewrite lookup_set_prop_eq, Date_of_time_valid. }
  pose proof (decoded_id ps ms X Hwfr Hms Hidf) as Hid'.
  destruct (decoded_timestamps ps ms _ _ Hwfr Hms Hc Hu) as [Hc' Hu'].
  pose proof (decoded_object_truthy ms) as Htr.
  destruct (decoded (JObj ms)) as [| | | | | | |ps'] eqn:Hdec;
    try discriminate Hid'.
  exists X, ps'. split_and!; [done| | | |].
  - unfold BucketModel.findOne.
    rewrite (proj2 (invalid_id_false (VStr X))) by eauto.
    simpl BucketModel.text_of. by rewrite Hget.
  - unfold field in Hid'. cbn [own_props] in Hid'.
    by destruct (lookup_prop "id" ps') as [?|]; simplify_eq/=.
  - unfold field in Hc'. cbn [own_props] in Hc'.
    by destruct (lookup_prop "createdAt" ps') as [?|]; simplify_eq/=.
  - unfold field in Hu'. cbn [own_props] in Hu'.
    by destruct (lookup_prop "updatedAt" ps') as [?|]; simplify_eq/=.
Qed.

(** ** S3StorageAdapter and the configuration *)

(** X21. The adapter over a service that answers is the collaborator of
    the model.  Over a service that holds the objects of the bucket and
    answers every command, upload, download, delete and list resolve, with
    the results and the effects of the reliable key-to-body store that the
    model is verified against: in particular the rejection of GetObject for
    a missing key becomes the result null, not an error; an empty listing
    is the empty array; and a key that is empty is kept as it is. *)
Theorem adapter_is_the_collaborator this_bucket w :
  (∀ key data, resolved (S3StorageAdapter.upload memory_service this_bucket key data w)
               = Some (storage_upload key data w)) ∧
  (∀ key, resolved (S3StorageAdapter.download memory_service this_bucket key w)
          = Some (storage_download key w)) ∧
  (∀ key, resolved (S3StorageAdapter.delete memory_service this_bucket key w)
          = Some (storage_delete key w)) ∧
  (∀ prefix, resolved (S3StorageAdapter.list memory_service this_bucket prefix w)
             = Some (storage_list prefix w)).
Proof.
  split_and!.
  - done.
  - intros key. unfold S3StorageAdapter.download, storage_download. simpl.
    by destruct (objects w !! key).
  - done.
  - intros prefix. unfold S3StorageAdapter.list, storage_list. simpl.
    assert (Hkeys : ∀ l : list string,
              map (λ Key, or_string Key EmptyString) (map Some l) = l).
    { induction l as [|[|c key] l IH]; [done|..]; simpl; by rewrite IH. }
    destruct (filter _ _) as [|k keys]; [done|]. cbn [Contents].
    change (Some k :: map Some keys) with (map Some (k :: keys)).
    by rewrite (Hkeys (k :: keys)).
Qed.

(** X22. What the adapter rejects with.  Whatever the client does, a
    rejection of upload, download, delete or list is a STORAGE_ERROR whose
    details are the very error that the client (or, for download, the
    stream of the body) raised, and whose message is that of the operation
    followed by the message of the error, or by [Unknown error] when the
    error is not an Error.  download alone lets an error go: it rejects
    only with an error that is neither named NoSuchKey nor of status 404. *)
Theorem adapter_rejects_with_storage_error {State}
    (send : Command → State → (S3Error + Output) * State) this_bucket s :
  let rejection text f :=
    failure_code f = STORAGE_ERROR ∧
    failure_message f
    = text +:+ (if instanceof_Error (failure_details f)
                then error_message (failure_details f) else "Unknown error") in
  (∀ key data f s', S3StorageAdapter.upload send this_bucket key data s = (inl f, s') →
     rejection "Failed to upload object to S3: "%string f ∧
     send (PutObjectCommand this_bucket key data "application/json") s
     = (inl (failure_details f), s')) ∧
  (∀ key f s', S3StorageAdapter.download send this_bucket key s = (inl f, s') →
     rejection "Failed to download object from S3: "%string f ∧
     error_name (failure_details f) ≠ Some "NoSuchKey"%string ∧
     httpStatusCode (failure_details f) ≠ Some 404%Z ∧
     (send (GetObjectCommand this_bucket key) s = (inl (failure_details f), s') ∨
      ∃ response, send (GetObjectCommand this_bucket key) s = (inr response, s') ∧
                  Body response = Some (inl (failure_details f)))) ∧
  (∀ key f s', S3StorageAdapter.delete send this_bucket key s = (inl f, s') →
     rejection "Failed to delete object from S3: "%string f ∧
     send (DeleteObjectCommand this_bucket key) s = (inl (failure_details f), s')) ∧
  (∀ prefix f s', S3StorageAdapter.list send this_bucket prefix s = (inl f, s') →
     rejection "Failed to list objects from S3: "%string f ∧
     send (ListObjectsV2Command this_bucket prefix) s = (inl (failure_details f), s')).
Proof.
  intros rejection.
  assert (Hcatch : ∀ error f,
            S3StorageAdapter.download_catch error = inl f →
            rejection "Failed to download object from S3: "%string f ∧
            error_name error ≠ Some "NoSuchKey"%string ∧
            httpStatusCode error ≠ Some 404%Z ∧ failure_details f = error).
  { intros error f. unfold S3StorageAdapter.download_catch.
    destruct (bool_decide (error_name error = Some "NoSuchKey"%string)) eqn:Hn; [done|].
    destruct (bool_decide (httpStatusCode error = Some 404%Z)) eqn:Hs; [done|].
    apply bool_decide_eq_false in Hn, Hs. simpl. intros [= <-]. by repeat split. }
  split_and!.
  - intros key data f s'. unfold S3StorageAdapter.upload.
    destruct (send _ s) as [[error|response] s0]; [|done].
    intros [= <- <-]. by repeat split.
  - intros key f s'. unfold S3StorageAdapter.download.
    destruct (send _ s) as [[error|response] s0].
    + intros [= H <-]. destruct (Hcatch error f H) as (? & ? & ? & ->).
      split_and!; try done. by left.
    + destruct (Body response) as [[error|body]|] eqn:Hbody; [|done..].
      intros [= H <-]. destruct (Hcatch error f H) as (? & ? & ? & ->).
      split_and!; try done. right. by exists response.
  - intros key f s'. unfold S3StorageAdapter.delete.
    destruct (send _ s) as [[error|response] s0]; [|done].
    intros [= <- <-]. by repeat split.
  - intros prefix f s'. unfold S3StorageAdapter.list.
    destruct (send _ s) as [[error|response] s0]; [|done].
    intros [= <- <-]. by repeat split.
Qed.

(** X23. The client that fromEnv configures.  Whatever the environment
    holds, the bucket and the region of the client are never empty: a
    variable that is unset or empty gives way to [bucketorm-dev] and
    [us-east-1].  The client is given credentials exactly when both the
    access key id and the secret are set and not empty, and never one
    without the other; path-style addressing is on exactly when
    S3_FORCE_PATH_STYLE is the text [true]. *)
Theorem fromEnv_client env :
  let '(this_bucket, client) := S3StorageAdapter.new (fromEnv env) in
  this_bucket ≠ EmptyString ∧
  client_region client ≠ EmptyString ∧
  (env !! "BUCKET_NAME" = None ∨ env !! "BUCKET_NAME" = Some EmptyString →
   this_bucket = "bucketorm-dev"%string) ∧
  (env !! "AWS_REGION" = None ∨ env !! "AWS_REGION" = Some EmptyString →
   client_region client = "us-east-1"%string) ∧
  (∀ id secret,
     client_credentials client = Some (id, secret) ↔
     env !! "AWS_ACCESS_KEY_ID" = Some id ∧ id ≠ EmptyString ∧
     env !! "AWS_SECRET_ACCESS_KEY" = Some secret ∧ secret ≠ EmptyString) ∧
  (client_forcePathStyle client = true ↔
   env !! "S3_FORCE_PATH_STYLE" = Some "true"%string) ∧
  client_endpoint client = env !! "S3_ENDPOINT".
Proof.
  unfold S3StorageAdapter.new, fromEnv. simpl.
  split_and!.
  - by destruct (env !! "BUCKET_NAME") as [[]|].
  - by destruct (env !! "AWS_REGION") as [[]|].
  - by intros [-> | ->].
  - by intros [-> | ->].
  - intros id secret.
    destruct (env !! "AWS_ACCESS_KEY_ID") as [[|a k]|],
             (env !! "AWS_SECRET_ACCESS_KEY") as [[|b s]|]; split;
      try (intros (? & ? & ? & ?)); try done; try congruence.
    intros [= <- <-]. done.
  - by rewrite bool_decide_eq_true.
  - done.
Qed.

(** ** Bodies that are JSON but no record *)

(** X24. A body that is the JSON text [null] is valid JSON and yet no
    operation can read it: the conversion of the timestamps reads
    [createdAt] of null, and the TypeError of that read is wrapped like any
    other failure.  findOne and the existence checks of create, update and
    delete all fail with STORAGE_ERROR, after the download alone. *)
Theorem null_body_fails m X data d w body :
  X ≠ EmptyString →
  objects w !! BucketModel.generateKey m X = Some body →
  body ≠ EmptyString →
  JSON_parse_text (str body) = Some JNull →
  get data "id" = inr (VStr X) →
  let failure :=
    BucketORMException
      (read_failure X (TypeError "Cannot read properties of null (reading 'createdAt')")) in
  let w' := record_call (Download (BucketModel.generateKey m X)) w in
  BucketModel.findOne m (VStr X) w = (Threw failure, w') ∧
  BucketModel.create m data w = (Threw failure, w') ∧
  BucketModel.update m (VStr X) d w = (Threw failure, w') ∧
  BucketModel.delete m (VStr X) w = (Threw failure, w').
Proof.
  intros HX Hbody Hne Hparse Hid failure w'.
  assert (Hinv : BucketModel.invalid_id (VStr X) = false).
  { apply invalid_id_false. eauto. }
  pose proof (getRecord_null_body m X w body Hbody Hne Hparse) as Hget.
  split_and!.
  - unfold BucketModel.findOne. by rewrite Hinv.
  - unfold BucketModel.create. rewrite run_bind, Hid. simpl native.
    unfold ret at 1. rewrite Hinv. simpl BucketModel.text_of.
    by rewrite run_bind, Hget.
  - unfold BucketModel.update. rewrite Hinv. simpl BucketModel.text_of.
    by rewrite run_bind, Hget.
  - unfold BucketModel.delete. rewrite Hinv. simpl BucketModel.text_of.
    by rewrite run_bind, Hget.
Qed.

(** X25. A body that is JSON for a falsy value other than null ([false],
    [0] or the empty string) is found by findOne, which returns that value
    instead of null or a record, and is absent for everything else: update
    and delete fail with RECORD_NOT_FOUND, and create succeeds and
    overwrites the body with the serialization of the new record. *)
Theorem falsy_body_is_absent m X data d w body j :
  X ≠ EmptyString →
  objects w !! BucketModel.generateKey m X = Some body →
  body ≠ EmptyString →
  JSON_parse_text (str body) = Some j →
  j ≠ JNull →
  truthy (value_of_json j) = false →
  get data "id" = inr (VStr X) →
  let key := BucketModel.generateKey m X in
  let w' := record_call (Download key) w in
  BucketModel.findOne m (VStr X) w = (Returned (value_of_json j), w') ∧
  BucketModel.update m (VStr X) d w = (Threw (BucketORMException (not_found X)), w') ∧
  BucketModel.delete m (VStr X) w = (Threw (BucketORMException (not_found X)), w') ∧
  ∃ r json,
    JSON_stringify r = Some json ∧
    BucketModel.create m data w
    = (Returned r,
       {| objects := <[key := json]> (objects w);
          calls := Upload key json :: Download key :: calls w;
          clock := clock w |}).
Proof.
  intros HX Hbody Hne Hparse Hj Htr Hid key w'.
  pose proof (getRecord_parsed m X w body j Hbody Hne Hparse Hj) as Hget.
  rewrite (decoded_falsy j Hj Htr) in Hget.
  assert (Hres : (BucketModel.getRecord m X w).1 = Returned (value_of_json j))
    by by rewrite Hget.
  split_and!.
  - unfold BucketModel.findOne.
    by rewrite (proj2 (invalid_id_false (VStr X))) by eauto.
  - by apply (update_missing m X d w (value_of_json j)).
  - by apply (delete_missing m X w (value_of_json j)).
  - destruct (create_over m data X w (value_of_json j) Hid HX Hres Htr)
      as (json & Hjson & Hrun).
    by eexists _, json.
Qed.

(** X26. The first schema wins: when schemaModel(n, s1) constructs the
    instance for [n] (the registry holds nothing under the key of [n]
    followed by [_schema]), a later schemaModel(n, s2), whatever requests
    the registry served in between, returns that same instance and leaves
    the registry alone, and getSchema on it is the schema of s1. *)
Theorem schemaModel_keeps_first_schema n sd1 sd2 cs orm :
  BucketORM.models orm !! (n +:+ "_schema") = None →
  let '(a, orm1) := BucketORM.schemaModel n sd1 orm in
  let orm2 := registry_calls cs orm1 in
  let '(b, orm3) := BucketORM.schemaModel n sd2 orm2 in
  b = a ∧ orm3 = orm2 ∧
  BucketORM.deref orm3 b = Some (NewBucketSchemaModel n (schema sd1)) ∧
  BucketORM.getSchema orm3 b = Some (schema sd1).
Proof.
  intros Hfree. unfold BucketORM.schemaModel at 1. rewrite Hfree. simpl.
  set (orm1 := {| BucketORM.models := _; BucketORM.heap := _ |}).
  destruct (registry_calls_preserve cs orm1 (n +:+ "_schema")
              (length (BucketORM.heap orm))
              (NewBucketSchemaModel n (schema sd1))) as [Hk Hm].
  { simpl. apply lookup_insert_eq. }
  { simpl. by rewrite lookup_app_r, Nat.sub_diag. }
  unfold BucketORM.schemaModel. rewrite Hk.
  unfold BucketORM.getSchema, BucketORM.deref. by rewrite Hm.
Qed.

(** * The further properties at concrete inputs *)

Lemma invalid_id_rejected_witness :
  BucketModel.create "user" numbered world_u1
  = (Threw (BucketORMException (invalid_data "Record must have a valid string ID")),
     world_u1) ∧
  BucketModel.findOne "user" (VNumber (Finite (number_of_Z 7))) world_u1
  = (Threw (BucketORMException (invalid_data "ID must be a valid string")), world_u1) ∧
  BucketModel.update "user" (VNumber (Finite (number_of_Z 7))) (VObj []) world_u1
  = (Threw (BucketORMException (invalid_data "ID must be a valid string")), world_u1) ∧
  BucketModel.delete "user" (VNumber (Finite (number_of_Z 7))) world_u1
  = (Threw (BucketORMException (invalid_data "ID must be a valid string")), world_u1).
Proof.
  apply (invalid_id_rejected "user" (VNumber (Finite (number_of_Z 7))) numbered
           (VObj []) world_u1).
  - intros X. discriminate.
  - reflexivity.
Defined.

Lemma create_on_free_key_witness :
  ∃ ps json,
    BucketModel.create "user" user_u1 (empty_world 1000)
    = (Returned (VObj ps),
       {| objects := <[BucketModel.generateKey "user" "u1" := json]>
                       (objects (empty_world 1000));
          calls := Upload (BucketModel.generateKey "user" "u1") json ::
                   Download (BucketModel.generateKey "user" "u1") ::
                   calls (empty_world 1000);
          clock := clock (empty_world 1000) |}) ∧
    JSON_stringify (VObj ps) = Some json ∧
    lookup_prop "createdAt" ps = Some (Date_of_time (clock (empty_world 1000))) ∧
    lookup_prop "updatedAt" ps = Some (Date_of_time (clock (empty_world 1000))) ∧
    ∀ k, k ≠ "createdAt"%string → k ≠ "updatedAt"%string →
      lookup_prop k ps = lookup_prop k (own_props user_u1).
Proof.
  apply (create_on_free_key "user" user_u1 "u1" (empty_world 1000)).
  - reflexivity.
  - discriminate.
  - apply (bool_decide_unpack _). vm_compute. reflexivity.
  - left. vm_compute. reflexivity.
Defined.

Lemma delete_removes_witness :
  let key := BucketModel.generateKey "user" "u1" in
  let w1 := {| objects := base.delete key (objects world_u1);
               calls := Delete key :: Download key :: calls world_u1;
               clock := clock world_u1 |} in
  BucketModel.delete "user" (VStr "u1") world_u1 = (Returned (), w1) ∧
  (∀ k, k ≠ key → objects w1 !! k = objects world_u1 !! k) ∧
  BucketModel.findOne "user" (VStr "u1") w1
  = (Returned VNull, record_call (Download key) w1) ∧
  BucketModel.delete "user" (VStr "u1") w1
  = (Threw (BucketORMException (not_found "u1")), record_call (Download key) w1).
Proof.
  apply (delete_removes "user" "u1" world_u1 (user_u1_created 1000 true)).
  - discriminate.
  - vm_compute. reflexivity.
  - reflexivity.
Defined.

Lemma create_then_findOne_witness :
  ∃ X, get user_u1 "id" = inr (VStr X) ∧
    BucketModel.findOne "user" (VStr X) world_u1
    = (Returned (user_u1_created 1000 true),
       record_call (Download (BucketModel.generateKey "user" X)) world_u1).
Proof.
  apply (create_then_findOne "user" user_u1 (empty_world 1000)
           (user_u1_created 1000 true) world_u1);
    vm_compute; reflexivity.
Defined.

Lemma update_then_findOne_witness :
  ∃ r w1,
    BucketModel.update "user" (VStr "u1") (VObj [("active", VBool false)]%string)
      (at_time 2000 world_u1) = (Returned r, w1) ∧
    field r "createdAt" = field (user_u1_created 1000 true) "createdAt" ∧
    BucketModel.findOne "user" (VStr "u1") w1
    = (Returned r, record_call (Download (BucketModel.generateKey "user" "u1")) w1).
Proof.
  apply (update_then_findOne "user" "u1" (VObj [("active", VBool false)]%string)
           (at_time 2000 world_u1) (user_u1_created 1000 true)).
  - discriminate.
  - vm_compute. reflexivity.
  - vm_compute. reflexivity.
  - vm_compute. reflexivity.
  - vm_compute. reflexivity.
  - vm_compute. reflexivity.
  - vm_compute. reflexivity.
Defined.

Lemma findMany_fails_on_corrupt_witness :
  ∃ id cause w',
    BucketModel.findMany "user" None corrupt_world
    = (Threw (BucketORMException (read_failure id cause)), w') ∧
    objects w' = objects corrupt_world.
Proof.
  apply (findMany_fails_on_corrupt "user" "u1" corrupt_world "{oops" None).
  - reflexivity.
  - vm_compute. reflexivity.
  - discriminate.
  - vm_compute. reflexivity.
Defined.


Lemma findMany_relative_options_witness :
  let x := Finite (number_of_Z (-1)) in
  let w' := (BucketModel.findMany "user" None world_ab).2 in
  let n := length records_ab - Z.to_nat (- -1) in
  BucketModel.findMany "user" (Some (only_offset x)) world_ab
  = (Returned (drop n records_ab), w') ∧
  BucketModel.findMany "user" (Some (only_limit x)) world_ab
  = (Returned (take n records_ab), w') ∧
  BucketModel.findMany "user" (Some (only_offset (Infinity false))) world_ab
  = (Returned [], w') ∧
  BucketModel.findMany "user" (Some (only_limit (Infinity false))) world_ab
  = (Returned records_ab, w') ∧
  BucketModel.findMany "user" (Some (only_offset (Infinity true))) world_ab
  = (Returned records_ab, w') ∧
  BucketModel.findMany "user" (Some (only_limit (Infinity true))) world_ab
  = (Returned [], w').
Proof.
  apply (findMany_relative_options "user" world_ab records_ab
           (BucketModel.findMany "user" None world_ab).2
           (Finite (number_of_Z (-1))) (-1)).
  - vm_compute. reflexivity.
  - reflexivity.
  - lia.
Defined.

Lemma models_do_not_interfere_witness :
  (∀ X X', BucketModel.generateKey "user" X ≠ BucketModel.generateKey "post" X') ∧
  (∀ data, (BucketModel.findOne "user" (VStr "u1")
              (BucketModel.create "post" data world_u1).2).1
           = (BucketModel.findOne "user" (VStr "u1") world_u1).1) ∧
  (∀ id' d, (BucketModel.findOne "user" (VStr "u1")
               (BucketModel.update "post" id' d world_u1).2).1
            = (BucketModel.findOne "user" (VStr "u1") world_u1).1) ∧
  (∀ id', (BucketModel.findOne "user" (VStr "u1")
             (BucketModel.delete "post" id' world_u1).2).1
          = (BucketModel.findOne "user" (VStr "u1") world_u1).1).
Proof.
  apply (models_do_not_interfere "user" "post" world_u1 (VStr "u1")).
  - reflexivity.
  - reflexivity.
  - discriminate.
Defined.

Lemma model_keeps_first_instance_witness :
  let '(a, orm1) := BucketORM.model "user" BucketORM.new in
  let orm2 := registry_calls [CallSchemaModel "user" {| schema := adult_schema |};
                              CallModel "post"] orm1 in
  let '(b, orm3) := BucketORM.model "user" orm2 in
  b = a ∧ orm3 = orm2 ∧ BucketORM.deref orm3 b = Some (NewBucketModel "user").
Proof.
  apply (model_keeps_first_instance "user"
           [CallSchemaModel "user" {| schema := adult_schema |}; CallModel "post"]
           BucketORM.new).
  vm_compute. reflexivity.
Defined.

Lemma namespace_invariant_witness :
  written_by_model "user" (run_operations operations_mixed (empty_world 1000)) ∧
  ∀ t, written_by_model "user" (run_operations operations_mixed (empty_world t)).
Proof.
  apply (namespace_invariant "user" operations_mixed (empty_world 1000)).
  - reflexivity.
  - repeat (constructor; [vm_compute; reflexivity|]). constructor.
  - apply written_empty.
Defined.

Lemma findMany_lists_what_findOne_finds_witness :
  ∃ rs w',
    BucketModel.findMany "user" None world_ab = (Returned rs, w') ∧
    objects w' = objects world_ab ∧
    NoDup rs ∧
    ∀ r, r ∈ rs ↔
         ∃ X, field r "id" = VStr X ∧
              (BucketModel.findOne "user" (VStr X) world_ab).1 = Returned r.
Proof.
  apply (findMany_lists_what_findOne_finds "user" world_ab).
  change world_ab with (run_operations operations_ab (empty_world 1000)).
  apply written_operations.
  - reflexivity.
  - repeat (constructor; [vm_compute; reflexivity|]). constructor.
  - apply written_empty.
Defined.

Lemma created_record_is_listed_witness :
  ∃ rs w2,
    BucketModel.findMany "user" None (BucketModel.create "user" user_u1 world_ab).2
    = (Returned rs, w2) ∧
    NoDup rs ∧
    ∀ r', r' ∈ rs ↔ r' = user_u1_created 1000 true ∨ r' ∈ records_ab.
Proof.
  apply (created_record_is_listed "user" user_u1 world_ab
           (user_u1_created 1000 true)
           (BucketModel.create "user" user_u1 world_ab).2
           records_ab (BucketModel.findMany "user" None world_ab).2).
  - change world_ab with (run_operations operations_ab (empty_world 1000)).
    apply written_operations.
    + reflexivity.
    + repeat (constructor; [vm_compute; reflexivity|]). constructor.
    + apply written_empty.
  - reflexivity.
  - vm_compute. reflexivity.
  - vm_compute. reflexivity.
  - vm_compute. reflexivity.
  - vm_compute. reflexivity.
  - vm_compute. reflexivity.
Defined.

Lemma deleted_record_is_not_listed_witness :
  ∃ rs w2,
    BucketModel.findMany "user" None (BucketModel.delete "user" (VStr "a") world_ab).2
    = (Returned rs, w2) ∧
    NoDup rs ∧
    ∀ r, r ∈ rs ↔ r ∈ records_ab ∧ field r "id" ≠ VStr "a".
Proof.
  apply (deleted_record_is_not_listed "user" "a" world_ab
           (BucketModel.delete "user" (VStr "a") world_ab).2
           records_ab (BucketModel.findMany "user" None world_ab).2).
  - change world_ab with (run_operations operations_ab (empty_world 1000)).
    apply written_operations.
    + reflexivity.
    + repeat (constructor; [vm_compute; reflexivity|]). constructor.
    + apply written_empty.
  - vm_compute. reflexivity.
  - vm_compute. reflexivity.
Defined.

Lemma updated_record_is_listed_witness :
  ∃ rs w2,
    BucketModel.findMany "user" None
      (BucketModel.update "user" (VStr "u1") (VObj [("active", VBool false)]%string)
         (at_time 2000 world_u1)).2
    = (Returned rs, w2) ∧
    NoDup rs ∧
    ∀ r', r' ∈ rs ↔
          r' = user_u1_created 2000 false ∨
          (r' ∈ [user_u1_created 1000 true] ∧ field r' "id" ≠ VStr "u1").
Proof.
  apply (updated_record_is_listed "user" "u1" (VObj [("active", VBool false)]%string)
           (at_time 2000 world_u1) (user_u1_created 1000 true)
           (user_u1_created 2000 false)
           (BucketModel.update "user" (VStr "u1") (VObj [("active", VBool false)]%string)
              (at_time 2000 world_u1)).2
           [user_u1_created 1000 true]
           (BucketModel.findMany "user" None (at_time 2000 world_u1)).2).
  - change (at_time 2000 world_u1)
      with (run_operations [DoCreate "user" user_u1; ClockAt 2000] (empty_world 1000)).
    apply written_operations.
    + reflexivity.
    + repeat (constructor; [vm_compute; reflexivity|]). constructor.
    + apply written_empty.
  - vm_compute. reflexivity.
  - vm_compute. reflexivity.
  - vm_compute. reflexivity.
  - vm_compute. reflexivity.
  - vm_compute. reflexivity.
  - vm_compute. reflexivity.
  - vm_compute. reflexivity.
  - vm_compute. reflexivity.
Defined.

Lemma created_record_is_readable_witness :
  ∃ X ps,
    get user_with_login "id" = inr (VStr X) ∧
    BucketModel.findOne "user" (VStr X)
      (BucketModel.create "user" user_with_login (empty_world 1000)).2
    = (Returned (VObj ps),
       record_call (Download (BucketModel.generateKey "user" X))
         (BucketModel.create "user" user_with_login (empty_world 1000)).2) ∧
    lookup_prop "id" ps = Some (VStr X) ∧
    lookup_prop "createdAt" ps = Some (VDate (Some (clock (empty_world 1000)))) ∧
    lookup_prop "updatedAt" ps = Some (VDate (Some (clock (empty_world 1000)))).
Proof.
  apply (created_record_is_readable "user" user_with_login (empty_world 1000)
           (user_with_login)
           (BucketModel.create "user" user_with_login (empty_world 1000)).2).
  - vm_compute. reflexivity.
  - vm_compute. reflexivity.
  - vm_compute. reflexivity.
Defined.

Lemma null_body_fails_witness :
  let failure :=
    BucketORMException
      (read_failure "u1"
         (TypeError "Cannot read properties of null (reading 'createdAt')")) in
  let w' := record_call (Download (BucketModel.generateKey "user" "u1")) null_world in
  BucketModel.findOne "user" (VStr "u1") null_world = (Threw failure, w') ∧
  BucketModel.create "user" user_u1 null_world = (Threw failure, w') ∧
  BucketModel.update "user" (VStr "u1") (VObj []) null_world = (Threw failure, w') ∧
  BucketModel.delete "user" (VStr "u1") null_world = (Threw failure, w').
Proof.
  apply (null_body_fails "user" "u1" user_u1 (VObj []) null_world "null").
  - discriminate.
  - vm_compute. reflexivity.
  - discriminate.
  - vm_compute. reflexivity.
  - reflexivity.
Defined.

Lemma falsy_body_is_absent_witness :
  let key := BucketModel.generateKey "user" "u1" in
  let w' := record_call (Download key) false_world in
  BucketModel.findOne "user" (VStr "u1") false_world = (Returned (VBool false), w') ∧
  BucketModel.update "user" (VStr "u1") (VObj []) false_world
  = (Threw (BucketORMException (not_found "u1")), w') ∧
  BucketModel.delete "user" (VStr "u1") false_world
  = (Threw (BucketORMException (not_found "u1")), w') ∧
  ∃ r json,
    JSON_stringify r = Some json ∧
    BucketModel.create "user" user_u1 false_world
    = (Returned r,
       {| objects := <[key := json]> (objects false_world);
          calls := Upload key json :: Download key :: calls false_world;
          clock := clock false_world |}).
Proof.
  apply (falsy_body_is_absent "user" "u1" user_u1 (VObj []) false_world "false"
           (JBool false)).
  - discriminate.
  - vm_compute. reflexivity.
  - discriminate.
  - vm_compute. reflexivity.
  - discriminate.
  - reflexivity.
  - reflexivity.
Defined.

Lemma schemaModel_keeps_first_schema_witness :
  let '(a, orm1) := BucketORM.schemaModel "user" {| schema := adult_schema |}
                      BucketORM.new in
  let orm2 := registry_calls [CallModel "user"; CallModel "user_schema";
                              CallSchemaModel "post" {| schema := any_schema |}] orm1 in
  let '(b, orm3) := BucketORM.schemaModel "user" {| schema := any_schema |} orm2 in
  b = a ∧ orm3 = orm2 ∧
  BucketORM.deref orm3 b = Some (NewBucketSchemaModel "user" adult_schema) ∧
  BucketORM.getSchema orm3 b = Some adult_schema.
Proof.
  apply (schemaModel_keeps_first_schema "user" {| schema := adult_schema |}
           {| schema := any_schema |}
           [CallModel "user"; CallModel "user_schema";
            CallSchemaModel "post" {| schema := any_schema |}] BucketORM.new).
  vm_compute. reflexivity.
Defined.
